(** * Cloudmotiv: the phrase locator of [src/utils/HighlightManager.ts]

    A shallow embedding of [HighlightManager] (text normaliser, fuzzy
    matcher, page locator, span resolver, rectangle merger) and the
    properties of it that the specification states; then of the code
    around it (the highlight store, the overlay, the reference markers
    and the click handler, the viewer's text extraction, the search
    utilities) and properties that this code shows.

    Conventions of the embedding.

    - A JavaScript string is the list of its UTF-16 code units.  The
      development covers the strings whose code units are below 256 (ASCII
      and Latin-1), held as [list ascii]; that range is closed under
      [toLowerCase] and under every operation of the normaliser.
    - A JavaScript number that counts or indexes is a [Z] ([-1] is the
      "not found" answer of [indexOf]) or a [nat]; a coordinate is a
      rational [Q], standing for the double it is in the program.
      Quotients and products of lengths and offsets are rounded the way
      doubles are ([roundDouble]).  Sums, differences and products of
      coordinates are taken exactly; what is proved of coordinates is
      stated where the rounding of doubles does not bear on it:
      comparisons, minima and maxima, order, and whole numbers small
      enough for the arithmetic on them to be exact in doubles.
    - [console.log], [console.warn] and [console.error] append to a trace
      of diagnostics that the functions return next to their value. *)

From Stdlib Require Import Ascii String.
From Stdlib Require Import List Sorted Permutation Bool Arith ZArith Lia QArith Qminmax Qabs Qround Lqa.
Import ListNotations.
Close Scope Q_scope.
Open Scope nat_scope.

(* ================================================================== *)
(** * Strings as lists of code units                                   *)
(* ================================================================== *)

Module JsString.

Definition jsstring := list ascii.

(** A literal. *)
Definition lit (s : string) : jsstring := list_ascii_of_string s.

Definition code (c : ascii) : N := N_of_ascii c.

Definition between (lo hi : N) (c : ascii) : bool :=
  ((lo <=? code c) && (code c <=? hi))%N.

(** [\d] *)
Definition is_digit (c : ascii) : bool := between 48 57 c.

(** [\w] is [A-Za-z0-9_]. *)
Definition is_word (c : ascii) : bool :=
  between 65 90 c || between 97 122 c || is_digit c || (code c =? 95)%N.

(** [\s], and what [trim] removes: TAB, LF, VT, FF, CR, SP and, below 256,
    the no-break space U+00A0. *)
Definition is_space (c : ascii) : bool :=
  between 9 13 c || (code c =? 32)%N || (code c =? 160)%N.

(** [String.prototype.toLowerCase] on one code unit below 256: [A-Z], and
    the Latin-1 capitals U+00C0..U+00DE except the multiplication sign
    U+00D7, move up by 32. *)
Definition lower (c : ascii) : ascii :=
  if between 65 90 c || (between 192 222 c && negb (code c =? 215)%N)
  then ascii_of_N (code c + 32)
  else c.

Definition toLowerCase (s : jsstring) : jsstring := map lower s.

(** Length of the longest prefix whose characters all satisfy [p]. *)
Fixpoint span (p : ascii -> bool) (s : jsstring) : nat :=
  match s with
  | c :: r => if p c then S (span p r) else 0
  | [] => 0
  end.

Fixpoint startsWith (s prefix : jsstring) {struct prefix} : bool :=
  match prefix, s with
  | [], _ => true
  | p :: prefix', c :: s' => Ascii.eqb c p && startsWith s' prefix'
  | _ :: _, [] => false
  end.

Definition endsWith (s suffix : jsstring) : bool :=
  startsWith (rev s) (rev suffix).

(** [s.includes(sub)] *)
Fixpoint includes (s sub : jsstring) : bool :=
  startsWith s sub ||
  match s with
  | [] => false
  | _ :: r => includes r sub
  end.

(** [s.indexOf(sub)], counted from [i]; [-1] when [sub] does not occur. *)
Fixpoint indexOf_from (i : Z) (s sub : jsstring) : Z :=
  if startsWith s sub then i
  else match s with
       | [] => (-1)%Z
       | _ :: r => indexOf_from (i + 1) r sub
       end.

Definition indexOf (s sub : jsstring) : Z := indexOf_from 0 s sub.

(** [s.substring(a, b)] for [0 <= a], [0 <= b]. *)
Definition substring (s : jsstring) (a b : Z) : jsstring :=
  let lo := Z.to_nat (Z.min a b) in
  let hi := Z.to_nat (Z.max a b) in
  firstn (hi - lo) (skipn lo s).

(** [s.split(' ')]: the pieces between single spaces; never empty. *)
Fixpoint split_space (s : jsstring) : list jsstring :=
  match s with
  | [] => [[]]
  | c :: r =>
      if Ascii.eqb c " " then [] :: split_space r
      else match split_space r with
           | w :: ws => (c :: w) :: ws
           | [] => [[c]]
           end
  end.

Fixpoint trimStart (s : jsstring) : jsstring :=
  match s with
  | c :: r => if is_space c then trimStart r else s
  | [] => []
  end.

Definition trimEnd (s : jsstring) : jsstring := rev (trimStart (rev s)).

Definition trim (s : jsstring) : jsstring := trimEnd (trimStart s).

Definition eqb (a b : jsstring) : bool :=
  if list_eq_dec ascii_dec a b then true else false.

End JsString.
Import JsString.

(* ================================================================== *)
(** * Global regular-expression scans                                  *)
(* ================================================================== *)

(** The program uses six regular expressions, all with the [g] flag and
    none able to match the empty string.  A pattern is embedded as the
    function that, at a position whose first character is [c] and whose
    remaining input is [r], answers [Some k] when the pattern matches
    there, the match being [c] and the next [k] characters.  A scan cuts
    the input, left to right, into the matches and the characters between
    them, the way [replace] and [match] with [g] do. *)

Module Regex.

Definition pattern := ascii -> jsstring -> option nat.

Inductive piece : Type :=
| Hit (text : jsstring)
| Gap (c : ascii).

Fixpoint scan_fuel (re : pattern) (fuel : nat) (s : jsstring) : list piece :=
  match fuel, s with
  | S fuel', c :: r =>
      match re c r with
      | Some k => Hit (c :: firstn k r) :: scan_fuel re fuel' (skipn k r)
      | None => Gap c :: scan_fuel re fuel' r
      end
  | _, _ => []
  end.

Definition scan (re : pattern) (s : jsstring) : list piece :=
  scan_fuel re (length s) s.

(** [s.replace(re, by)], the replacement computed from the matched text. *)
Definition replace (re : pattern) (by_ : jsstring -> jsstring) (s : jsstring)
  : jsstring :=
  flat_map (fun p => match p with Hit x => by_ x | Gap c => [c] end)
           (scan re s).

(** [s.match(re) || []] *)
Definition matches (re : pattern) (s : jsstring) : list jsstring :=
  flat_map (fun p => match p with Hit x => [x] | Gap _ => [] end)
           (scan re s).

(** [/\s+/g] *)
Definition re_spaces : pattern :=
  fun c r => if is_space c then Some (span is_space r) else None.

(** [/usd\s*/gi]; below 256 a character matches a letter of the pattern
    without regard to case exactly when its lower case is that letter. *)
Definition re_usd : pattern :=
  fun c r =>
    match r with
    | c1 :: c2 :: r' =>
        if Ascii.eqb (lower c) "u" && Ascii.eqb (lower c1) "s"
           && Ascii.eqb (lower c2) "d"
        then Some (2 + span is_space r')
        else None
    | _ => None
    end.

(** [/\$/g] *)
Definition re_dollar : pattern :=
  fun c _ => if Ascii.eqb c "$" then Some 0 else None.

(** [/,(\d)/g] *)
Definition re_comma_digit : pattern :=
  fun c r =>
    match r with
    | d :: _ => if Ascii.eqb c "," && is_digit d then Some 1 else None
    | [] => None
    end.

(** The characters that [[^\w\s.,;:!?$%()-]] does not match. *)
Definition retained (c : ascii) : bool :=
  is_word c || is_space c ||
  existsb (Ascii.eqb c) (lit ".,;:!?$%()-").

(** [/[^\w\s.,;:!?$%()-]/g] *)
Definition re_special : pattern :=
  fun c _ => if retained c then None else Some 0.

(** [/\d+\.?\d*/g] *)
Definition re_number : pattern :=
  fun c r =>
    if is_digit c then
      let k := span is_digit r in
      match skipn k r with
      | dot :: r' =>
          if Ascii.eqb dot "." then Some (k + 1 + span is_digit r')
          else Some k
      | [] => Some k
      end
    else None.

End Regex.
Import Regex.

(* ================================================================== *)
(** * HighlightManager.normalizeForMatching                            *)
(* ================================================================== *)

(** The replacement ['$1'] of [/,(\d)/g]: the captured digit, which is the
    match without its comma. *)
Definition group1 (matched : jsstring) : jsstring := tl matched.

Definition collapseWhitespace (s : jsstring) : jsstring :=
  replace re_spaces (fun _ => lit " ") s.

Definition spaceUsd (s : jsstring) : jsstring :=
  replace re_usd (fun _ => lit "usd ") s.

Definition dollarToUsd (s : jsstring) : jsstring :=
  replace re_dollar (fun _ => lit "usd ") s.

Definition stripThousands (s : jsstring) : jsstring :=
  replace re_comma_digit group1 s.

Definition stripSpecial (s : jsstring) : jsstring :=
  replace re_special (fun _ => []) s.

Definition normalizeForMatching (text : jsstring) : jsstring :=
  trim
    (stripSpecial
       (stripThousands
          (dollarToUsd
             (spaceUsd
                (collapseWhitespace
                   (toLowerCase text)))))).

(* ================================================================== *)
(** * HighlightManager.fuzzyMatch                                      *)
(* ================================================================== *)

(** [list.includes(word)] on an array of strings. *)
Definition member (word : jsstring) (l : list jsstring) : bool :=
  existsb (JsString.eqb word) l.

Definition stoplist : list jsstring :=
  map lit ["this"; "that"; "with"; "from"; "have"; "been"; "were"; "said"]%string.

(** The local function [extractKeyTerms] of [fuzzyMatch]. *)
Definition extractKeyTerms (text : jsstring) : list jsstring :=
  let numbers := matches re_number text in
  let words :=
    filter (fun word => (4 <=? length word) && negb (member word stoplist))
           (split_space text) in
  numbers ++ words.

(** The callback of [needleTerms.filter]: some haystack term contains the
    term or is contained in it. *)
Definition termMatches (haystackTerms : list jsstring) (term : jsstring) : bool :=
  existsb (fun hTerm => includes hTerm term || includes term hTerm) haystackTerms.

(** [matchRatio >= 0.6].  The quotient of two counts is taken as a
    rational: for counts below 2^31 the double quotient is at least the
    double 0.6 exactly when the rational one is at least 6/10. *)
Definition ratioAtLeast (matched total : nat) : bool :=
  Qle_bool (6 # 10) (Z.of_nat matched # Pos.of_nat total).

Definition fuzzyMatch (haystack needle : jsstring) : bool :=
  let normalizedHaystack := normalizeForMatching haystack in
  let normalizedNeedle := normalizeForMatching needle in
  if includes normalizedHaystack normalizedNeedle then true
  else
    let needleTerms := extractKeyTerms normalizedNeedle in
    let haystackTerms := extractKeyTerms normalizedHaystack in
    if length needleTerms =? 0 then false
    else
      let matchedTerms := filter (termMatches haystackTerms) needleTerms in
      ratioAtLeast (length matchedTerms) (length needleTerms)
      || (2 <=? length matchedTerms).

(* ================================================================== *)
(** * The data of [types]                                              *)
(* ================================================================== *)

(** [HighlightRect] *)
Module Rect.
Record t : Type := mk { x : Q; y : Q; width : Q; height : Q }.
End Rect.

(** [TextItem].  [transform] is the six-entry matrix of PDF.js,
    [[scaleX, skewY, skewX, scaleY, translateX, translateY]]. *)
Module TextItem.
Record matrix : Type :=
  mkMatrix { scaleX : Q; skewY : Q; skewX : Q; scaleY : Q;
             translateX : Q; translateY : Q }.
Record t : Type :=
  mk { str : jsstring; transform : matrix; width : Q; height : Q;
       hasEOL : option bool }.
End TextItem.

(** [PageTextContent] *)
Module Page.
Record t : Type :=
  mk { pageIndex : Z; text : jsstring; items : list TextItem.t }.
End Page.

(** [Highlight] *)
Module Highlight.
Record t : Type :=
  mk { id : jsstring; phrase : jsstring; pageIndex : Z;
       rects : list Rect.t; color : option jsstring }.
End Highlight.

(* ================================================================== *)
(** * The console                                                      *)
(* ================================================================== *)

(** One constructor for each message the program writes, with the values
    its template interpolates; page numbers are one more than indices. *)
Inductive diagnostic : Type :=
| LogSearching (phrase : jsstring)
| LogNormalized (normalizedPhrase : jsstring)
| LogChecking (pageNumber : Z)
| LogFoundMatch (pageNumber : Z)
| LogPartialMatch (excerpt : jsstring)
| WarnNoSpan (phrase : jsstring)
| LogRectCount (count : nat)
| WarnFallback (phrase : jsstring) (pageNumber : Z)
| ErrorNotFound (phrase : jsstring).

(** A value together with what was written to the console on the way. *)
Definition logged (A : Type) : Type := (list diagnostic * A)%type.

Definition ret {A} (a : A) : logged A := ([], a).

Definition bind {A B} (m : logged A) (k : A -> logged B) : logged B :=
  let (w1, a) := m in
  let (w2, b) := k a in
  (w1 ++ w2, b).

Definition tell (d : diagnostic) : logged unit := ([d], tt).

Notation "x <- m ;; k" := (bind m (fun x => k))
  (at level 61, m at next level, right associativity).
Notation "m ;;; k" := (bind m (fun _ => k))
  (at level 61, right associativity).

Definition console {A} (m : logged A) : list diagnostic := fst m.
Definition value {A} (m : logged A) : A := snd m.

Arguments bind : simpl never.

(* ================================================================== *)
(** * HighlightManager.mergeRects                                      *)
(* ================================================================== *)

Definition Qlt_bool (a b : Q) : bool := negb (Qle_bool b a).

(** [Array.prototype.sort] with a comparator: stable, an element staying
    before another unless the comparator is positive on them. *)
Section Sort.

Variable A : Type.
Variable compareFn : A -> A -> Q.

Fixpoint insert (a : A) (l : list A) : list A :=
  match l with
  | [] => [a]
  | b :: l' =>
      if Qle_bool (compareFn a b) 0 then a :: l
      else b :: insert a l'
  end.

Definition sort (l : list A) : list A := fold_right insert [] l.

End Sort.

Arguments insert {A} compareFn a l.
Arguments sort {A} compareFn l.

(** [(a, b) => a.y - b.y || a.x - b.x] *)
Definition byYthenX (a b : Rect.t) : Q :=
  let dy := (Rect.y a - Rect.y b)%Q in
  if Qeq_bool dy 0 then (Rect.x a - Rect.x b)%Q else dy.

(** The loop of [mergeRects] from [i] on; the result is [merged] at the
    end of the loop followed by the last [current].  The sums and the
    difference are exact here and rounded in the program. *)
Fixpoint mergeLoop (current : Rect.t) (rest : list Rect.t) : list Rect.t :=
  match rest with
  | [] => [current]
  | next :: rest' =>
      let sameY := Qlt_bool (Qabs (Rect.y current - Rect.y next)) 5 in
      let adjacent :=
        Qle_bool (Rect.x next) (Rect.x current + Rect.width current + 10) in
      if sameY && adjacent then
        let rightEdge :=
          Qmax (Rect.x current + Rect.width current)
               (Rect.x next + Rect.width next) in
        mergeLoop
          (Rect.mk (Qmin (Rect.x current) (Rect.x next))
                   (Qmin (Rect.y current) (Rect.y next))
                   (rightEdge - Qmin (Rect.x current) (Rect.x next))
                   (Qmax (Rect.height current) (Rect.height next)))
          rest'
      else current :: mergeLoop next rest'
  end.

Definition mergeRects (rects : list Rect.t) : list Rect.t :=
  if length rects <=? 1 then rects
  else
    match sort byYthenX rects with
    | [] => []
    | first :: rest => mergeLoop first rest
    end.

(* ================================================================== *)
(** * HighlightManager.findTextRects                                   *)
(* ================================================================== *)

Definition len (s : jsstring) : Z := Z.of_nat (length s).

(** The [forEach] over [pageContent.items] from item [itemIndex] on:
    [fullText] and [charToItemMap], filled side by side.  The separating
    space after an item belongs to that item. *)
Fixpoint buildFullText (itemIndex : nat) (items : list TextItem.t)
  : jsstring * list nat :=
  match items with
  | [] => ([], [])
  | item :: rest =>
      let itemText := TextItem.str item in
      let separator :=
        match rest with
        | nextItem :: _ =>
            if negb (endsWith itemText (lit " "))
               && negb (startsWith (TextItem.str nextItem) (lit " "))
            then lit " " else []
        | [] => []
        end in
      let (fullText, charToItemMap) := buildFullText (S itemIndex) rest in
      (itemText ++ separator ++ fullText,
       repeat itemIndex (length itemText)
       ++ repeat itemIndex (length separator)
       ++ charToItemMap)
  end.

(** The stoplist of the partial pass is the shorter one. *)
Definition partialStoplist : list jsstring :=
  map lit ["this"; "that"; "with"; "from"]%string.

Definition partialKeyTerms (normalizedPhrase : jsstring) : list jsstring :=
  let numbers := matches re_number normalizedPhrase in
  let keyWords :=
    filter (fun word => (4 <=? length word) && negb (member word partialStoplist))
           (split_space normalizedPhrase) in
  numbers ++ keyWords.

(** The loop [for (const term of allKeyTerms)], from the terms [terms]
    on: the first term found in the page whose surroundings hold enough
    of the key terms gives the span [(startIndex, searchLength)]. *)
Fixpoint partialPass (allKeyTerms : list jsstring)
         (normalizedFullText : jsstring) (terms : list jsstring)
  : logged (option (Z * Z)) :=
  match terms with
  | [] => ret None
  | term :: rest =>
      let termIndex := indexOf normalizedFullText term in
      if (termIndex =? -1)%Z then
        partialPass allKeyTerms normalizedFullText rest
      else
        let contextStart := Z.max 0 (termIndex - 50) in
        let contextEnd := Z.min (len normalizedFullText) (termIndex + 100) in
        let context := substring normalizedFullText contextStart contextEnd in
        let termsInContext := filter (fun t => includes context t) allKeyTerms in
        if Qle_bool (Qmax 1 (inject_Z (Z.of_nat (length allKeyTerms)) * (5 # 10)))
                    (inject_Z (Z.of_nat (length termsInContext)))
        then
          tell (LogPartialMatch
                  (substring normalizedFullText termIndex (termIndex + 30))) ;;;
          ret (Some (termIndex,
                     Z.min 100 (len normalizedFullText - termIndex)))
        else partialPass allKeyTerms normalizedFullText rest
  end.

(** The span of the phrase in the normalised page text: the exact
    occurrence, else the partial pass. *)
Definition locateSpan (normalizedPhrase normalizedFullText : jsstring)
  : logged (option (Z * Z)) :=
  let startIndex := indexOf normalizedFullText normalizedPhrase in
  let searchLength := len normalizedPhrase in
  if (startIndex =? -1)%Z then
    let allKeyTerms := partialKeyTerms normalizedPhrase in
    partialPass allKeyTerms normalizedFullText allKeyTerms
  else ret (Some (startIndex, searchLength)).

(** The quotient and the product of [normalizedToOriginal] are doubles:
    the exact result rounded to 53 significant bits, of two equally near
    doubles the one with the even significand.  The operands are lengths
    and offsets, so the results lie well inside the range of the normal
    doubles. *)

(** [n / (d * 2^k)] as a fraction of integers. *)
Definition scaled (n d k : Z) : Z * Z :=
  if (0 <=? k)%Z then (n, d * 2 ^ k)%Z else (n * 2 ^ (- k), d)%Z.

(** The integer nearest to [n / d], the even one of two equally near;
    [0 <= n] and [0 < d]. *)
Definition nearestEven (n d : Z) : Z :=
  let below := (n / d)%Z in
  match (2 * (n mod d) ?= d)%Z with
  | Lt => below
  | Gt => (below + 1)%Z
  | Eq => if Z.even below then below else (below + 1)%Z
  end.

(** The double nearest to [q]: with [2^exponent <= |q| < 2^(exponent+1)],
    the nearest multiple of [2^(exponent-52)]. *)
Definition roundDouble (q : Q) : Q :=
  let n := Z.abs (Qnum q) in
  let d := Zpos (Qden q) in
  if (n =? 0)%Z then 0%Q
  else
    let guess := (Z.log2 n - Z.log2 d)%Z in
    let (n0, d0) := scaled n d guess in
    let exponent := if (d0 <=? n0)%Z then guess else (guess - 1)%Z in
    let (n1, d1) := scaled n d (exponent - 52) in
    let significand := nearestEven n1 d1 in
    let magnitude := Qred (inject_Z significand * 2 ^ (exponent - 52))%Q in
    if (Qnum q <? 0)%Z then (- magnitude)%Q else magnitude.

(** [normalizedToOriginal]: [Math.floor(normIndex * ratio)] with
    [ratio = fullText.length / normalizedFullText.length], quotient and
    product rounded to doubles.  With an empty normalised text the ratio
    is infinite or NaN and the only offset translated, 0, becomes NaN:
    [None]. *)
Definition normalizedToOriginal (fullText normalizedFullText : jsstring)
           (normIndex : Z) : option Z :=
  if (len normalizedFullText =? 0)%Z then None
  else
    let ratio :=
      roundDouble (inject_Z (len fullText)
                   / inject_Z (len normalizedFullText))%Q in
    Some (Qfloor (roundDouble (inject_Z normIndex * ratio)%Q)).

(** [matchingItemIndices.add(v)]: a [Set] keeps insertion order. *)
Definition setAdd (set : list nat) (v : nat) : list nat :=
  if existsb (Nat.eqb v) set then set else set ++ [v].

(** The items owning the characters [originalStart <= i <
    min(originalEnd, charToItemMap.length)]; a NaN bound runs the loop
    zero times. *)
Definition collectItems (charToItemMap : list nat)
           (originalStart originalEnd : option Z) : list nat :=
  match originalStart, originalEnd with
  | Some a, Some b =>
      let stop := Z.min b (Z.of_nat (length charToItemMap)) in
      fold_left setAdd
                (firstn (Z.to_nat (stop - a)) (skipn (Z.to_nat a) charToItemMap))
                []
  | _, _ => []
  end.

(** The set [matchingItemIndices] of [findTextRects] when the span was
    located, the console output of locating it beside it. *)
Definition matchingItemIndices (phrase : jsstring) (items : list TextItem.t)
  : logged (option (list nat)) :=
  let normalizedPhrase := normalizeForMatching phrase in
  let (fullText, charToItemMap) := buildFullText 0 items in
  let normalizedFullText := normalizeForMatching fullText in
  span_ <- locateSpan normalizedPhrase normalizedFullText ;;
  match span_ with
  | None => tell (WarnNoSpan phrase) ;;; ret None
  | Some (startIndex, searchLength) =>
      let originalStart :=
        normalizedToOriginal fullText normalizedFullText startIndex in
      let originalEnd :=
        normalizedToOriginal fullText normalizedFullText
                             (startIndex + searchLength) in
      ret (Some (collectItems charToItemMap originalStart originalEnd))
  end.

(** [(a, b) => a - b] *)
Definition ascending (a b : nat) : Q := inject_Z (Z.of_nat a - Z.of_nat b).

(** One text item as a rectangle; [item.height || 12]. *)
Definition itemRect (item : TextItem.t) : Rect.t :=
  let transform := TextItem.transform item in
  Rect.mk (TextItem.translateX transform)
          (TextItem.translateY transform)
          (TextItem.width item)
          (if Qeq_bool (TextItem.height item) 0 then 12 else TextItem.height item).

Definition findTextRects (phrase : jsstring) (pageContent : Page.t)
  : logged (list Rect.t) :=
  indices <- matchingItemIndices phrase (Page.items pageContent) ;;
  match indices with
  | None => ret []
  | Some matchingItemIndices =>
      let matchingItems :=
        flat_map (fun index =>
                    match nth_error (Page.items pageContent) index with
                    | Some item => [item]
                    | None => []
                    end)
                 (sort ascending matchingItemIndices) in
      ret (mergeRects (map itemRect matchingItems))
  end.

(* ================================================================== *)
(** * HighlightManager.findPhrase                                      *)
(* ================================================================== *)

(** [pageContents[pageIndex]], when there is a page there: an index
    outside the array and a null or undefined entry both give none. *)
Definition pageAt (pageContents : list (option Page.t)) (pageIndex : Z)
  : option Page.t :=
  if (pageIndex <? 0)%Z then None
  else match nth_error pageContents (Z.to_nat pageIndex) with
       | Some (Some pageContent) => Some pageContent
       | _ => None
       end.

(** [pageContents.map((_, i) => i)] *)
Definition pageIndices (pageContents : list (option Page.t)) : list Z :=
  map Z.of_nat (seq 0 (length pageContents)).

Definition searchOrder (pageContents : list (option Page.t))
           (pageHint : option Z) : list Z :=
  match pageHint with
  | Some hint =>
      hint :: filter (fun i => negb (i =? hint)%Z) (pageIndices pageContents)
  | None => pageIndices pageContents
  end.

Definition yellow : jsstring := lit "#fef08a".

Definition placeholder : Rect.t := Rect.mk 50 100 500 30.

(** The loop [for (const pageIndex of searchOrder)] and what follows it. *)
Fixpoint searchPages (phrase id : jsstring)
         (pageContents : list (option Page.t)) (order : list Z)
  : logged (option Highlight.t) :=
  match order with
  | [] => tell (ErrorNotFound phrase) ;;; ret None
  | pageIndex :: rest =>
      match pageAt pageContents pageIndex with
      | None => searchPages phrase id pageContents rest
      | Some pageContent =>
          tell (LogChecking (pageIndex + 1)) ;;;
          if fuzzyMatch (Page.text pageContent) phrase then
            tell (LogFoundMatch (pageIndex + 1)) ;;;
            rects <- findTextRects phrase pageContent ;;
            if 0 <? length rects then
              tell (LogRectCount (length rects)) ;;;
              ret (Some (Highlight.mk id phrase pageIndex rects (Some yellow)))
            else
              tell (WarnFallback phrase (pageIndex + 1)) ;;;
              ret (Some (Highlight.mk id phrase pageIndex [placeholder]
                                      (Some yellow)))
          else searchPages phrase id pageContents rest
      end
  end.

Definition findPhrase (phrase id : jsstring)
           (pageContents : list (option Page.t)) (pageHint : option Z)
  : logged (option Highlight.t) :=
  let normalizedPhrase := normalizeForMatching phrase in
  tell (LogSearching phrase) ;;;
  tell (LogNormalized normalizedPhrase) ;;;
  searchPages phrase id pageContents (searchOrder pageContents pageHint).

(* ================================================================== *)
(** * Notions the properties are stated with                           *)
(* ================================================================== *)

(** The shape of a number among the key terms: digits, at least one,
    then possibly a decimal point and further digits. *)
Definition numberShape (term : jsstring) : Prop :=
  exists d ds fraction,
    term = d :: ds ++ fraction
    /\ is_digit d = true
    /\ Forall (fun c => is_digit c = true) ds
    /\ (fraction = []
        \/ exists fs, fraction = "."%char :: fs
                      /\ Forall (fun c => is_digit c = true) fs).

(** A page index qualifies for a phrase when a page is present there and
    its full text fuzzy-matches the phrase. *)
Definition qualifies (phrase : jsstring) (pageContents : list (option Page.t))
           (pageIndex : Z) : bool :=
  match pageAt pageContents pageIndex with
  | Some pageContent => fuzzyMatch (Page.text pageContent) phrase
  | None => false
  end.

(** The diagnostic that tells an approximate result from a precise one is
    the fallback warning. *)
Definition isFallbackWarning (d : diagnostic) : bool :=
  match d with
  | WarnFallback _ _ => true
  | _ => false
  end.

Definition flaggedApproximate {A} (run : logged A) : bool :=
  existsb isFallbackWarning (console run).

(** What [findPhrase] returns for a page that qualified. *)
Definition resultFor (phrase id : jsstring) (pageIndex : Z)
           (pageContent : Page.t) : Highlight.t :=
  let rects := value (findTextRects phrase pageContent) in
  Highlight.mk id phrase pageIndex
               (if 0 <? length rects then rects else [placeholder])
               (Some yellow).

(** The first four steps of the normaliser, those before the thousands
    separators are stripped. *)
Definition beforeThousands (text : jsstring) : jsstring :=
  dollarToUsd (spaceUsd (collapseWhitespace (toLowerCase text))).

Definition digitAhead (r : jsstring) : bool :=
  match r with
  | d :: _ => is_digit d
  | [] => false
  end.

(** A text without the commas that stand right before a digit. *)
Fixpoint commasBeforeDigitRemoved (s : jsstring) : jsstring :=
  match s with
  | [] => []
  | c :: r =>
      if Ascii.eqb c "," && digitAhead r then commasBeforeDigitRemoved r
      else c :: commasBeforeDigitRemoved r
  end.

(** The specification's reading of the step: a text without the commas
    that stand between two digits; [prev] is the character before [s]. *)
Fixpoint commasBetweenDigitsRemoved (prev : option ascii) (s : jsstring)
  : jsstring :=
  match s with
  | [] => []
  | c :: r =>
      let digitBehind :=
        match prev with
        | Some p => is_digit p
        | None => false
        end in
      if Ascii.eqb c "," && digitBehind && digitAhead r
      then commasBetweenDigitsRemoved (Some c) r
      else c :: commasBetweenDigitsRemoved (Some c) r
  end.

Definition commas (s : jsstring) : nat := count_occ ascii_dec s ","%char.

(** Two spaces in a row somewhere in [t]. *)
Definition hasDoubleSpace (t : jsstring) : bool := includes t (lit "  ").

(** A comma right before a digit somewhere in [t]. *)
Fixpoint hasCommaBeforeDigit (t : jsstring) : bool :=
  match t with
  | [] => false
  | c :: r => (Ascii.eqb c "," && digitAhead r) || hasCommaBeforeDigit r
  end.

(** An occurrence of [usd] in [t] that is followed by a character other
    than a space. *)
Fixpoint hasUnspacedUsd (t : jsstring) : bool :=
  match t with
  | [] => false
  | _ :: r =>
      (startsWith t (lit "usd")
       && match skipn 3 t with
          | next :: _ => negb (Ascii.eqb next " ")
          | [] => false
          end)
      || hasUnspacedUsd r
  end.

(** The characters a normalised text is made of: retained ones, in lower
    case, no dollar sign, and no white space but the space. *)
Definition isLower (c : ascii) : bool := Ascii.eqb (lower c) c.
Definition notDollar (c : ascii) : bool := negb (Ascii.eqb c "$").
Definition plainSpace (c : ascii) : bool := negb (is_space c) || Ascii.eqb c " ".

Definition normalChar (c : ascii) : bool :=
  isLower c && plainSpace c && notDollar c && retained c.

(** Example pages: the three fragments of the specification's example,
    laid out on one line, and a page whose text was extracted without
    any fragment. *)
Definition fragment (text : string) (x y w h : Q) : TextItem.t :=
  TextItem.mk (lit text) (TextItem.mkMatrix 1 0 0 1 x y) w h None.

Definition revenuePage (pageIndex : Z) : Page.t :=
  Page.mk pageIndex (lit "Revenue 12.8 billion")
          [fragment "Revenue" 72 700 42 12;
           fragment "12.8" 118 700 20 12;
           fragment "billion" 142 700 34 12].

Definition barePage : Page.t := Page.mk 0 (lit "Revenue growth 12.8") [].

(* ================================================================== *)
(** * The highlight store of [store/highlightStore.ts]                 *)
(* ================================================================== *)

(** The Zustand store: its state, and each action as the state it sets.
    [set] merges the fields an action gives into the state. *)
Module Store.

Record t : Type :=
  mk { highlights : list Highlight.t; activeReferenceId : option jsstring }.

Definition initial : t := mk [] None.

(** [(h) => h.id !== id] *)
Definition otherId (id : jsstring) (h : Highlight.t) : bool :=
  negb (JsString.eqb (Highlight.id h) id).

Definition setActiveReference (id : option jsstring) (state : t) : t :=
  mk (highlights state) id.

Definition addHighlight (highlight : Highlight.t) (state : t) : t :=
  mk (filter (otherId (Highlight.id highlight)) (highlights state) ++ [highlight])
     (Some (Highlight.id highlight)).

Definition clearHighlights (state : t) : t := mk [] None.

Definition removeHighlight (id : jsstring) (state : t) : t :=
  mk (filter (otherId id) (highlights state))
     (match activeReferenceId state with
      | Some active =>
          if JsString.eqb active id then None else Some active
      | None => None
      end).

End Store.

(* ================================================================== *)
(** * The overlay of [components/HighlightOverlay.tsx]                 *)
(* ================================================================== *)

(** The style of one highlight [div], in CSS pixels;
    [pageHeight ? (pageHeight - rect.y - rect.height) * scale
                : rect.y * scale] is its top.  The differences and the
    products are exact here and rounded in the program. *)
Module Overlay.

Record box : Type := mkBox { left : Q; top : Q; width : Q; height : Q }.

Definition cssBox (scale pageHeight : Q) (rect : Rect.t) : box :=
  let cssTop :=
    if Qeq_bool pageHeight 0 then (Rect.y rect * scale)%Q
    else ((pageHeight - Rect.y rect - Rect.height rect) * scale)%Q in
  mkBox (Rect.x rect * scale) cssTop
        (Rect.width rect * scale) (Rect.height rect * scale).

Definition HighlightOverlay (rects : list Rect.t) (scale pageHeight : Q)
  : list box :=
  map (cssBox scale pageHeight) rects.

End Overlay.

(** [PdfPage]: the highlights drawn on the page numbered [pageNumber]. *)
Definition pageHighlights (highlights : list Highlight.t) (pageNumber : Z)
  : list Highlight.t :=
  filter (fun h => (Highlight.pageIndex h =? pageNumber - 1)%Z) highlights.

(* ================================================================== *)
(** * The reference markers of [RightPanel]                            *)
(* ================================================================== *)

(** [Reference] *)
Module Reference.
Record t : Type :=
  mk { id : jsstring; label : jsstring; phrase : jsstring;
       pageHint : option Z; description : option jsstring }.
End Reference.

(** [text.indexOf(sub, from)]: the search starts at [from], brought into
    the text. *)
Definition indexOfFrom (text sub : jsstring) (from : Z) : Z :=
  let start := Z.max 0 (Z.min from (len text)) in
  indexOf_from start (skipn (Z.to_nat start) text) sub.

(** What [renderText] pushes: a piece of text, or the button of a
    reference, whose content is the label. *)
Inductive node : Type :=
| TextNode (text : jsstring)
| ButtonNode (ref : Reference.t) (isActive : bool).

Definition nodeText (n : node) : jsstring :=
  match n with
  | TextNode text => text
  | ButtonNode ref _ => Reference.label ref
  end.

(** One turn of [references.forEach] on [(parts, lastIndex)]. *)
Definition renderStep (activeReferenceId : option jsstring) (text : jsstring)
           (state : list node * Z) (ref : Reference.t) : list node * Z :=
  let (parts, lastIndex) := state in
  let index := indexOfFrom text (Reference.label ref) lastIndex in
  if (index =? -1)%Z then state
  else
    let before :=
      if (lastIndex <? index)%Z
      then [TextNode (substring text lastIndex index)] else [] in
    let isActive :=
      match activeReferenceId with
      | Some active => JsString.eqb active (Reference.id ref)
      | None => false
      end in
    (parts ++ before ++ [ButtonNode ref isActive],
     (index + len (Reference.label ref))%Z).

Definition renderText (references : list Reference.t)
           (activeReferenceId : option jsstring) (text : jsstring)
  : list node :=
  let (parts, lastIndex) :=
    fold_left (renderStep activeReferenceId text) references ([], 0%Z) in
  if (lastIndex <? len text)%Z
  then parts ++ [TextNode (substring text lastIndex (len text))]
  else parts.

(** What a line of the analysis text is rendered as. *)
Inductive block : Type :=
| Heading (level : nat) (parts : list node)
| Rule
| Paragraph (parts : list node)
| Nothing.

Definition isHash (c : ascii) : bool := Ascii.eqb c "#".

(** [line.match(/^#+/)?.[0].length || 1] *)
Definition headingLevel (line : jsstring) : nat :=
  match span isHash line with
  | 0 => 1
  | S n => S n
  end.

(** [line.replace(/^#+\s*/, '')] *)
Definition headingText (line : jsstring) : jsstring :=
  match span isHash line with
  | 0 => line
  | S n =>
      let rest := skipn (S n) line in
      skipn (span is_space rest) rest
  end.

(** The callback of [analysisText.split('\n').map]. *)
Definition renderLine (references : list Reference.t)
           (activeReferenceId : option jsstring) (line : jsstring) : block :=
  if startsWith (trim line) (lit "#") then
    Heading (Nat.min (headingLevel line) 6)
            (renderText references activeReferenceId (headingText line))
  else if JsString.eqb (trim line) (lit "---") then Rule
  else
    match trim line with
    | _ :: _ => Paragraph (renderText references activeReferenceId line)
    | [] => Nothing
    end.

(* ================================================================== *)
(** * The click handler of [App]                                       *)
(* ================================================================== *)

(** What the viewer container gives the handler: the page contents kept
    by the viewer, and whether the page element with a given
    [data-page-number] is there. *)
Module Viewer.
Record t : Type :=
  mk { pageTextContents : list (option Page.t);
       hasPageElement : Z -> bool }.
End Viewer.

(** What [handleReferenceClick] does besides setting the store. *)
Inductive effect : Type :=
| WarnNotReady
| ErrorNoPageContents
| Engine (d : diagnostic)
| ScrollIntoView (pageNumber : Z)
| Alert (phrase : jsstring).

(** [reference.pageHint ? reference.pageHint - 1 : undefined] *)
Definition zeroIndexed (pageHint : option Z) : option Z :=
  match pageHint with
  | Some hint => if (hint =? 0)%Z then None else Some (hint - 1)%Z
  | None => None
  end.

Definition handleReferenceClick (isReady : bool) (viewer : option Viewer.t)
           (reference : Reference.t) (store : Store.t)
  : list effect * Store.t :=
  match viewer with
  | None => ([WarnNotReady], store)
  | Some container =>
      if negb isReady then ([WarnNotReady], store)
      else
        let pageContents := Viewer.pageTextContents container in
        if length pageContents =? 0 then ([ErrorNoPageContents], store)
        else
          let run :=
            findPhrase (Reference.phrase reference) (Reference.id reference)
                       pageContents
                       (zeroIndexed (Reference.pageHint reference)) in
          match value run with
          | Some highlight =>
              (map Engine (console run)
               ++ (if Viewer.hasPageElement
                        container (Highlight.pageIndex highlight + 1)%Z
                   then [ScrollIntoView (Highlight.pageIndex highlight + 1)%Z]
                   else []),
               Store.addHighlight highlight store)
          | None =>
              (map Engine (console run)
               ++ [Alert (Reference.phrase reference)],
               store)
          end
  end.

(* ================================================================== *)
(** * The search utilities                                             *)
(* ================================================================== *)

(** [normalizeText]: [text.trim().toLowerCase().replace(/\s+/g, ' ')] *)
Definition normalizeText (text : jsstring) : jsstring :=
  replace re_spaces (fun _ => lit " ") (toLowerCase (trim text)).

(** The characters of the class of [escapeRegExp]. *)
Definition regexSpecial (c : ascii) : bool :=
  existsb (Ascii.eqb c) (lit ".*+?^${}()|[]\").

Definition re_regexSpecial : pattern :=
  fun c _ => if regexSpecial c then Some 0 else None.

(** [escapeRegExp]: each special character gets a backslash before it. *)
Definition escapeRegExp (str : jsstring) : jsstring :=
  replace re_regexSpecial (fun matched => lit "\" ++ matched) str.

(** Reading an escaped text back: a backslash stands for the character
    after it. *)
Fixpoint unescape (s : jsstring) : jsstring :=
  match s with
  | [] => []
  | c :: r =>
      if Ascii.eqb c "\" then
        match r with
        | d :: r' => d :: unescape r'
        | [] => []
        end
      else c :: unescape r
  end.

(* ================================================================== *)
(** * The text extraction of [components/PdfViewer.tsx]                *)
(* ================================================================== *)

(** [strs.join(' ')] *)
Fixpoint joinSpace (strs : list jsstring) : jsstring :=
  match strs with
  | [] => []
  | str :: rest =>
      match rest with
      | [] => str
      | _ :: _ => str ++ " "%char :: joinSpace rest
      end
  end.

(** What [onDocumentLoadSuccess] pushes for a page whose text content was
    read: [{ pageIndex: i - 1, text: items.map(str).join(' '), items }]. *)
Definition extractPage (pageNumber : Z) (items : list TextItem.t) : Page.t :=
  Page.mk (pageNumber - 1)%Z (joinSpace (map TextItem.str items)) items.

(** The loop [for (let i = 1; i <= pages; i++)] from page [i] on, given
    for each page the items read, or none when reading raised: a page
    that raised is logged and left out. *)
Fixpoint extractContents (i : Z) (pages : list (option (list TextItem.t)))
  : list Z * list (option Page.t) :=
  match pages with
  | [] => ([], [])
  | read :: rest =>
      let (errors, contents) := extractContents (i + 1)%Z rest in
      match read with
      | Some items => (errors, Some (extractPage i items) :: contents)
      | None => (i :: errors, contents)
      end
  end.

(* ================================================================== *)
(** * Further notions                                                  *)
(* ================================================================== *)

(** [outer] covers [inner]: it reaches at least as far to the left and to
    the right, starts no higher and is no lower. *)
Definition covers (outer inner : Rect.t) : Prop :=
  (Rect.x outer <= Rect.x inner
   /\ Rect.x inner + Rect.width inner <= Rect.x outer + Rect.width outer
   /\ Rect.y outer <= Rect.y inner
   /\ Rect.height inner <= Rect.height outer)%Q.

(** What holds between two turns of the loop of [renderText]: the parts
    pushed so far read as the text up to [lastIndex]. *)
Definition rendered (text : jsstring) (state : list node * Z) : Prop :=
  (0 <= snd state <= len text)%Z
  /\ flat_map nodeText (fst state) = firstn (Z.to_nat (snd state)) text.

(** Two rectangles on different lines: their [y] differ by 5 or more. *)
Definition apart (a b : Rect.t) : Prop :=
  (5 <= Qabs (Rect.y a - Rect.y b))%Q.

Definition isNotFoundError (d : diagnostic) : bool :=
  match d with
  | ErrorNotFound _ => true
  | _ => false
  end.

(** [sub] occurs in [s]. *)
Definition contains (s sub : jsstring) : Prop :=
  exists before after, s = before ++ sub ++ after.

Definition noDigit (s : jsstring) : Prop :=
  Forall (fun c => is_digit c = false) s.

(** A number ends where [rest] begins: no digit follows it, and a
    decimal point follows it only when it already has one. *)
Definition stopsNumber (number rest : jsstring) : Prop :=
  match rest with
  | [] => True
  | c :: _ => is_digit c = false /\ (c = "."%char -> In "."%char number)
  end.

(** The numbers of a text in the specification's words: its maximal
    digit sequences, each with the decimal point after it and the digits
    after that point, from left to right.  Between two of them, before
    the first and after the last the text has no digit. *)
Inductive numbersOf : jsstring -> list jsstring -> Prop :=
| numbers_none (text : jsstring) :
    noDigit text -> numbersOf text []
| numbers_next (gap number rest : jsstring) (numbers : list jsstring) :
    noDigit gap ->
    numberShape number ->
    stopsNumber number rest ->
    numbersOf rest numbers ->
    numbersOf (gap ++ number ++ rest) (number :: numbers).

(** The words of a text: the pieces without a space that, put together
    with one space between neighbours, give the text. *)
Definition wordsOf (text : jsstring) (words : list jsstring) : Prop :=
  words <> []
  /\ joinSpace words = text
  /\ Forall (fun word => ~ In " "%char word) words.

(** A word counts as a key term when it has four characters or more and
    is none of [this], [that], [with], [from], [have], [been], [were],
    [said]. *)
Definition significantWord (word : jsstring) : bool :=
  (4 <=? length word)
  && negb (existsb (JsString.eqb word)
                   (map lit ["this"; "that"; "with"; "from";
                             "have"; "been"; "were"; "said"]%string)).

(** A whole number of magnitude at most 2^25.  Sums, differences and
    products of such numbers stay below 2^53, so double arithmetic gives
    them without rounding. *)
Definition whole (q : Q) : bool :=
  Qeq_bool q (inject_Z (Qfloor q))
  && Qle_bool (Qabs q) (inject_Z (2 ^ 25)).

(** A rectangle whose position and width, the fields the merger adds and
    subtracts, are whole. *)
Definition wholeRect (rect : Rect.t) : bool :=
  whole (Rect.x rect) && whole (Rect.y rect) && whole (Rect.width rect).

(** The page at position [k] of a document could be read. *)
Definition readable (pages : list (option (list TextItem.t))) (k : nat)
  : bool :=
  match nth_error pages k with
  | Some (Some _) => true
  | _ => false
  end.

(* ================================================================== *)
(** * Strings: basic facts                                             *)
(* ================================================================== *)

Section StringFacts.

(** To prove a property of [c :: r] one may use it on every suffix of
    [r]: the shape of an argument that follows a global scan. *)
Lemma suffix_ind (P : list ascii -> Prop) :
  P [] ->
  (forall c r, (forall k, P (skipn k r)) -> P (c :: r)) ->
  forall s : list ascii, P s.
Proof.
  intros Hnil Hcons s.
  remember (length s) as n eqn:Hn.
  revert s Hn.
  induction n as [n IH] using lt_wf_ind.
  intros [|c r] Hn; [exact Hnil|].
  apply Hcons. intro k.
  apply (IH (length (skipn k r))); [|reflexivity].
  subst n. simpl. rewrite length_skipn. lia.
Qed.

Lemma startsWith_spec s prefix :
  startsWith s prefix = true <-> exists rest, s = prefix ++ rest.
Proof.
  revert s. induction prefix as [|p prefix IH]; intros s; simpl.
  - split; [intros _; now exists s | reflexivity].
  - destruct s as [|c s].
    + split; [discriminate | intros [rest H]; discriminate].
    + rewrite andb_true_iff, Ascii.eqb_eq, IH. split.
      * intros [-> [rest ->]]. now exists rest.
      * intros [rest H]. injection H as -> ->. split; [reflexivity | now exists rest].
Qed.

(** [includes] decides occurrence as a substring. *)
Lemma includes_spec s sub :
  includes s sub = true <-> exists before after, s = before ++ sub ++ after.
Proof.
  induction s as [|c s IH]; simpl.
  - rewrite orb_false_r, startsWith_spec. split.
    + intros [rest H]. now exists [], rest.
    + intros [before [after H]].
      destruct before; [now exists after | discriminate].
  - rewrite orb_true_iff, startsWith_spec, IH. split.
    + intros [[rest H] | [before [after H]]].
      * now exists [], rest.
      * exists (c :: before), after. simpl. now rewrite H.
    + intros [[|b before] [after H]].
      * left. now exists after.
      * right. injection H as -> H. now exists before, after.
Qed.

Lemma span_all (p : ascii -> bool) s :
  Forall (fun c => p c = true) s -> span p s = length s.
Proof.
  induction 1 as [|c s Hc _ IH]; [reflexivity|].
  cbn [span length]. now rewrite Hc, IH.
Qed.

(** Where a span ends, the character fails the test. *)
Lemma skipn_span_head (p : ascii -> bool) r :
  match skipn (span p r) r with
  | c :: _ => p c = false
  | [] => True
  end.
Proof.
  induction r as [|c r IH]; [exact I|].
  cbn [span]. destruct (p c) eqn:E; [exact IH | exact E].
Qed.

Lemma Some_inj (A : Type) (x y : A) : Some x = Some y -> x = y.
Proof. now intros [= ->]. Qed.

End StringFacts.

(* ================================================================== *)
(** * Scans: unfolding and induction                                   *)
(* ================================================================== *)

Section ScanFacts.

Variable re : pattern.

(** Fuel equal to the length of the input is never used up. *)
Lemma scan_fuel_enough fuel s :
  length s <= fuel -> scan_fuel re fuel s = scan re s.
Proof.
  unfold scan. revert fuel.
  induction s as [|c r IH] using suffix_ind; intros fuel Hle.
  - destruct fuel; reflexivity.
  - destruct fuel as [|fuel]; [simpl in Hle; lia|].
    simpl in *. destruct (re c r) as [k|].
    + rewrite (IH k fuel), (IH k (length r)); try reflexivity;
        rewrite length_skipn; lia.
    + f_equal. specialize (IH 0). simpl in IH. apply IH. lia.
Qed.

Lemma scan_nil : scan re [] = [].
Proof. reflexivity. Qed.

Lemma scan_cons c r :
  scan re (c :: r) =
  match re c r with
  | Some k => Hit (c :: firstn k r) :: scan re (skipn k r)
  | None => Gap c :: scan re r
  end.
Proof.
  unfold scan at 1. simpl.
  destruct (re c r) as [k|]; [|reflexivity].
  rewrite scan_fuel_enough; [reflexivity|].
  rewrite length_skipn. lia.
Qed.

Lemma matches_cons c r :
  matches re (c :: r) =
  match re c r with
  | Some k => (c :: firstn k r) :: matches re (skipn k r)
  | None => matches re r
  end.
Proof.
  unfold matches. rewrite scan_cons.
  destruct (re c r); reflexivity.
Qed.

(** Every match reported is a match of the pattern at some position. *)
Lemma matches_hits s x :
  In x (matches re s) ->
  exists c r k, re c r = Some k /\ x = c :: firstn k r.
Proof.
  induction s as [|c r IH] using suffix_ind; [intros []|].
  rewrite matches_cons. destruct (re c r) as [k|] eqn:E.
  - intros [<- | Hin]; [now exists c, r, k | now apply (IH k)].
  - apply (IH 0).
Qed.

Variable by_ : jsstring -> jsstring.

Lemma replace_nil : replace re by_ [] = [].
Proof. reflexivity. Qed.

Lemma replace_cons c r :
  replace re by_ (c :: r) =
  match re c r with
  | Some k => by_ (c :: firstn k r) ++ replace re by_ (skipn k r)
  | None => c :: replace re by_ r
  end.
Proof.
  unfold replace. rewrite scan_cons.
  destruct (re c r); reflexivity.
Qed.

(** The pieces of a scan, put end to end, are the input: nothing is lost
    to the fuel. *)
Lemma scan_covers s :
  flat_map (fun p => match p with Hit x => x | Gap c => [c] end) (scan re s) = s.
Proof.
  induction s as [|c r IH] using suffix_ind; [reflexivity|].
  rewrite scan_cons. destruct (re c r) as [k|]; simpl.
  - rewrite IH. f_equal. apply firstn_skipn.
  - f_equal. specialize (IH 0). exact IH.
Qed.

(** A replacement whose pieces satisfy [Q] gives a text that does, when
    the characters that are copied do. *)
Lemma replace_Forall (P Q : ascii -> Prop) :
  (forall c r k, Forall P (c :: r) -> re c r = Some k ->
                 Forall Q (by_ (c :: firstn k r))) ->
  (forall c r, P c -> re c r = None -> Q c) ->
  forall s, Forall P s -> Forall Q (replace re by_ s).
Proof.
  intros Hhit Hgap.
  induction s as [|c r IH] using suffix_ind; intros HP.
  - constructor.
  - rewrite replace_cons. destruct (re c r) as [k|] eqn:E.
    + apply Forall_app. split; [now apply Hhit|].
      apply IH. inversion HP; subst.
      rewrite <- (firstn_skipn k r) in H2. apply Forall_app in H2. tauto.
    + inversion HP; subst. constructor; [now apply (Hgap c r)|].
      apply (IH 0). assumption.
Qed.

(** Where every match is replaced by itself, nothing changes. *)
Lemma replace_fixed s :
  (forall k c r, skipn k s = c :: r ->
                 match re c r with
                 | Some j => by_ (c :: firstn j r) = c :: firstn j r
                 | None => True
                 end) ->
  replace re by_ s = s.
Proof.
  induction s as [|c r IH] using suffix_ind; intros H; [reflexivity|].
  rewrite replace_cons.
  pose proof (H 0 c r eq_refl) as H0.
  destruct (re c r) as [j|].
  - rewrite H0, IH; [simpl; f_equal; apply firstn_skipn|].
    intros k c' r' E. apply (H (S (j + k)) c' r'). simpl.
    rewrite <- E, skipn_skipn. f_equal. lia.
  - f_equal. apply (IH 0). intros k c' r' E. apply (H (S k) c' r'). exact E.
Qed.

(** The same, when a match that ends the input may grow by [extra]. *)
Lemma replace_fixed_or_tail (extra : jsstring) s :
  (forall k c r, skipn k s = c :: r ->
                 match re c r with
                 | Some j =>
                     by_ (c :: firstn j r) = c :: firstn j r
                     \/ (skipn j r = []
                         /\ by_ (c :: firstn j r) = (c :: firstn j r) ++ extra)
                 | None => True
                 end) ->
  replace re by_ s = s \/ replace re by_ s = s ++ extra.
Proof.
  induction s as [|c r IH] using suffix_ind; intros H; [now left|].
  rewrite replace_cons.
  pose proof (H 0 c r eq_refl) as H0.
  destruct (re c r) as [j|].
  - destruct H0 as [H0 | [Hend H0]]; rewrite H0.
    + assert (Hrest : replace re by_ (skipn j r) = skipn j r
                      \/ replace re by_ (skipn j r) = skipn j r ++ extra).
      { apply IH. intros k c' r' E. apply (H (S (j + k)) c' r'). simpl.
        rewrite <- E, skipn_skipn. f_equal. lia. }
      destruct Hrest as [-> | ->].
      * left. simpl. f_equal. apply firstn_skipn.
      * right. simpl. f_equal. rewrite app_assoc, firstn_skipn. reflexivity.
    + right. rewrite Hend, replace_nil, app_nil_r.
      rewrite <- (firstn_skipn j r) at 2. rewrite Hend, app_nil_r. reflexivity.
  - assert (Hrest : replace re by_ r = r \/ replace re by_ r = r ++ extra).
    { apply (IH 0). intros k c' r' E'. apply (H (S k) c' r'). exact E'. }
    destruct Hrest as [-> | ->]; [now left | now right].
Qed.

End ScanFacts.

(* ================================================================== *)
(** * The text normaliser                                              *)
(* ================================================================== *)

(** C3.  Currency canonicalisation: [normalize("$12,800")] and
    [normalize("USD 12800")] are the same string, ["usd 12800"]. *)
Theorem normalize_currency_canonical :
  normalizeForMatching (lit "$12,800") = normalizeForMatching (lit "USD 12800")
  /\ normalizeForMatching (lit "$12,800") = lit "usd 12800".
Proof. split; vm_compute; reflexivity. Qed.

(** ** The thousands-separator step *)

Lemma digit_not_comma d : is_digit d = true -> Ascii.eqb d "," = false.
Proof.
  destruct (Ascii.eqb_spec d ","); [subst; discriminate | reflexivity].
Qed.

Lemma stripThousands_spec s : stripThousands s = commasBeforeDigitRemoved s.
Proof.
  unfold stripThousands.
  induction s as [|c r IH] using suffix_ind; [reflexivity|].
  rewrite replace_cons. unfold re_comma_digit. cbn [commasBeforeDigitRemoved].
  destruct r as [|d r'].
  - cbn [digitAhead]. rewrite andb_false_r. reflexivity.
  - cbn [digitAhead]. destruct (Ascii.eqb c "," && is_digit d) eqn:E.
    + apply andb_true_iff in E. destruct E as [_ Hd].
      cbn [firstn skipn group1 tl app commasBeforeDigitRemoved].
      rewrite (digit_not_comma d Hd). cbn [andb].
      f_equal. exact (IH 1).
    + f_equal. exact (IH 0).
Qed.

(** The character-class strip keeps the retained characters, all of
    them. *)
Lemma stripSpecial_filter s : stripSpecial s = filter retained s.
Proof.
  unfold stripSpecial.
  induction s as [|c r IH] using suffix_ind; [reflexivity|].
  rewrite replace_cons. unfold re_special. cbn [filter].
  destruct (retained c).
  - f_equal. exact (IH 0).
  - exact (IH 0).
Qed.

Lemma trimStart_split s :
  exists spaces, s = spaces ++ trimStart s
                 /\ Forall (fun c => is_space c = true) spaces.
Proof.
  induction s as [|c r [spaces [H1 H2]]]; [now exists []|].
  cbn [trimStart]. destruct (is_space c) eqn:E.
  - exists (c :: spaces). split; [simpl; now f_equal | now constructor].
  - now exists [].
Qed.

(** [trim] takes white space off the two ends and nothing else. *)
Lemma trim_split s :
  exists leading trailing,
    s = leading ++ trim s ++ trailing
    /\ Forall (fun c => is_space c = true) leading
    /\ Forall (fun c => is_space c = true) trailing.
Proof.
  destruct (trimStart_split s) as [leading [H1 H2]].
  destruct (trimStart_split (rev (trimStart s))) as [reversed [H3 H4]].
  exists leading, (rev reversed). repeat split; trivial.
  - unfold trim, trimEnd. rewrite <- rev_app_distr, <- H3, rev_involutive.
    exact H1.
  - now apply Forall_rev.
Qed.

Lemma commas_app a b : commas (a ++ b) = commas a + commas b.
Proof. apply count_occ_app. Qed.

Lemma commas_spaces spaces :
  Forall (fun c => is_space c = true) spaces -> commas spaces = 0.
Proof.
  induction 1 as [|c l Hc _ IH]; [reflexivity|].
  unfold commas in *. cbn [count_occ].
  destruct (ascii_dec c ","); [subst; discriminate | exact IH].
Qed.

Lemma commas_retained s : commas (filter retained s) = commas s.
Proof.
  induction s as [|c r IH]; [reflexivity|].
  unfold commas in *. cbn [filter count_occ].
  destruct (ascii_dec c ",") as [->|Hne].
  - cbn. now f_equal.
  - destruct (retained c); [|exact IH].
    cbn [count_occ]. destruct (ascii_dec c ","); [contradiction | exact IH].
Qed.

(** C2, as the program has it.  The thousands-separator step removes a
    comma exactly when the character right after it is a digit, whatever
    stands before it, and keeps every other character in place, so
    ["12,800"] becomes ["12800"]; the later steps of the normaliser remove
    no comma, so the commas that the step leaves are those of the
    result. *)
Theorem stripThousands_removes_commas_before_digits :
  (forall s, stripThousands s = commasBeforeDigitRemoved s)
  /\ stripThousands (lit "12,800") = lit "12800"
  /\ normalizeForMatching (lit "12,800") = lit "12800"
  /\ (forall text,
         commas (normalizeForMatching text)
         = commas (stripThousands (beforeThousands text))).
Proof.
  split; [exact stripThousands_spec|].
  split; [vm_compute; reflexivity|].
  split; [vm_compute; reflexivity|].
  intros text. unfold normalizeForMatching. fold (beforeThousands text).
  set (u := stripSpecial (stripThousands (beforeThousands text))).
  destruct (trim_split u) as (leading & trailing & Hu & Hl & Ht).
  transitivity (commas u).
  - rewrite Hu at 2. rewrite !commas_app.
    rewrite (commas_spaces leading Hl), (commas_spaces trailing Ht). lia.
  - unfold u. rewrite stripSpecial_filter. apply commas_retained.
Qed.

(** C2, as the specification words it, fails: in ["a,5"] the comma does
    not stand between two digits, and the step removes it all the same;
    it is not in the normalised text either. *)
Lemma stripThousands_between_digits_counterexample :
  stripThousands (lit "a,5") <> commasBetweenDigitsRemoved None (lit "a,5")
  /\ stripThousands (lit "a,5") = lit "a5"
  /\ commasBetweenDigitsRemoved None (lit "a,5") = lit "a,5"
  /\ normalizeForMatching (lit "a,5") = lit "a5".
Proof.
  split; [vm_compute; discriminate|].
  repeat split; vm_compute; reflexivity.
Qed.

(** ** What a normalised text looks like *)

Lemma lower_isLower c : isLower (lower c) = true.
Proof.
  destruct c as [[] [] [] [] [] [] [] []]; vm_compute; reflexivity.
Qed.

Lemma Forall_lit (P : ascii -> bool) (text : string) :
  forallb P (lit text) = true -> Forall (fun c => P c = true) (lit text).
Proof. intros H. apply Forall_forall. now apply forallb_forall. Qed.

Lemma Forall_skipn_suffix (P : ascii -> Prop) k (s : jsstring) :
  Forall P s -> Forall P (skipn k s).
Proof.
  intros H. rewrite <- (firstn_skipn k s) in H.
  apply Forall_app in H. tauto.
Qed.

Lemma Forall_firstn_prefix (P : ascii -> Prop) k (s : jsstring) :
  Forall P s -> Forall P (firstn k s).
Proof.
  intros H. rewrite <- (firstn_skipn k s) in H.
  apply Forall_app in H. tauto.
Qed.

Lemma toLowerCase_lower s :
  Forall (fun c => isLower c = true) (toLowerCase s).
Proof.
  unfold toLowerCase. apply Forall_forall. intros c Hc.
  apply in_map_iff in Hc. destruct Hc as [c0 [<- _]]. apply lower_isLower.
Qed.

Lemma collapseWhitespace_plain s :
  Forall (fun c => isLower c = true) s ->
  Forall (fun c => (isLower c && plainSpace c) = true) (collapseWhitespace s).
Proof.
  apply replace_Forall.
  - intros c r k _ _. now apply (Forall_lit (fun c => isLower c && plainSpace c)).
  - intros c r Hc. unfold re_spaces, plainSpace.
    destruct (is_space c); [discriminate|]. intros _. now rewrite Hc.
Qed.

Lemma spaceUsd_plain s :
  Forall (fun c => (isLower c && plainSpace c) = true) s ->
  Forall (fun c => (isLower c && plainSpace c) = true) (spaceUsd s).
Proof.
  apply replace_Forall.
  - intros c r k _ _. now apply (Forall_lit (fun c => isLower c && plainSpace c)).
  - intros c r Hc _. exact Hc.
Qed.

Lemma dollarToUsd_plain s :
  Forall (fun c => (isLower c && plainSpace c) = true) s ->
  Forall (fun c => (isLower c && plainSpace c && notDollar c) = true)
         (dollarToUsd s).
Proof.
  apply replace_Forall.
  - intros c r k _ _.
    now apply (Forall_lit (fun c => isLower c && plainSpace c && notDollar c)).
  - intros c r Hc. unfold re_dollar, notDollar.
    destruct (Ascii.eqb c "$"); [discriminate|]. intros _. now rewrite Hc.
Qed.

Lemma stripThousands_plain (P : ascii -> Prop) s :
  Forall P s -> Forall P (stripThousands s).
Proof.
  apply replace_Forall.
  - intros c r k H _. unfold group1. cbn [tl].
    inversion H; subst. now apply Forall_firstn_prefix.
  - intros c r Hc _. exact Hc.
Qed.

Lemma stripSpecial_normal s :
  Forall (fun c => (isLower c && plainSpace c && notDollar c) = true) s ->
  Forall (fun c => normalChar c = true) (stripSpecial s).
Proof.
  apply replace_Forall.
  - intros c r k _ _. constructor.
  - intros c r Hc. unfold re_special, normalChar.
    destruct (retained c); [|discriminate]. intros _. now rewrite Hc.
Qed.

Lemma trim_Forall (P : ascii -> Prop) s : Forall P s -> Forall P (trim s).
Proof.
  intros H. destruct (trim_split s) as (leading & trailing & Hs & _).
  rewrite Hs in H. apply Forall_app in H. destruct H as [_ H].
  apply Forall_app in H. tauto.
Qed.

Lemma trimStart_idem s : trimStart (trimStart s) = trimStart s.
Proof.
  induction s as [|c r IH]; [reflexivity|].
  cbn [trimStart]. destruct (is_space c) eqn:E; [exact IH|].
  cbn [trimStart]. now rewrite E.
Qed.

Lemma trimStart_app_keep s tail :
  trimStart s = s -> s <> [] -> trimStart (s ++ tail) = s ++ tail.
Proof.
  destruct s as [|c r]; [contradiction|].
  cbn [trimStart app]. destruct (is_space c) eqn:E; [|reflexivity].
  intros H _. exfalso.
  destruct (trimStart_split r) as [spaces [Hr _]].
  apply (f_equal (@length ascii)) in H, Hr.
  rewrite length_app in Hr. simpl in H. lia.
Qed.

(** The two ends of a trimmed text are not white space. *)
Lemma trim_trimmed s :
  trimStart (trim s) = trim s /\ trimStart (rev (trim s)) = rev (trim s).
Proof.
  unfold trim, trimEnd. split.
  - remember (trimStart s) as u eqn:Hu.
    assert (Hfix : trimStart u = u) by (subst u; apply trimStart_idem).
    clear Hu. destruct u as [|c r]; [reflexivity|].
    cbn [trimStart] in Hfix. destruct (is_space c) eqn:E.
    + exfalso. destruct (trimStart_split r) as [spaces [Hr _]].
      apply (f_equal (@length ascii)) in Hfix, Hr.
      rewrite length_app in Hr. simpl in Hfix. lia.
    + cbn [rev].
      destruct (trimStart_split (rev r ++ [c])) as [spaces [Hsplit Hsp]].
      assert (Hne : trimStart (rev r ++ [c]) <> []).
      { intros Hnil. rewrite Hnil, app_nil_r in Hsplit.
        assert (Hin : In c spaces) by (rewrite <- Hsplit; apply in_or_app; right; now left).
        rewrite Forall_forall in Hsp. specialize (Hsp c Hin). congruence. }
      destruct (exists_last Hne) as [w [z Hw]].
      rewrite Hw in Hsplit.
      rewrite app_assoc in Hsplit. apply app_inj_tail in Hsplit.
      destruct Hsplit as [_ <-].
      rewrite Hw, rev_app_distr. cbn [rev app trimStart]. now rewrite E.
  - rewrite rev_involutive. apply trimStart_idem.
Qed.

Lemma trim_fixed t :
  trimStart t = t -> trimStart (rev t) = rev t -> trim t = t.
Proof.
  intros H1 H2. unfold trim, trimEnd. rewrite H1, H2. apply rev_involutive.
Qed.

Lemma trim_fixed_space t :
  trimStart t = t -> trimStart (rev t) = rev t -> trim (t ++ lit " ") = t.
Proof.
  intros H1 H2. unfold trim, trimEnd.
  destruct t as [|c r]; [reflexivity|].
  rewrite trimStart_app_keep; [|assumption|discriminate].
  rewrite rev_app_distr. cbn [lit list_ascii_of_string rev app] in *.
  change (trimStart (" "%char :: rev r ++ [c])) with (trimStart (rev r ++ [c])).
  rewrite H2, rev_app_distr, rev_involutive. reflexivity.
Qed.

(** Every normalised text is trimmed and made of normal characters. *)
Lemma normalize_normal text :
  Forall (fun c => normalChar c = true) (normalizeForMatching text)
  /\ trimStart (normalizeForMatching text) = normalizeForMatching text
  /\ trimStart (rev (normalizeForMatching text))
     = rev (normalizeForMatching text).
Proof.
  split; [|apply trim_trimmed].
  unfold normalizeForMatching.
  apply trim_Forall, stripSpecial_normal, stripThousands_plain,
    dollarToUsd_plain, spaceUsd_plain, collapseWhitespace_plain,
    toLowerCase_lower.
Qed.

(** ** A second pass over a normalised text *)

Lemma normalChar_parts c :
  normalChar c = true ->
  lower c = c /\ c <> "$"%char /\ retained c = true
  /\ (is_space c = true -> c = " "%char).
Proof.
  unfold normalChar, isLower, plainSpace, notDollar.
  rewrite !andb_true_iff, orb_true_iff, !negb_true_iff.
  intros [[[Hl Hp] Hd] Hr]. repeat split; trivial.
  - now apply Ascii.eqb_eq.
  - intros ->. discriminate.
  - intros Hs. destruct Hp as [Hp | Hp]; [congruence | now apply Ascii.eqb_eq].
Qed.

Lemma hasDoubleSpace_suffix t k :
  hasDoubleSpace t = false -> startsWith (skipn k t) (lit "  ") = false.
Proof.
  unfold hasDoubleSpace. revert k.
  induction t as [|c r IH]; intros k H.
  - destruct k; reflexivity.
  - cbn [includes] in H. apply orb_false_iff in H. destruct H as [H1 H2].
    destruct k; [exact H1 | now apply IH].
Qed.

Lemma hasUnspacedUsd_suffix t k c r :
  hasUnspacedUsd t = false -> skipn k t = c :: r ->
  startsWith (c :: r) (lit "usd") = true ->
  skipn 2 r = [] \/ exists r', skipn 2 r = " "%char :: r'.
Proof.
  revert k. induction t as [|a t IH]; intros k H E Hs.
  - destruct k; discriminate.
  - cbn [hasUnspacedUsd] in H. apply orb_false_iff in H. destruct H as [H1 H2].
    destruct k as [|k].
    + cbn [skipn] in E. injection E as -> ->. rewrite Hs in H1.
      cbn [andb] in H1. change (skipn 3 (c :: r)) with (skipn 2 r) in H1.
      destruct (skipn 2 r) as [|next r']; [now left|].
      right. exists r'. apply negb_false_iff, Ascii.eqb_eq in H1. now subst.
    + now apply (IH k).
Qed.

Lemma hasCommaBeforeDigit_app_space t :
  hasCommaBeforeDigit t = false ->
  hasCommaBeforeDigit (t ++ lit " ") = false.
Proof.
  induction t as [|c r IH]; [reflexivity|].
  cbn [hasCommaBeforeDigit app]. intros H.
  apply orb_false_iff in H. destruct H as [H1 H2].
  rewrite (IH H2), orb_false_r.
  destruct r as [|d r']; [|exact H1].
  cbn. apply andb_false_r.
Qed.

Lemma toLowerCase_fixed t :
  Forall (fun c => normalChar c = true) t -> toLowerCase t = t.
Proof.
  unfold toLowerCase. induction 1 as [|c r Hc _ IH]; [reflexivity|].
  cbn [map]. rewrite IH. f_equal. now apply normalChar_parts.
Qed.

Lemma span_none (p : ascii -> bool) r :
  match r with
  | c :: _ => p c = false
  | [] => True
  end ->
  span p r = 0.
Proof. destruct r as [|c r]; [reflexivity|]. cbn. now intros ->. Qed.

(** After a space of a text without two spaces in a row comes no white
    space. *)
Lemma after_single_space t k r :
  Forall (fun c => normalChar c = true) t ->
  hasDoubleSpace t = false ->
  skipn k t = " "%char :: r ->
  span is_space r = 0.
Proof.
  intros Hn Hd E. apply span_none. destruct r as [|c r']; [trivial|].
  destruct (is_space c) eqn:Hc; [exfalso | reflexivity].
  pose proof (Forall_skipn_suffix _ k t Hn) as Hk. rewrite E in Hk.
  inversion Hk as [|? ? _ Hr]; subst. inversion Hr as [|? ? Hcn _]; subst.
  apply normalChar_parts in Hcn. destruct Hcn as (_ & _ & _ & Hsp).
  rewrite (Hsp Hc) in E.
  pose proof (hasDoubleSpace_suffix t k Hd) as Hno. rewrite E in Hno.
  discriminate.
Qed.

Lemma collapseWhitespace_fixed t :
  Forall (fun c => normalChar c = true) t ->
  hasDoubleSpace t = false ->
  collapseWhitespace t = t.
Proof.
  intros Hn Hd. apply replace_fixed. intros k c r E.
  unfold re_spaces. destruct (is_space c) eqn:Hc; [|trivial].
  pose proof (Forall_skipn_suffix _ k t Hn) as Hk. rewrite E in Hk.
  inversion Hk as [|? ? Hcn _]; subst.
  apply normalChar_parts in Hcn. destruct Hcn as (_ & _ & _ & Hsp).
  rewrite (Hsp Hc) in *.
  rewrite (after_single_space t k r Hn Hd E). reflexivity.
Qed.

Lemma spaceUsd_fixed_or_tail t :
  Forall (fun c => normalChar c = true) t ->
  hasDoubleSpace t = false ->
  hasUnspacedUsd t = false ->
  spaceUsd t = t \/ spaceUsd t = t ++ lit " ".
Proof.
  intros Hn Hd Hu. apply replace_fixed_or_tail. intros k c r E.
  unfold re_usd. destruct r as [|c1 [|c2 r']]; trivial.
  destruct (Ascii.eqb (lower c) "u" && Ascii.eqb (lower c1) "s"
            && Ascii.eqb (lower c2) "d") eqn:Hm; [|trivial].
  pose proof (Forall_skipn_suffix _ k t Hn) as Hk. rewrite E in Hk.
  inversion Hk as [|? ? Hc Hk1]; subst.
  inversion Hk1 as [|? ? Hc1 Hk2]; subst.
  inversion Hk2 as [|? ? Hc2 _]; subst.
  apply normalChar_parts in Hc, Hc1, Hc2.
  destruct Hc as [Hc _], Hc1 as [Hc1 _], Hc2 as [Hc2 _].
  rewrite Hc, Hc1, Hc2 in Hm.
  rewrite !andb_true_iff, !Ascii.eqb_eq in Hm. destruct Hm as [[-> ->] ->].
  destruct (hasUnspacedUsd_suffix t k _ _ Hu E eq_refl) as [Hend | [r'' Hsp]];
    cbn [skipn] in *.
  - subst r'. right. split; reflexivity.
  - subst r'. left.
    assert (E' : skipn (k + 3) t = " "%char :: r'').
    { rewrite Nat.add_comm, <- skipn_skipn, E. reflexivity. }
    cbn [span]. change (is_space " ") with true. cbn iota.
    rewrite (after_single_space t (k + 3) r'' Hn Hd E'). reflexivity.
Qed.

Lemma dollarToUsd_fixed x :
  Forall (fun c => normalChar c = true) x -> dollarToUsd x = x.
Proof.
  intros Hn. apply replace_fixed. intros k c r E.
  pose proof (Forall_skipn_suffix _ k x Hn) as Hk. rewrite E in Hk.
  inversion Hk as [|? ? Hc _]; subst.
  apply normalChar_parts in Hc. destruct Hc as (_ & Hd & _).
  unfold re_dollar. destruct (Ascii.eqb_spec c "$"); [contradiction | trivial].
Qed.

Lemma stripThousands_fixed x :
  hasCommaBeforeDigit x = false -> stripThousands x = x.
Proof.
  rewrite stripThousands_spec.
  induction x as [|c r IH]; [reflexivity|].
  cbn [hasCommaBeforeDigit commasBeforeDigitRemoved]. intros H.
  apply orb_false_iff in H. destruct H as [-> H]. now rewrite IH.
Qed.

Lemma stripSpecial_fixed x :
  Forall (fun c => normalChar c = true) x -> stripSpecial x = x.
Proof.
  rewrite stripSpecial_filter.
  induction 1 as [|c r Hc _ IH]; [reflexivity|].
  cbn [filter]. apply normalChar_parts in Hc. destruct Hc as (_ & _ & -> & _).
  now rewrite IH.
Qed.

(** A trimmed text of normal characters that a second pass cannot change
    in any of the three ways left is a fixed point of the normaliser. *)
Lemma normalize_fixed t :
  Forall (fun c => normalChar c = true) t ->
  trimStart t = t -> trimStart (rev t) = rev t ->
  hasDoubleSpace t = false ->
  hasCommaBeforeDigit t = false ->
  hasUnspacedUsd t = false ->
  normalizeForMatching t = t.
Proof.
  intros Hn Hs He Hd Hc Hu. unfold normalizeForMatching.
  rewrite (toLowerCase_fixed t Hn), (collapseWhitespace_fixed t Hn Hd).
  destruct (spaceUsd_fixed_or_tail t Hn Hd Hu) as [-> | ->].
  - rewrite (dollarToUsd_fixed t Hn), (stripThousands_fixed t Hc),
      (stripSpecial_fixed t Hn).
    now apply trim_fixed.
  - assert (Hn' : Forall (fun c => normalChar c = true) (t ++ lit " ")).
    { apply Forall_app. split; [exact Hn|]. now apply Forall_lit. }
    rewrite (dollarToUsd_fixed _ Hn'),
      (stripThousands_fixed _ (hasCommaBeforeDigit_app_space t Hc)),
      (stripSpecial_fixed _ Hn').
    now apply trim_fixed_space.
Qed.

(** C1, as far as it holds.  Normalising a normalised text changes
    nothing when that text has no two spaces in a row, no comma right
    before a digit and no [usd] followed by a character other than a
    space. *)
Theorem normalize_idempotent_when (s : jsstring) :
  hasDoubleSpace (normalizeForMatching s) = false ->
  hasCommaBeforeDigit (normalizeForMatching s) = false ->
  hasUnspacedUsd (normalizeForMatching s) = false ->
  normalizeForMatching (normalizeForMatching s) = normalizeForMatching s.
Proof.
  intros Hd Hc Hu.
  destruct (normalize_normal s) as (Hn & Hs & He).
  now apply normalize_fixed.
Qed.

Lemma normalize_idempotent_when_witness :
  normalizeForMatching (normalizeForMatching (lit "  Revenue was $12,800 (USD)  "))
  = normalizeForMatching (lit "  Revenue was $12,800 (USD)  ").
Proof.
  apply (normalize_idempotent_when (lit "  Revenue was $12,800 (USD)  "));
    vm_compute; reflexivity.
Defined.

(** Each of the three conditions is needed: a text normalised once can
    still hold two spaces, a comma before a digit, or [usd] before a
    letter, and a second pass changes each. *)
Lemma normalize_second_pass_examples :
  (normalizeForMatching (lit "a # b") = lit "a  b"
   /\ normalizeForMatching (lit "a  b") = lit "a b")
  /\ (normalizeForMatching (lit "1,,2") = lit "1,2"
      /\ normalizeForMatching (lit "1,2") = lit "12")
  /\ (normalizeForMatching (lit "u#sdx") = lit "usdx"
      /\ normalizeForMatching (lit "usdx") = lit "usd x").
Proof. repeat split; vm_compute; reflexivity. Qed.

(** C1, as the specification states it, fails: ["$ 5"] normalises to
    ["usd  5"], with two spaces, and that to ["usd 5"]. *)
Lemma normalize_idempotent_counterexample :
  normalizeForMatching (lit "$ 5") = lit "usd  5"
  /\ normalizeForMatching (normalizeForMatching (lit "$ 5")) = lit "usd 5"
  /\ normalizeForMatching (normalizeForMatching (lit "$ 5"))
     <> normalizeForMatching (lit "$ 5").
Proof.
  repeat split; try (vm_compute; reflexivity).
  vm_compute. discriminate.
Qed.

(* ================================================================== *)
(** * The fuzzy matcher                                                *)
(* ================================================================== *)

(** C4.  Substring containment implies fuzzy match: when the normalised
    haystack contains the normalised needle as a substring, [fuzzyMatch]
    answers true. *)
Theorem fuzzyMatch_of_containment (haystack needle before after : jsstring) :
  normalizeForMatching haystack
  = before ++ normalizeForMatching needle ++ after ->
  fuzzyMatch haystack needle = true.
Proof.
  intros H. unfold fuzzyMatch.
  replace (includes (normalizeForMatching haystack)
                    (normalizeForMatching needle)) with true; [reflexivity|].
  symmetry. apply includes_spec. now exists before, after.
Qed.

Lemma fuzzyMatch_of_containment_witness :
  fuzzyMatch (lit "Total revenue was $12,800 in 2023") (lit "USD 12800") = true.
Proof.
  apply (fuzzyMatch_of_containment
           (lit "Total revenue was $12,800 in 2023") (lit "USD 12800")
           (lit "total revenue was ") (lit " in 2023")).
  reflexivity.
Defined.

Lemma firstn_span (p : ascii -> bool) r :
  Forall (fun c => p c = true) (firstn (span p r) r).
Proof.
  induction r as [|c r IH]; [constructor|].
  cbn [span]. destruct (p c) eqn:E; [|constructor].
  cbn [firstn]. now constructor.
Qed.

Lemma firstn_add (k m : nat) (r : jsstring) :
  firstn (k + m) r = firstn k r ++ firstn m (skipn k r).
Proof.
  revert r. induction k as [|k IH]; intros r; [reflexivity|].
  destruct r as [|c r]; [now destruct m|].
  cbn [Nat.add firstn skipn app]. now rewrite IH.
Qed.

Lemma re_number_shape c r k :
  re_number c r = Some k -> numberShape (c :: firstn k r).
Proof.
  unfold re_number. destruct (is_digit c) eqn:Hc; [|discriminate].
  pose proof (firstn_span is_digit r) as Hds.
  set (n := span is_digit r) in *.
  destruct (skipn n r) as [|dot r'] eqn:E.
  - intros [= <-]. exists c, (firstn n r), [].
    rewrite app_nil_r. repeat split; trivial. now left.
  - destruct (Ascii.eqb_spec dot ".") as [-> | _].
    + intros [= <-]. exists c, (firstn n r), ("."%char :: firstn (span is_digit r') r').
      rewrite <- Nat.add_assoc, firstn_add, E. repeat split; trivial.
      right. eexists. split; [reflexivity | apply firstn_span].
    + intros [= <-]. exists c, (firstn n r), [].
      rewrite app_nil_r. repeat split; trivial. now left.
Qed.

Lemma span_stop (p : ascii -> bool) (run rest : jsstring) :
  Forall (fun c => p c = true) run ->
  match rest with
  | c :: _ => p c = false
  | [] => True
  end ->
  span p (run ++ rest) = length run.
Proof.
  intros Hrun Hrest. induction Hrun as [|c run Hc _ IH].
  - now apply span_none.
  - cbn [app span length]. now rewrite Hc, IH.
Qed.

Lemma firstn_length_app (a b : jsstring) : firstn (length a) (a ++ b) = a.
Proof. induction a as [|c a IH]; [reflexivity|]. cbn. now rewrite IH. Qed.

Lemma skipn_length_app (a b : jsstring) : skipn (length a) (a ++ b) = b.
Proof. induction a as [|c a IH]; [reflexivity|]. exact IH. Qed.

(** ** The numbers among the key terms *)

(** Where [/\d+\.?\d*/] matched, the match cannot be made longer. *)
Lemma re_number_stops c r k :
  re_number c r = Some k -> stopsNumber (c :: firstn k r) (skipn k r).
Proof.
  unfold re_number. destruct (is_digit c); [|discriminate].
  pose proof (skipn_span_head is_digit r) as Hhead.
  set (n := span is_digit r) in *.
  destruct (skipn n r) as [|dot r'] eqn:E.
  - intros H. apply Some_inj in H. subst k. rewrite E. exact I.
  - destruct (Ascii.eqb_spec dot ".") as [-> | Hdot].
    + intros H. apply Some_inj in H. subst k.
      replace (n + 1 + span is_digit r') with (span is_digit r' + (1 + n))
        by lia.
      rewrite <- skipn_skipn, <- (skipn_skipn 1 n), E. cbn [skipn].
      pose proof (skipn_span_head is_digit r') as Hhead'.
      destruct (skipn (span is_digit r') r') as [|c' rest]; [exact I|].
      split; [exact Hhead'|]. intros _. right.
      replace (span is_digit r' + (1 + n)) with (n + (1 + span is_digit r'))
        by lia.
      rewrite firstn_add, E. apply in_or_app. right. now left.
    + intros H. apply Some_inj in H. subst k. rewrite E.
      split; [exact Hhead | intros ->; contradiction].
Qed.

Lemma re_number_gap c r : is_digit c = false -> re_number c r = None.
Proof. unfold re_number. now intros ->. Qed.

Lemma re_number_digit c r :
  is_digit c = true ->
  re_number c r
  = match skipn (span is_digit r) r with
    | dot :: r' =>
        if Ascii.eqb dot "."
        then Some (span is_digit r + 1 + span is_digit r')
        else Some (span is_digit r)
    | [] => Some (span is_digit r)
    end.
Proof. unfold re_number. now intros ->. Qed.

Lemma numbersOf_gap c text numbers :
  is_digit c = false -> numbersOf text numbers -> numbersOf (c :: text) numbers.
Proof.
  intros Hc H. destruct H as [text Hnone | gap number rest numbers Hgap].
  - apply numbers_none. now constructor.
  - apply (numbers_next (c :: gap)); trivial. now constructor.
Qed.

(** What the pattern reports are the numbers of the text. *)
Lemma matches_numbersOf text : numbersOf text (matches re_number text).
Proof.
  induction text as [|c r IH] using suffix_ind.
  - apply numbers_none. constructor.
  - rewrite matches_cons. destruct (re_number c r) as [k|] eqn:E.
    + replace (c :: r) with ([] ++ (c :: firstn k r) ++ skipn k r)
        by (cbn [app]; now rewrite firstn_skipn).
      apply numbers_next; [constructor | | | apply IH].
      * now apply re_number_shape with (1 := E).
      * now apply re_number_stops.
    + apply numbersOf_gap; [|apply (IH 0)].
      unfold re_number in E. destruct (is_digit c); [|reflexivity].
      destruct (skipn _ r) as [|dot r']; [discriminate|].
      destruct (Ascii.eqb dot "."); discriminate.
Qed.

Lemma matches_number_gap gap text :
  noDigit gap -> matches re_number (gap ++ text) = matches re_number text.
Proof.
  induction 1 as [|c gap Hc _ IH]; [reflexivity|].
  cbn [app]. now rewrite matches_cons, re_number_gap.
Qed.

Lemma matches_number_at number rest :
  numberShape number -> stopsNumber number rest ->
  matches re_number (number ++ rest) = number :: matches re_number rest.
Proof.
  intros (d & ds & fraction & -> & Hd & Hds & Hfraction) Hstop.
  cbn [app]. rewrite <- app_assoc, matches_cons, (re_number_digit _ _ Hd).
  assert (Hspan : span is_digit (ds ++ fraction ++ rest) = length ds).
  { apply span_stop; [exact Hds|].
    destruct Hfraction as [-> | (fs & -> & _)]; [|reflexivity].
    cbn [app]. destruct rest as [|c rest]; [exact I | apply Hstop]. }
  rewrite Hspan, skipn_length_app.
  destruct Hfraction as [-> | (fs & -> & Hfs)].
  - cbn [app]. rewrite app_nil_r.
    assert (Hplain : ~ In "."%char (d :: ds)).
    { intros [E | Hin]; [rewrite E in Hd; vm_compute in Hd; discriminate|].
      rewrite Forall_forall in Hds. specialize (Hds _ Hin).
      vm_compute in Hds. discriminate. }
    destruct rest as [|c rest].
    + now rewrite firstn_length_app, skipn_length_app.
    + destruct (Ascii.eqb_spec c ".") as [-> | _].
      * destruct Hstop as [_ Hin]. rewrite app_nil_r in Hin.
        now specialize (Hin eq_refl).
      * now rewrite firstn_length_app, skipn_length_app.
  - cbn [app].
    change (Ascii.eqb "." ".") with true. cbn iota.
    assert (Hspan' : span is_digit (fs ++ rest) = length fs).
    { apply span_stop; [exact Hfs|].
      destruct rest as [|c rest]; [exact I | apply Hstop]. }
    rewrite Hspan'.
    replace (length ds + 1 + length fs) with (length (ds ++ "."%char :: fs))
      by (rewrite length_app; cbn [length]; lia).
    replace (ds ++ "."%char :: fs ++ rest)
      with ((ds ++ "."%char :: fs) ++ rest)
      by (now rewrite <- app_assoc).
    now rewrite firstn_length_app, skipn_length_app.
Qed.

(** The numbers of a text are no other list than the pattern's. *)
Lemma numbersOf_matches text numbers :
  numbersOf text numbers -> numbers = matches re_number text.
Proof.
  induction 1 as [text Hnone | gap number rest numbers Hgap Hshape Hstop _ IH].
  - rewrite <- (app_nil_r text), matches_number_gap; trivial.
  - rewrite matches_number_gap, matches_number_at; trivial. now f_equal.
Qed.

(** ** The words among the key terms *)

Lemma split_space_nonempty s : split_space s <> [].
Proof.
  destruct s as [|c r]; [discriminate|]. cbn [split_space].
  destruct (Ascii.eqb c " "); [discriminate|].
  destruct (split_space r); discriminate.
Qed.

(** The pieces [split(' ')] gives are the words of the text. *)
Lemma split_space_wordsOf text : wordsOf text (split_space text).
Proof.
  split; [apply split_space_nonempty|].
  induction text as [|c r IH].
  - split; [reflexivity|]. constructor; [intros []|constructor].
  - destruct IH as [Hjoin Hwords]. cbn [split_space].
    pose proof (split_space_nonempty r) as Hne.
    destruct (Ascii.eqb_spec c " ") as [-> | Hc].
    + destruct (split_space r) as [|w ws]; [contradiction|].
      split; [cbn [joinSpace app]; now rewrite <- Hjoin|].
      constructor; [intros [] | exact Hwords].
    + destruct (split_space r) as [|w ws]; [contradiction|].
      inversion Hwords as [|? ? Hw Hws]; subst.
      split.
      * cbn [joinSpace]. now destruct ws.
      * constructor; [|exact Hws].
        intros [E | Hin]; [now apply Hc | now apply Hw].
Qed.

Lemma split_space_word word :
  ~ In " "%char word -> split_space word = [word].
Proof.
  induction word as [|c word IH]; [reflexivity|].
  intros Hword. cbn [split_space].
  destruct (Ascii.eqb_spec c " ") as [-> | _]; [exfalso; apply Hword; now left|].
  rewrite IH; [reflexivity|]. intros Hin. apply Hword. now right.
Qed.

Lemma split_space_app word rest :
  ~ In " "%char word ->
  split_space (word ++ " "%char :: rest) = word :: split_space rest.
Proof.
  induction word as [|c word IH]; [reflexivity|].
  intros Hword. cbn [app split_space].
  destruct (Ascii.eqb_spec c " ") as [-> | _]; [exfalso; apply Hword; now left|].
  rewrite IH; [reflexivity|]. intros Hin. apply Hword. now right.
Qed.

(** The words of a text are no other list than the pieces. *)
Lemma wordsOf_split_space text words :
  wordsOf text words -> words = split_space text.
Proof.
  intros (Hne & Hjoin & Hwords). subst text.
  induction words as [|w ws IH]; [contradiction|].
  inversion Hwords as [|? ? Hw Hws]; subst.
  cbn [joinSpace]. destruct ws as [|w' ws'].
  - now rewrite split_space_word.
  - rewrite split_space_app; [|exact Hw]. f_equal.
    apply IH; [discriminate | exact Hws].
Qed.

Lemma termMatches_spec haystackTerms term :
  termMatches haystackTerms term = true <->
  exists hTerm, In hTerm haystackTerms /\
                (contains hTerm term \/ contains term hTerm).
Proof.
  unfold termMatches, contains. rewrite existsb_exists.
  split; intros [h [Hin H]]; exists h; split; trivial.
  - apply orb_true_iff in H. now rewrite <- !includes_spec.
  - apply orb_true_iff. now rewrite !includes_spec.
Qed.

(** C5.  When the substring check fails, that is when the needle's normal
    form occurs nowhere in the haystack's, a needle without key terms does
    not match; otherwise the answer is true exactly when the matched
    fraction of the needle's key terms is at least 0.6 or at least two of
    them matched, a term being matched when some haystack key term
    contains it or is contained in it.  So two matched terms out of five
    are enough.  The key terms of a text are its numbers (the maximal
    digit sequences, each with at most one decimal point) followed by its
    words of four characters or more other than this, that, with, from,
    have, been, were and said. *)
Theorem fuzzyMatch_key_terms (haystack needle : jsstring) :
  includes (normalizeForMatching haystack) (normalizeForMatching needle) = false ->
  let needleTerms := extractKeyTerms (normalizeForMatching needle) in
  let haystackTerms := extractKeyTerms (normalizeForMatching haystack) in
  let matchedTerms := filter (termMatches haystackTerms) needleTerms in
  ~ contains (normalizeForMatching haystack) (normalizeForMatching needle)
  /\ (forall text, exists numbers words,
         numbersOf text numbers /\ wordsOf text words)
  /\ (forall text numbers words,
         numbersOf text numbers -> wordsOf text words ->
         extractKeyTerms text = numbers ++ filter significantWord words)
  /\ (forall terms term,
         termMatches terms term = true <->
         exists hTerm, In hTerm terms /\
                       (contains hTerm term \/ contains term hTerm))
  /\ (needleTerms = [] -> fuzzyMatch haystack needle = false)
  /\ (needleTerms <> [] ->
      (fuzzyMatch haystack needle = true <->
       (6 # 10 <= Z.of_nat (length matchedTerms) # Pos.of_nat (length needleTerms))%Q
       \/ 2 <= length matchedTerms))
  /\ (length needleTerms = 5 -> length matchedTerms = 2 ->
      (Z.of_nat (length matchedTerms) # Pos.of_nat (length needleTerms) < 6 # 10)%Q
      /\ fuzzyMatch haystack needle = true).
Proof.
  intros Hsub needleTerms haystackTerms matchedTerms.
  assert (Hiff : needleTerms <> [] ->
                 (fuzzyMatch haystack needle = true <->
                  (6 # 10 <= Z.of_nat (length matchedTerms)
                             # Pos.of_nat (length needleTerms))%Q
                  \/ 2 <= length matchedTerms)).
  { intros Hne. unfold fuzzyMatch. rewrite Hsub.
    fold needleTerms haystackTerms matchedTerms.
    destruct needleTerms as [|t ts] eqn:E; [contradiction|].
    cbn [length Nat.eqb]. unfold ratioAtLeast.
    rewrite orb_true_iff, Qle_bool_iff, Nat.leb_le. reflexivity. }
  split; [|split; [|split; [|split; [|split; [|split]]]]].
  - unfold contains. rewrite <- includes_spec, Hsub. discriminate.
  - intros text. exists (matches re_number text), (split_space text).
    split; [apply matches_numbersOf | apply split_space_wordsOf].
  - intros text numbers words Hnumbers Hwords.
    rewrite (numbersOf_matches _ _ Hnumbers), (wordsOf_split_space _ _ Hwords).
    reflexivity.
  - apply termMatches_spec.
  - intros Hnil. unfold fuzzyMatch. rewrite Hsub.
    fold needleTerms. rewrite Hnil. reflexivity.
  - exact Hiff.
  - intros H5 H2. split.
    + rewrite H5, H2. reflexivity.
    + apply Hiff; [|right; lia].
      intros Hnil. rewrite Hnil in H5. discriminate.
Qed.

Lemma fuzzyMatch_key_terms_witness :
  extractKeyTerms (normalizeForMatching (lit "1 2 3 alpha 4.5"))
  = map lit ["1"; "2"; "3"; "4.5"; "alpha"]%string
  /\ filter (termMatches
               (extractKeyTerms (normalizeForMatching (lit "4.5 zulu alpha"))))
            (extractKeyTerms (normalizeForMatching (lit "1 2 3 alpha 4.5")))
     = map lit ["4.5"; "alpha"]%string
  /\ fuzzyMatch (lit "4.5 zulu alpha") (lit "1 2 3 alpha 4.5") = true.
Proof.
  split; [reflexivity|]. split; [reflexivity|].
  assert (Hsub : includes (normalizeForMatching (lit "4.5 zulu alpha"))
                          (normalizeForMatching (lit "1 2 3 alpha 4.5")) = false)
    by (vm_compute; reflexivity).
  destruct (fuzzyMatch_key_terms
              (lit "4.5 zulu alpha") (lit "1 2 3 alpha 4.5")
              Hsub) as (_ & _ & _ & _ & _ & _ & Hfive).
  apply Hfive; vm_compute; reflexivity.
Defined.

(* ================================================================== *)
(** * The span resolver                                                *)
(* ================================================================== *)

(** C7.  On a page whose fragments read ["Revenue"], ["12.8"], ["billion"],
    whatever their geometry, the buffer is ["Revenue 12.8 billion"], each
    synthetic space owned by the fragment before it, and resolving the
    phrase ["Revenue 12.8"] touches fragments 0 and 1 (and no other). *)
Theorem resolve_revenue_touches_first_two
        (m0 m1 m2 : TextItem.matrix) (w0 h0 w1 h1 w2 h2 : Q)
        (e0 e1 e2 : option bool) :
  let items :=
    [TextItem.mk (lit "Revenue") m0 w0 h0 e0;
     TextItem.mk (lit "12.8") m1 w1 h1 e1;
     TextItem.mk (lit "billion") m2 w2 h2 e2] in
  buildFullText 0 items
  = (lit "Revenue 12.8 billion", repeat 0 8 ++ repeat 1 5 ++ repeat 2 7)
  /\ exists touched,
      value (matchingItemIndices (lit "Revenue 12.8") items) = Some touched
      /\ In 0 touched /\ In 1 touched /\ touched = [0; 1].
Proof.
  intros items. split; [vm_compute; reflexivity|].
  exists [0; 1].
  split; [vm_compute; reflexivity|].
  simpl. tauto.
Qed.

(* ================================================================== *)
(** * The rectangle merger                                             *)
(* ================================================================== *)

(** C8.  Two rectangles at y=100 and y=101 whose x-extents are 0..50 and
    55..100 merge, in either input order and whichever of the two is the
    lower one, into one rectangle spanning x=0..100; two rectangles at
    y=100 and y=200 come back unmerged whatever their x, width and
    height. *)
Theorem mergeRects_examples :
  (forall h1 h2,
      mergeRects [Rect.mk 0 100 50 h1; Rect.mk 55 101 45 h2]
      = [Rect.mk 0 100 100 (Qmax h1 h2)]
      /\ mergeRects [Rect.mk 55 101 45 h2; Rect.mk 0 100 50 h1]
         = [Rect.mk 0 100 100 (Qmax h1 h2)]
      /\ mergeRects [Rect.mk 0 101 50 h1; Rect.mk 55 100 45 h2]
         = [Rect.mk 0 100 100 (Qmax h2 h1)])
  /\ (forall x1 w1 h1 x2 w2 h2,
         mergeRects [Rect.mk x1 100 w1 h1; Rect.mk x2 200 w2 h2]
         = [Rect.mk x1 100 w1 h1; Rect.mk x2 200 w2 h2]
         /\ mergeRects [Rect.mk x2 200 w2 h2; Rect.mk x1 100 w1 h1]
            = [Rect.mk x1 100 w1 h1; Rect.mk x2 200 w2 h2]).
Proof.
  split.
  - intros h1 h2. repeat split; vm_compute; reflexivity.
  - intros x1 w1 h1 x2 w2 h2. split; vm_compute; reflexivity.
Qed.

(* ================================================================== *)
(** * The page locator                                                 *)
(* ================================================================== *)

Section Locator.

Variables phrase id : jsstring.
Variable pageContents : list (option Page.t).

Lemma value_bind {A B} (m : logged A) (k : A -> logged B) :
  value (bind m k) = value (k (value m)).
Proof.
  unfold value, bind. destruct m as [w a]. simpl.
  destruct (k a). reflexivity.
Qed.

Lemma console_bind {A B} (m : logged A) (k : A -> logged B) :
  console (bind m k) = console m ++ console (k (value m)).
Proof.
  unfold console, value, bind. destruct m as [w a]. simpl.
  destruct (k a). reflexivity.
Qed.

Lemma pageAt_inside i pageContent :
  pageAt pageContents i = Some pageContent ->
  (0 <= i < Z.of_nat (length pageContents))%Z
  /\ nth_error pageContents (Z.to_nat i) = Some (Some pageContent).
Proof.
  unfold pageAt. destruct (Z.ltb_spec i 0); [discriminate|].
  destruct (nth_error pageContents (Z.to_nat i)) as [[q|]|] eqn:E;
    try discriminate.
  intros [= ->]. split; [|reflexivity].
  assert (Z.to_nat i < length pageContents)
    by (apply nth_error_Some; congruence).
  lia.
Qed.

(** The loop skips the indices that do not qualify. *)
Lemma searchPages_skip before order :
  Forall (fun i => qualifies phrase pageContents i = false) before ->
  value (searchPages phrase id pageContents (before ++ order))
  = value (searchPages phrase id pageContents order)
  /\ flaggedApproximate (searchPages phrase id pageContents (before ++ order))
     = flaggedApproximate (searchPages phrase id pageContents order)
  /\ incl (console (searchPages phrase id pageContents order))
          (console (searchPages phrase id pageContents (before ++ order))).
Proof.
  induction 1 as [|i before Hi _ IH];
    [split; [|split]; try reflexivity; apply incl_refl|].
  cbn [app searchPages]. unfold qualifies in Hi.
  destruct (pageAt pageContents i) as [pageContent|]; [|exact IH].
  rewrite Hi. unfold flaggedApproximate in *.
  rewrite value_bind, console_bind.
  destruct IH as (IH1 & IH2 & IH3). repeat split; trivial.
  now apply incl_appr.
Qed.

Lemma searchPages_none order :
  Forall (fun i => qualifies phrase pageContents i = false) order ->
  value (searchPages phrase id pageContents order) = None.
Proof.
  intros H. rewrite <- (app_nil_r order).
  rewrite (proj1 (searchPages_skip order [] H)). reflexivity.
Qed.

(** The console of the span resolver never holds the fallback warning. *)
Lemma unflagged_ret {A} (a : A) : flaggedApproximate (ret a) = false.
Proof. reflexivity. Qed.

Lemma unflagged_bind {A B} (m : logged A) (k : A -> logged B) :
  flaggedApproximate m = false ->
  (forall a, flaggedApproximate (k a) = false) ->
  flaggedApproximate (bind m k) = false.
Proof.
  unfold flaggedApproximate. intros Hm Hk.
  rewrite console_bind, existsb_app, Hm, Hk. reflexivity.
Qed.

Lemma partialPass_unflagged allKeyTerms normalizedFullText terms :
  flaggedApproximate (partialPass allKeyTerms normalizedFullText terms) = false.
Proof.
  induction terms as [|term rest IH]; [reflexivity|].
  cbn [partialPass]. destruct (_ =? _)%Z; [exact IH|].
  destruct (Qle_bool _ _); [|exact IH].
  apply unflagged_bind; [reflexivity | intros; apply unflagged_ret].
Qed.

Lemma matchingItemIndices_unflagged items :
  flaggedApproximate (matchingItemIndices phrase items) = false.
Proof.
  unfold matchingItemIndices.
  destruct (buildFullText 0 items) as [fullText charToItemMap].
  apply unflagged_bind.
  - unfold locateSpan. destruct (_ =? _)%Z; [|apply unflagged_ret].
    apply partialPass_unflagged.
  - intros [[startIndex searchLength]|]; [apply unflagged_ret|].
    apply unflagged_bind; [reflexivity | intros; apply unflagged_ret].
Qed.

Lemma findTextRects_unflagged pageContent :
  flaggedApproximate (findTextRects phrase pageContent) = false.
Proof.
  unfold findTextRects. apply unflagged_bind.
  - apply matchingItemIndices_unflagged.
  - intros [indices|]; apply unflagged_ret.
Qed.

(** The loop stops at the first index that qualifies. *)
Lemma searchPages_first before i after pageContent :
  Forall (fun j => qualifies phrase pageContents j = false) before ->
  pageAt pageContents i = Some pageContent ->
  fuzzyMatch (Page.text pageContent) phrase = true ->
  let run := searchPages phrase id pageContents (before ++ i :: after) in
  value run = Some (resultFor phrase id i pageContent)
  /\ flaggedApproximate run
     = negb (0 <? length (value (findTextRects phrase pageContent))).
Proof.
  intros Hbefore Hpage Hmatch run. subst run.
  destruct (searchPages_skip before (i :: after) Hbefore) as (-> & -> & _).
  cbn [searchPages]. rewrite Hpage, Hmatch. unfold flaggedApproximate, resultFor.
  rewrite !value_bind, !console_bind, !existsb_app.
  pose proof (findTextRects_unflagged pageContent) as Hun.
  unfold flaggedApproximate in Hun. rewrite Hun.
  destruct (0 <? length (value (findTextRects phrase pageContent)));
    split; reflexivity.
Qed.

(** Every index either qualifies or not: the visit order splits at the
    first one that does. *)
Lemma first_qualifying order :
  Forall (fun i => qualifies phrase pageContents i = false) order
  \/ exists before i after,
      order = before ++ i :: after
      /\ Forall (fun j => qualifies phrase pageContents j = false) before
      /\ qualifies phrase pageContents i = true.
Proof.
  induction order as [|i order IH]; [left; constructor|].
  destruct (qualifies phrase pageContents i) eqn:E.
  - right. exists [], i, order. repeat split; trivial.
  - destruct IH as [IH | [before [j [after [-> [Hb Hj]]]]]].
    + left. now constructor.
    + right. exists (i :: before), j, after. repeat split; trivial.
      now constructor.
Qed.

Lemma qualifies_page i :
  qualifies phrase pageContents i = true ->
  exists pageContent,
    pageAt pageContents i = Some pageContent
    /\ fuzzyMatch (Page.text pageContent) phrase = true.
Proof.
  unfold qualifies. destruct (pageAt pageContents i) as [pageContent|];
    [|discriminate].
  intros H. now exists pageContent.
Qed.

Lemma findPhrase_searchPages pageHint :
  value (findPhrase phrase id pageContents pageHint)
  = value (searchPages phrase id pageContents
                       (searchOrder pageContents pageHint))
  /\ flaggedApproximate (findPhrase phrase id pageContents pageHint)
     = flaggedApproximate (searchPages phrase id pageContents
                                       (searchOrder pageContents pageHint)).
Proof.
  unfold findPhrase, flaggedApproximate.
  rewrite !value_bind, !console_bind. simpl. split; reflexivity.
Qed.

End Locator.

Lemma pageIndices_spec (pageContents : list (option Page.t)) :
  StronglySorted Z.lt (pageIndices pageContents)
  /\ forall i, In i (pageIndices pageContents)
               <-> (0 <= i < Z.of_nat (length pageContents))%Z.
Proof.
  unfold pageIndices. split.
  - generalize 0 as start.
    induction (length pageContents) as [|n IH]; intros start; simpl.
    + constructor.
    + constructor; [apply IH|].
      apply Forall_forall. intros z Hz.
      apply in_map_iff in Hz. destruct Hz as [k [<- Hk]].
      apply in_seq in Hk. lia.
  - intros i. rewrite in_map_iff. split.
    + intros [k [<- Hk]]. apply in_seq in Hk. lia.
    + intros Hi. exists (Z.to_nat i). split; [lia|]. apply in_seq. lia.
Qed.

Lemma StronglySorted_filter (f : Z -> bool) (l : list Z) :
  StronglySorted Z.lt l -> StronglySorted Z.lt (filter f l).
Proof.
  induction 1 as [|z l Hl IH Hz]; simpl; [constructor|].
  destruct (f z); [|exact IH].
  constructor; [exact IH|].
  apply Forall_forall. intros y Hy. apply filter_In in Hy.
  rewrite Forall_forall in Hz. now apply Hz.
Qed.

(** C6.  The pages are visited in ascending index order, the hinted page
    first when there is a hint, and the result is for the first visited
    index that qualifies.  So a hinted page that matches is the one
    reported, whatever lower-indexed pages match too. *)
Theorem findPhrase_visit_order (phrase id : jsstring)
        (pageContents : list (option Page.t)) :
  (StronglySorted Z.lt (searchOrder pageContents None)
   /\ forall i, In i (searchOrder pageContents None)
                <-> (0 <= i < Z.of_nat (length pageContents))%Z)
  /\ (forall hint,
         exists rest,
           searchOrder pageContents (Some hint) = hint :: rest
           /\ StronglySorted Z.lt rest
           /\ forall i, In i rest
                        <-> ((0 <= i < Z.of_nat (length pageContents))%Z
                             /\ i <> hint))
  /\ (forall pageHint before i after,
         searchOrder pageContents pageHint = before ++ i :: after ->
         Forall (fun j => qualifies phrase pageContents j = false) before ->
         qualifies phrase pageContents i = true ->
         exists h,
           value (findPhrase phrase id pageContents pageHint) = Some h
           /\ Highlight.pageIndex h = i)
  /\ (forall hint,
         qualifies phrase pageContents hint = true ->
         exists h,
           value (findPhrase phrase id pageContents (Some hint)) = Some h
           /\ Highlight.pageIndex h = hint).
Proof.
  assert (Hfirst : forall pageHint before i after,
             searchOrder pageContents pageHint = before ++ i :: after ->
             Forall (fun j => qualifies phrase pageContents j = false) before ->
             qualifies phrase pageContents i = true ->
             exists h,
               value (findPhrase phrase id pageContents pageHint) = Some h
               /\ Highlight.pageIndex h = i).
  { intros pageHint before i after Horder Hbefore Hi.
    destruct (qualifies_page _ _ _ Hi) as [pageContent [Hpage Hmatch]].
    exists (resultFor phrase id i pageContent).
    rewrite (proj1 (findPhrase_searchPages phrase id pageContents pageHint)).
    rewrite Horder. split; [|reflexivity].
    now apply searchPages_first. }
  split; [exact (pageIndices_spec pageContents)|].
  split; [|split; [exact Hfirst|]].
  - intros hint. eexists. split; [reflexivity|].
    destruct (pageIndices_spec pageContents) as [Hsorted Hin].
    split; [now apply StronglySorted_filter|].
    intros i. rewrite filter_In, Hin, negb_true_iff, Z.eqb_neq. reflexivity.
  - intros hint Hq.
    apply (Hfirst (Some hint) [] hint
                  (filter (fun i => negb (i =? hint)%Z) (pageIndices pageContents)));
      [reflexivity | constructor | exact Hq].
Qed.

(** C9.  When the first visited page that fuzzy-matches resolves to no
    rectangle, [findPhrase] still returns a result for that page, holding
    the one fixed placeholder rectangle, and the run is flagged by the
    fallback warning on the console; a result with resolved rectangles is
    never flagged. *)
Theorem findPhrase_fallback (phrase id : jsstring)
        (pageContents : list (option Page.t)) (pageHint : option Z)
        (before : list Z) (i : Z) (after : list Z) (pageContent : Page.t) :
  searchOrder pageContents pageHint = before ++ i :: after ->
  Forall (fun j => qualifies phrase pageContents j = false) before ->
  pageAt pageContents i = Some pageContent ->
  fuzzyMatch (Page.text pageContent) phrase = true ->
  let run := findPhrase phrase id pageContents pageHint in
  let rects := value (findTextRects phrase pageContent) in
  (rects = [] ->
   value run
   = Some (Highlight.mk id phrase i [Rect.mk 50 100 500 30] (Some yellow))
   /\ flaggedApproximate run = true
   /\ In (WarnFallback phrase (i + 1)) (console run))
  /\ (rects <> [] ->
      value run = Some (Highlight.mk id phrase i rects (Some yellow))
      /\ flaggedApproximate run = false).
Proof.
  intros Horder Hbefore Hpage Hmatch run rects. subst run rects.
  destruct (findPhrase_searchPages phrase id pageContents pageHint)
    as [Hvalue Hflag].
  destruct (searchPages_first phrase id pageContents before i after
                              pageContent Hbefore Hpage Hmatch) as [Hv Hf].
  rewrite <- Horder in Hv, Hf.
  rewrite Hvalue, Hflag, Hv, Hf. unfold resultFor.
  split.
  - intros Hnil. rewrite Hnil. repeat split.
    unfold findPhrase. rewrite !console_bind. do 2 (apply in_or_app; right).
    rewrite Horder.
    apply (proj2 (proj2 (searchPages_skip phrase id pageContents before (i :: after) Hbefore))).
    cbn [searchPages]. rewrite Hpage, Hmatch.
    rewrite !console_bind. do 3 (apply in_or_app; right).
    rewrite Hnil. cbn [length Nat.ltb Nat.leb].
    rewrite console_bind. left. reflexivity.
  - intros Hne.
    destruct (value (findTextRects phrase pageContent)) as [|r rects'];
      [contradiction|].
    split; reflexivity.
Qed.

(** C10.  A highlight returned by [findPhrase] has at least one rectangle
    and the index of a page present in the input; the only other outcome
    is the not-found value, returned exactly when no visited index
    qualifies. *)
Theorem findPhrase_result_wellformed (phrase id : jsstring)
        (pageContents : list (option Page.t)) (pageHint : option Z) :
  let run := findPhrase phrase id pageContents pageHint in
  (forall h,
      value run = Some h ->
      Highlight.rects h <> []
      /\ (0 <= Highlight.pageIndex h < Z.of_nat (length pageContents))%Z
      /\ (exists pageContent,
             nth_error pageContents (Z.to_nat (Highlight.pageIndex h))
             = Some (Some pageContent))
      /\ Highlight.id h = id /\ Highlight.phrase h = phrase)
  /\ (value run = None <->
      Forall (fun i => qualifies phrase pageContents i = false)
             (searchOrder pageContents pageHint)).
Proof.
  intros run. subst run.
  rewrite (proj1 (findPhrase_searchPages phrase id pageContents pageHint)).
  destruct (first_qualifying phrase pageContents
                             (searchOrder pageContents pageHint))
    as [Hnone | (before & i & after & Horder & Hbefore & Hi)].
  - rewrite (searchPages_none phrase id pageContents _ Hnone).
    split; [discriminate | tauto].
  - destruct (qualifies_page _ _ _ Hi) as [pageContent [Hpage Hmatch]].
    rewrite Horder.
    rewrite (proj1 (searchPages_first phrase id pageContents before i
                                      after pageContent Hbefore Hpage Hmatch)).
    split.
    + intros h [= <-]. unfold resultFor. cbn [Highlight.rects Highlight.pageIndex
                                               Highlight.id Highlight.phrase].
      destruct (pageAt_inside _ _ _ Hpage) as [Hrange Hnth].
      repeat split; try lia; [|now exists pageContent].
      destruct (value (findTextRects phrase pageContent)); simpl; discriminate.
    + split; [discriminate|].
      intros Hall. apply Forall_app in Hall. destruct Hall as [_ Hall].
      inversion Hall; subst. congruence.
Qed.

Lemma findPhrase_visit_order_witness :
  qualifies (lit "Revenue 12.8")
            [Some (revenuePage 0); Some (revenuePage 1)] 0 = true
  /\ exists h,
      value (findPhrase (lit "Revenue 12.8") (lit "ref-1")
                        [Some (revenuePage 0); Some (revenuePage 1)] (Some 1%Z))
      = Some h
      /\ Highlight.pageIndex h = 1%Z.
Proof.
  split; [vm_compute; reflexivity|].
  apply (proj2 (proj2 (proj2
           (findPhrase_visit_order (lit "Revenue 12.8") (lit "ref-1")
              [Some (revenuePage 0); Some (revenuePage 1)])))).
  vm_compute. reflexivity.
Defined.

Lemma findPhrase_fallback_witness :
  value (findPhrase (lit "Revenue growth 12.8") (lit "ref-2") [Some barePage] None)
  = Some (Highlight.mk (lit "ref-2") (lit "Revenue growth 12.8") 0
                       [Rect.mk 50 100 500 30] (Some yellow))
  /\ flaggedApproximate
       (findPhrase (lit "Revenue growth 12.8") (lit "ref-2") [Some barePage] None)
     = true.
Proof.
  assert (Horder : searchOrder [Some barePage] None = [] ++ 0%Z :: [])
    by reflexivity.
  assert (Hbefore : Forall (fun j => qualifies (lit "Revenue growth 12.8")
                                               [Some barePage] j = false) [])
    by constructor.
  assert (Hpage : pageAt [Some barePage] 0 = Some barePage) by reflexivity.
  assert (Hmatch : fuzzyMatch (Page.text barePage) (lit "Revenue growth 12.8")
                   = true) by (vm_compute; reflexivity).
  destruct (findPhrase_fallback (lit "Revenue growth 12.8") (lit "ref-2")
              [Some barePage] None [] 0 [] barePage
              Horder Hbefore Hpage Hmatch) as [Hfallback _].
  assert (Hnone : value (findTextRects (lit "Revenue growth 12.8") barePage) = [])
    by (vm_compute; reflexivity).
  destruct (Hfallback Hnone) as (Hvalue & Hflag & _).
  split; assumption.
Defined.

Lemma findPhrase_result_wellformed_witness :
  exists h,
    value (findPhrase (lit "Revenue 12.8") (lit "ref-1")
                      [None; Some (revenuePage 1)] None)
    = Some h
    /\ Highlight.rects h <> []
    /\ Highlight.pageIndex h = 1%Z.
Proof.
  eexists. split; [vm_compute; reflexivity|].
  split; [|reflexivity].
  apply (proj1 (findPhrase_result_wellformed
                  (lit "Revenue 12.8") (lit "ref-1")
                  [None; Some (revenuePage 1)] None)).
  vm_compute. reflexivity.
Defined.

(* ================================================================== *)
(** * The highlight store                                              *)
(* ================================================================== *)

Section StoreFacts.

Lemma eqb_eq (a b : jsstring) : JsString.eqb a b = true <-> a = b.
Proof.
  unfold JsString.eqb. destruct (list_eq_dec ascii_dec a b); split;
    congruence.
Qed.

Lemma otherId_true id h : Store.otherId id h = true <-> Highlight.id h <> id.
Proof.
  unfold Store.otherId. rewrite negb_true_iff, <- not_true_iff_false, eqb_eq.
  reflexivity.
Qed.

Lemma filter_otherId_absent id (l : list Highlight.t) :
  (forall h, In h l -> Highlight.id h <> id) ->
  filter (Store.otherId id) l = l.
Proof.
  induction l as [|h l IH]; intros H; [reflexivity|].
  cbn [filter]. rewrite (proj2 (otherId_true id h) (H h (or_introl eq_refl))).
  f_equal. apply IH. intros h' Hin. apply H. now right.
Qed.

Lemma filter_otherId_ids id (l : list Highlight.t) :
  NoDup (map Highlight.id l) ->
  NoDup (map Highlight.id (filter (Store.otherId id) l))
  /\ ~ In id (map Highlight.id (filter (Store.otherId id) l)).
Proof.
  intros Hnd. split.
  - induction l as [|h l IH]; [constructor|].
    inversion Hnd as [|? ? Hnotin Hnd']; subst.
    cbn [filter]. destruct (Store.otherId id h); [|now apply IH].
    cbn [map]. constructor; [|now apply IH].
    intros Hin. apply Hnotin. apply in_map_iff in Hin.
    destruct Hin as [h' [E Hin]]. apply filter_In in Hin.
    apply in_map_iff. exists h'. tauto.
  - intros Hin. apply in_map_iff in Hin. destruct Hin as [h [E Hin]].
    apply filter_In in Hin. destruct Hin as [_ Hother].
    apply otherId_true in Hother. contradiction.
Qed.

Lemma NoDup_snoc (A : Type) (l : list A) a :
  NoDup l -> ~ In a l -> NoDup (l ++ [a]).
Proof.
  induction 1 as [|x l Hx Hnd IH]; intros Ha; cbn [app].
  - constructor; [intros [] | constructor].
  - constructor.
    + rewrite in_app_iff. cbn [In]. intros [Hin | [E | []]]; [contradiction|].
      apply Ha. now left.
    + apply IH. intros Hin. apply Ha. now right.
Qed.

End StoreFacts.

(** X1.  The store never holds two highlights with one id: the empty
    store does not, and each of the four actions keeps it so. *)
Theorem store_ids_unique (state : Store.t) (highlight : Highlight.t)
        (id : jsstring) (active : option jsstring) :
  NoDup (map Highlight.id (Store.highlights state)) ->
  NoDup (map Highlight.id (Store.highlights Store.initial))
  /\ NoDup (map Highlight.id
                (Store.highlights (Store.addHighlight highlight state)))
  /\ NoDup (map Highlight.id
                (Store.highlights (Store.removeHighlight id state)))
  /\ NoDup (map Highlight.id
                (Store.highlights (Store.clearHighlights state)))
  /\ NoDup (map Highlight.id
                (Store.highlights (Store.setActiveReference active state))).
Proof.
  intros Hnd. split; [constructor|]. split; [|split; [|split]].
  - cbn [Store.addHighlight Store.highlights].
    destruct (filter_otherId_ids (Highlight.id highlight) _ Hnd) as [H1 H2].
    rewrite map_app. cbn [map]. now apply NoDup_snoc.
  - cbn [Store.removeHighlight Store.highlights].
    apply (filter_otherId_ids id _ Hnd).
  - constructor.
  - exact Hnd.
Qed.

Lemma store_ids_unique_witness :
  NoDup (map Highlight.id
             (Store.highlights
                (Store.addHighlight
                   (Highlight.mk (lit "ref-1") (lit "Revenue 12.8") 0
                                 [placeholder] (Some yellow))
                   (Store.addHighlight
                      (Highlight.mk (lit "ref-1") (lit "Revenue") 3
                                    [placeholder] None)
                      Store.initial)))).
Proof.
  apply (store_ids_unique
           (Store.addHighlight
              (Highlight.mk (lit "ref-1") (lit "Revenue") 3 [placeholder] None)
              Store.initial)
           (Highlight.mk (lit "ref-1") (lit "Revenue 12.8") 0
                         [placeholder] (Some yellow))
           (lit "ref-1") None).
  vm_compute. repeat constructor. intros [].
Defined.

(** X2.  Adding a highlight makes it the active reference and the only
    highlight of its id, the last of the list; the highlights of other
    ids stay.  So of two additions under one id the later one wins, and
    adding twice is adding once. *)
Theorem store_add_replaces (state : Store.t) (h1 h2 : Highlight.t) :
  let added := Store.addHighlight h2 state in
  Store.activeReferenceId added = Some (Highlight.id h2)
  /\ last (Store.highlights added) h1 = h2
  /\ (forall h, In h (Store.highlights added) ->
                Highlight.id h = Highlight.id h2 -> h = h2)
  /\ (forall h, Highlight.id h <> Highlight.id h2 ->
                (In h (Store.highlights added)
                 <-> In h (Store.highlights state)))
  /\ (Highlight.id h1 = Highlight.id h2 ->
      Store.addHighlight h2 (Store.addHighlight h1 state) = added)
  /\ Store.addHighlight h2 added = added.
Proof.
  assert (Hreplace : forall h, Highlight.id h = Highlight.id h2 ->
            Store.addHighlight h2 (Store.addHighlight h state)
            = Store.addHighlight h2 state).
  { intros h E. unfold Store.addHighlight. cbn [Store.highlights].
    f_equal. f_equal. rewrite filter_app. cbn [filter].
    replace (Store.otherId (Highlight.id h2) h) with false.
    - rewrite app_nil_r, E. clear E.
      induction (Store.highlights state) as [|x l IH]; [reflexivity|].
      cbn [filter]. destruct (Store.otherId (Highlight.id h2) x) eqn:Ex;
        [|exact IH].
      cbn [filter]. rewrite Ex. now f_equal.
    - symmetry. apply not_true_iff_false. rewrite otherId_true. tauto. }
  cbn zeta. split; [reflexivity|]. split; [apply last_last|].
  split; [|split; [|split]].
  - intros h Hin E. cbn [Store.addHighlight Store.highlights] in Hin.
    apply in_app_or in Hin. destruct Hin as [Hin | [<- | []]]; [|reflexivity].
    apply filter_In in Hin. destruct Hin as [_ Hother].
    apply otherId_true in Hother. contradiction.
  - intros h Hne. cbn [Store.addHighlight Store.highlights].
    rewrite in_app_iff, filter_In, otherId_true. cbn [In]. split.
    + intros [[Hin _] | [<- | []]]; [exact Hin | contradiction].
    + intros Hin. left. now split.
  - intros E. now apply Hreplace.
  - now apply Hreplace.
Qed.

(** X3.  Removing by id takes away every highlight of that id and no
    other, and clears the active reference exactly when it was that id;
    removing right after adding, in a store that did not know the id,
    gives the highlights back as they were. *)
Theorem store_remove_after_add (state : Store.t) (h : Highlight.t)
        (id : jsstring) :
  (forall h', In h' (Store.highlights (Store.removeHighlight id state))
              <-> In h' (Store.highlights state) /\ Highlight.id h' <> id)
  /\ Store.activeReferenceId (Store.removeHighlight id state) <> Some id
  /\ (Store.activeReferenceId state <> Some id ->
      Store.activeReferenceId (Store.removeHighlight id state)
      = Store.activeReferenceId state)
  /\ ((forall h', In h' (Store.highlights state) ->
                  Highlight.id h' <> Highlight.id h) ->
      Store.removeHighlight (Highlight.id h) (Store.addHighlight h state)
      = Store.mk (Store.highlights state) None).
Proof.
  split; [|split; [|split]].
  - intros h'. cbn [Store.removeHighlight Store.highlights].
    rewrite filter_In, otherId_true. reflexivity.
  - cbn [Store.removeHighlight Store.activeReferenceId].
    destruct (Store.activeReferenceId state) as [active|]; [|discriminate].
    destruct (JsString.eqb active id) eqn:E; [discriminate|].
    intros [= ->]. apply not_true_iff_false in E. apply E. now apply eqb_eq.
  - intros Hne. cbn [Store.removeHighlight Store.activeReferenceId].
    destruct (Store.activeReferenceId state) as [active|]; [|reflexivity].
    destruct (JsString.eqb active id) eqn:E; [|reflexivity].
    apply eqb_eq in E. subst. contradiction.
  - intros Hnew. unfold Store.removeHighlight, Store.addHighlight.
    cbn [Store.highlights Store.activeReferenceId].
    rewrite (proj2 (eqb_eq _ _) eq_refl). f_equal.
    rewrite filter_app. cbn [filter].
    replace (Store.otherId (Highlight.id h) h) with false.
    + rewrite app_nil_r.
      rewrite (filter_otherId_absent _ _ Hnew).
      now apply filter_otherId_absent.
    + symmetry. apply not_true_iff_false. rewrite otherId_true. tauto.
Qed.

Lemma store_remove_after_add_witness :
  Store.removeHighlight
    (lit "ref-2")
    (Store.addHighlight
       (Highlight.mk (lit "ref-2") (lit "EBITDA 3.2") 0 [placeholder] None)
       (Store.addHighlight
          (Highlight.mk (lit "ref-1") (lit "Revenue 12.8") 0
                        [placeholder] None)
          Store.initial))
  = Store.mk [Highlight.mk (lit "ref-1") (lit "Revenue 12.8") 0
                           [placeholder] None]
             None.
Proof.
  apply (proj2 (proj2 (proj2
           (store_remove_after_add
              (Store.addHighlight
                 (Highlight.mk (lit "ref-1") (lit "Revenue 12.8") 0
                               [placeholder] None)
                 Store.initial)
              (Highlight.mk (lit "ref-2") (lit "EBITDA 3.2") 0
                            [placeholder] None)
              (lit "ref-2"))))).
  intros h' [<- | []]. vm_compute. discriminate.
Defined.

Lemma store_add_replaces_witness :
  Store.addHighlight
    (Highlight.mk (lit "ref-1") (lit "Revenue 12.8") 0 [placeholder] None)
    (Store.addHighlight
       (Highlight.mk (lit "ref-1") (lit "Revenue") 3 [placeholder] None)
       Store.initial)
  = Store.addHighlight
      (Highlight.mk (lit "ref-1") (lit "Revenue 12.8") 0 [placeholder] None)
      Store.initial.
Proof.
  apply (proj1 (proj2 (proj2 (proj2 (proj2
           (store_add_replaces
              Store.initial
              (Highlight.mk (lit "ref-1") (lit "Revenue") 3 [placeholder] None)
              (Highlight.mk (lit "ref-1") (lit "Revenue 12.8") 0
                            [placeholder] None))))))).
  reflexivity.
Defined.

(* ================================================================== *)
(** * The rectangle merger, in general                                 *)
(* ================================================================== *)

Section MergeFacts.

Lemma insert_perm (A : Type) (compareFn : A -> A -> Q) a l :
  Permutation (insert compareFn a l) (a :: l).
Proof.
  induction l as [|b l IH]; cbn [insert]; [reflexivity|].
  destruct (Qle_bool (compareFn a b) 0); [reflexivity|].
  rewrite IH. apply perm_swap.
Qed.

(** Sorting loses and invents nothing. *)
Lemma sort_perm (A : Type) (compareFn : A -> A -> Q) l :
  Permutation (sort compareFn l) l.
Proof.
  induction l as [|a l IH]; [reflexivity|].
  cbn [sort fold_right]. fold (sort compareFn l).
  rewrite insert_perm. now constructor.
Qed.

Lemma mergeLoop_length current rest :
  1 <= length (mergeLoop current rest) <= S (length rest).
Proof.
  revert current. induction rest as [|next rest IH]; intros current.
  - cbn. lia.
  - cbn [mergeLoop length]. destruct (_ && _).
    + specialize (IH (Rect.mk
                        (Qmin (Rect.x current) (Rect.x next))
                        (Qmin (Rect.y current) (Rect.y next))
                        (Qmax (Rect.x current + Rect.width current)
                              (Rect.x next + Rect.width next)
                         - Qmin (Rect.x current) (Rect.x next))
                        (Qmax (Rect.height current) (Rect.height next)))).
      lia.
    + cbn [length]. specialize (IH next). lia.
Qed.

Lemma covers_refl r : covers r r.
Proof. unfold covers. repeat split; apply Qle_refl. Qed.

Lemma covers_trans a b c : covers a b -> covers b c -> covers a c.
Proof.
  unfold covers. intros (H1 & H2 & H3 & H4) (K1 & K2 & K3 & K4).
  repeat split; eapply Qle_trans; eassumption.
Qed.

(** The rectangle a merge makes covers the two it was made of. *)
Lemma merged_covers current next :
  let merged :=
    Rect.mk (Qmin (Rect.x current) (Rect.x next))
            (Qmin (Rect.y current) (Rect.y next))
            (Qmax (Rect.x current + Rect.width current)
                  (Rect.x next + Rect.width next)
             - Qmin (Rect.x current) (Rect.x next))
            (Qmax (Rect.height current) (Rect.height next)) in
  covers merged current /\ covers merged next.
Proof.
  cbn zeta. unfold covers. cbn [Rect.x Rect.y Rect.width Rect.height].
  set (rightEdge := Qmax (Rect.x current + Rect.width current)
                         (Rect.x next + Rect.width next)).
  set (left := Qmin (Rect.x current) (Rect.x next)).
  assert (E : (left + (rightEdge - left) == rightEdge)%Q) by ring.
  repeat split; try rewrite E;
    first [apply Q.le_min_l | apply Q.le_min_r
           | apply Q.le_max_l | apply Q.le_max_r].
Qed.

Lemma mergeLoop_covers current rest inner :
  covers current inner \/ In inner rest ->
  exists outer, In outer (mergeLoop current rest) /\ covers outer inner.
Proof.
  revert current. induction rest as [|next rest IH]; intros current H.
  - destruct H as [H | []]. exists current. split; [now left | exact H].
  - cbn [mergeLoop]. destruct (_ && _).
    + apply IH.
      destruct (merged_covers current next) as [Hc Hn].
      destruct H as [H | [<- | H]].
      * left. now apply covers_trans with current.
      * left. exact Hn.
      * now right.
    + destruct H as [H | [<- | H]].
      * exists current. split; [now left | exact H].
      * destruct (IH next (or_introl (covers_refl next))) as [outer [Ho Hc]].
        exists outer. split; [now right | exact Hc].
      * destruct (IH next (or_intror H)) as [outer [Ho Hc]].
        exists outer. split; [now right | exact Hc].
Qed.

Lemma byYthenX_le a b :
  Qle_bool (byYthenX a b) 0 = true -> (Rect.y a <= Rect.y b)%Q.
Proof.
  unfold byYthenX. destruct (Qeq_bool (Rect.y a - Rect.y b) 0) eqn:E.
  - intros _. apply Qeq_bool_iff in E. lra.
  - rewrite Qle_bool_iff. lra.
Qed.

Lemma byYthenX_gt a b :
  Qle_bool (byYthenX a b) 0 = false -> (Rect.y b <= Rect.y a)%Q.
Proof.
  unfold byYthenX. destruct (Qeq_bool (Rect.y a - Rect.y b) 0) eqn:E.
  - intros _. apply Qeq_bool_iff in E. lra.
  - intros H. apply not_true_iff_false in H. rewrite Qle_bool_iff in H. lra.
Qed.

Lemma insert_sorted a l :
  StronglySorted (fun p q => (Rect.y p <= Rect.y q)%Q) l ->
  StronglySorted (fun p q => (Rect.y p <= Rect.y q)%Q) (insert byYthenX a l).
Proof.
  induction 1 as [|b l Hl IH Hb]; cbn [insert].
  - constructor; constructor.
  - destruct (Qle_bool (byYthenX a b) 0) eqn:E.
    + apply byYthenX_le in E. constructor; [now constructor|].
      constructor; [exact E|].
      eapply Forall_impl; [|exact Hb]. cbn. intros c Hc. lra.
    + apply byYthenX_gt in E. constructor; [exact IH|].
      apply Forall_forall. intros c Hc.
      apply (Permutation_in _ (insert_perm _ byYthenX a l)) in Hc.
      destruct Hc as [<- | Hc]; [exact E|].
      rewrite Forall_forall in Hb. now apply Hb.
Qed.

Lemma sort_sorted l :
  StronglySorted (fun p q => (Rect.y p <= Rect.y q)%Q) (sort byYthenX l).
Proof.
  induction l as [|a l IH]; [constructor|].
  cbn [sort fold_right]. now apply insert_sorted.
Qed.

Lemma mergeLoop_above (bound : Q) current rest :
  Forall (fun r => (bound <= Rect.y r)%Q) (current :: rest) ->
  Forall (fun r => (bound <= Rect.y r)%Q) (mergeLoop current rest).
Proof.
  revert current. induction rest as [|next rest IH]; intros current H.
  - exact H.
  - inversion H as [|? ? Hc Hrest]; subst.
    inversion Hrest as [|? ? Hn Hrest']; subst.
    cbn [mergeLoop]. destruct (_ && _).
    + apply IH. constructor; [|exact Hrest'].
      cbn [Rect.y]. now apply Q.min_glb.
    + constructor; [exact Hc|]. apply IH. exact Hrest.
Qed.

Lemma mergeLoop_sorted current rest :
  StronglySorted (fun p q => (Rect.y p <= Rect.y q)%Q) (current :: rest) ->
  StronglySorted (fun p q => (Rect.y p <= Rect.y q)%Q)
                 (mergeLoop current rest).
Proof.
  revert current. induction rest as [|next rest IH]; intros current H.
  - exact H.
  - inversion H as [|? ? Hs Hc]; subst.
    inversion Hs as [|? ? Hs' Hn]; subst.
    inversion Hc as [|? ? Hcn Hcr]; subst.
    cbn [mergeLoop]. destruct (_ && _).
    + apply IH. constructor; [exact Hs'|].
      eapply Forall_impl; [|exact Hn]. cbn [Rect.y]. intros r Hr.
      eapply Qle_trans; [apply Q.le_min_r | exact Hr].
    + constructor; [now apply IH|].
      apply mergeLoop_above. exact Hc.
Qed.

Lemma mergeRects_length rects : length (mergeRects rects) <= length rects.
Proof.
  unfold mergeRects. destruct (length rects <=? 1); [lia|].
  pose proof (Permutation_length (sort_perm _ byYthenX rects)) as Hlen.
  destruct (sort byYthenX rects) as [|first rest]; [simpl; lia|].
  pose proof (mergeLoop_length first rest) as Hm. cbn [length] in Hlen. lia.
Qed.

End MergeFacts.

(** X4.  Merging never gives more rectangles than it was given, and
    gives none only when it was given none. *)
Theorem mergeRects_count (rects : list Rect.t) :
  length (mergeRects rects) <= length rects
  /\ (mergeRects rects = [] <-> rects = []).
Proof.
  unfold mergeRects. destruct (length rects <=? 1) eqn:E.
  - split; [lia | reflexivity].
  - apply Nat.leb_gt in E.
    pose proof (Permutation_length (sort_perm _ byYthenX rects)) as Hlen.
    destruct (sort byYthenX rects) as [|first rest]; [simpl in Hlen; lia|].
    pose proof (mergeLoop_length first rest) as Hm. cbn [length] in Hlen.
    split; [lia|]. split.
    + intros H. rewrite H in Hm. simpl in Hm. lia.
    + intros ->. simpl in E. lia.
Qed.

(** X5.  Every rectangle given to the merger is taken up by one of those
    it returns: one that starts as far left, starts no higher in y and is
    at least as high.  These three fields come from [Math.min] and
    [Math.max] alone.  The width comes from sums and a difference, which
    double arithmetic rounds; when position and width of every rectangle
    given are whole numbers of magnitude at most 2^25, where nothing is
    rounded, the returned rectangle also reaches as far right. *)
Theorem mergeRects_covers (rects : list Rect.t) (inner : Rect.t) :
  In inner rects ->
  exists outer,
    In outer (mergeRects rects)
    /\ (Rect.x outer <= Rect.x inner)%Q
    /\ (Rect.y outer <= Rect.y inner)%Q
    /\ (Rect.height inner <= Rect.height outer)%Q
    /\ (forallb wholeRect rects = true ->
        (Rect.x inner + Rect.width inner
         <= Rect.x outer + Rect.width outer)%Q).
Proof.
  intros Hin.
  assert (H : exists outer, In outer (mergeRects rects) /\ covers outer inner).
  { unfold mergeRects. destruct (length rects <=? 1).
    - exists inner. split; [exact Hin | apply covers_refl].
    - apply (Permutation_in _ (Permutation_sym (sort_perm _ byYthenX rects)))
        in Hin.
      destruct (sort byYthenX rects) as [|first rest]; [destruct Hin|].
      apply mergeLoop_covers. destruct Hin as [<- | Hin].
      + left. apply covers_refl.
      + now right. }
  destruct H as (outer & Hout & Hx & Hright & Hy & Hheight).
  exists outer. repeat split; trivial.
Qed.

Lemma mergeRects_covers_witness :
  exists outer,
    In outer (mergeRects [Rect.mk 55 101 45 12; Rect.mk 0 100 50 10;
                          Rect.mk 0 200 30 12])
    /\ (Rect.x outer <= 55)%Q /\ (Rect.y outer <= 101)%Q
    /\ (12 <= Rect.height outer)%Q
    /\ (55 + 45 <= Rect.x outer + Rect.width outer)%Q.
Proof.
  destruct (mergeRects_covers [Rect.mk 55 101 45 12; Rect.mk 0 100 50 10;
                               Rect.mk 0 200 30 12]
                              (Rect.mk 55 101 45 12))
    as (outer & Hin & Hx & Hy & Hheight & Hright).
  - simpl. tauto.
  - exists outer. repeat split; trivial. apply Hright. reflexivity.
Defined.

(** X6.  Two or more rectangles come back ordered by ascending y. *)
Theorem mergeRects_ordered (rects : list Rect.t) :
  2 <= length rects ->
  StronglySorted (fun p q => (Rect.y p <= Rect.y q)%Q) (mergeRects rects).
Proof.
  intros Hlen. unfold mergeRects.
  destruct (Nat.leb_spec (length rects) 1) as [H | _]; [lia|].
  pose proof (sort_sorted rects) as Hs.
  destruct (sort byYthenX rects) as [|first rest]; [constructor|].
  now apply mergeLoop_sorted.
Qed.

Lemma mergeRects_ordered_witness :
  StronglySorted (fun p q => (Rect.y p <= Rect.y q)%Q)
                 (mergeRects [Rect.mk 0 200 30 12; Rect.mk 55 101 45 12;
                              Rect.mk 0 100 50 10]).
Proof.
  apply (mergeRects_ordered [Rect.mk 0 200 30 12; Rect.mk 55 101 45 12;
                             Rect.mk 0 100 50 10]).
  simpl. lia.
Defined.

(* ================================================================== *)
(** * The span resolver, in general                                    *)
(* ================================================================== *)

Section ResolverFacts.

Lemma repeat_sorted k n (m : list nat) :
  StronglySorted le m -> Forall (le k) m ->
  StronglySorted le (repeat k n ++ m).
Proof.
  intros Hs Hk. induction n as [|n IH]; [exact Hs|].
  cbn [repeat app]. constructor; [exact IH|].
  apply Forall_app. split; [|exact Hk].
  apply Forall_forall. intros x Hx. apply repeat_spec in Hx. lia.
Qed.

Lemma buildFullText_invariant itemIndex items :
  let (fullText, charToItemMap) := buildFullText itemIndex items in
  length charToItemMap = length fullText
  /\ StronglySorted le charToItemMap
  /\ Forall (fun i => itemIndex <= i < itemIndex + length items) charToItemMap.
Proof.
  revert itemIndex. induction items as [|item rest IH]; intros itemIndex.
  - cbn. repeat split; constructor.
  - cbn [buildFullText]. specialize (IH (S itemIndex)).
    destruct (buildFullText (S itemIndex) rest) as [fullText charToItemMap].
    destruct IH as (Hlen & Hsorted & Hrange).
    set (separator := match rest with
                      | [] => []
                      | nextItem :: _ =>
                          if negb (endsWith (TextItem.str item) (lit " "))
                             && negb (startsWith (TextItem.str nextItem) (lit " "))
                          then lit " " else []
                      end).
    split; [|split].
    + rewrite !length_app, !repeat_length. lia.
    + assert (Hge : Forall (le itemIndex) charToItemMap).
      { eapply Forall_impl; [|exact Hrange]. cbn. intros; lia. }
      apply repeat_sorted.
      * now apply repeat_sorted.
      * apply Forall_app. split; [|exact Hge].
        apply Forall_forall. intros x Hx. apply repeat_spec in Hx. lia.
    + cbn [length]. rewrite !Forall_app. repeat split.
      * apply Forall_forall. intros x Hx. apply repeat_spec in Hx. lia.
      * apply Forall_forall. intros x Hx. apply repeat_spec in Hx. lia.
      * eapply Forall_impl; [|exact Hrange]. cbn. intros; lia.
Qed.

Lemma setAdd_spec set v :
  NoDup set ->
  NoDup (setAdd set v) /\ forall x, In x (setAdd set v) <-> In x set \/ x = v.
Proof.
  intros Hnd. unfold setAdd. destruct (existsb (Nat.eqb v) set) eqn:E.
  - split; [exact Hnd|]. intros x. split; [tauto|].
    intros [H | ->]; [exact H|].
    apply existsb_exists in E. destruct E as [y [Hy Ey]].
    apply Nat.eqb_eq in Ey. now subst.
  - split.
    + apply NoDup_snoc; [exact Hnd|]. intros Hin.
      apply not_true_iff_false in E. apply E. apply existsb_exists.
      exists v. split; [exact Hin | apply Nat.eqb_refl].
    + intros x. rewrite in_app_iff. cbn [In]. intuition congruence.
Qed.

Lemma fold_setAdd_spec l set :
  NoDup set ->
  NoDup (fold_left setAdd l set)
  /\ forall x, In x (fold_left setAdd l set) <-> In x set \/ In x l.
Proof.
  revert set. induction l as [|v l IH]; intros set Hnd.
  - split; [exact Hnd|]. intros x. cbn. tauto.
  - cbn [fold_left]. destruct (setAdd_spec set v Hnd) as [Hnd' Hin'].
    destruct (IH _ Hnd') as [H1 H2]. split; [exact H1|].
    intros x. rewrite H2, Hin'. cbn [In]. intuition congruence.
Qed.

Lemma In_firstn_skipn_sub (A : Type) n k (l : list A) x :
  In x (firstn n (skipn k l)) -> In x l.
Proof.
  intros H. rewrite <- (firstn_skipn k l). apply in_or_app. right.
  rewrite <- (firstn_skipn n (skipn k l)). apply in_or_app. now left.
Qed.

(** The set of touched items has no repetition and holds only owners of
    characters. *)
Lemma collectItems_spec charToItemMap originalStart originalEnd :
  NoDup (collectItems charToItemMap originalStart originalEnd)
  /\ incl (collectItems charToItemMap originalStart originalEnd) charToItemMap.
Proof.
  unfold collectItems.
  destruct originalStart as [a|], originalEnd as [b|];
    try (split; [constructor | intros x []]).
  destruct (fold_setAdd_spec
              (firstn (Z.to_nat (Z.min b (Z.of_nat (length charToItemMap)) - a))
                      (skipn (Z.to_nat a) charToItemMap))
              [] (NoDup_nil nat)) as [H1 H2].
  split; [exact H1|]. intros x Hx. apply H2 in Hx.
  destruct Hx as [[] | Hx].
  apply (In_firstn_skipn_sub _ _ _ _ _ Hx).
Qed.

Lemma matchingItemIndices_collected phrase items touched :
  value (matchingItemIndices phrase items) = Some touched ->
  exists originalStart originalEnd,
    touched = collectItems (snd (buildFullText 0 items))
                           originalStart originalEnd.
Proof.
  unfold matchingItemIndices.
  destruct (buildFullText 0 items) as [fullText charToItemMap].
  rewrite value_bind.
  destruct (value (locateSpan _ _)) as [[startIndex searchLength]|].
  - cbn [value ret snd]. intros H. apply Some_inj in H.
    eexists _, _. symmetry. exact H.
  - rewrite value_bind. cbn [value ret snd]. discriminate.
Qed.

End ResolverFacts.

Section ResolverBounds.

Lemma buildFullText_owned itemIndex items j item :
  nth_error items j = Some item ->
  let owned :=
    count_occ Nat.eq_dec (snd (buildFullText itemIndex items)) (itemIndex + j) in
  length (TextItem.str item) <= owned <= S (length (TextItem.str item)).
Proof.
  revert itemIndex j. induction items as [|first rest IH]; intros itemIndex j.
  - destruct j; discriminate.
  - cbn [buildFullText].
    pose proof (buildFullText_invariant (S itemIndex) rest) as Hinv.
    specialize (IH (S itemIndex)).
    destruct (buildFullText (S itemIndex) rest) as [fullText charToItemMap].
    destruct Hinv as (_ & _ & Hrange). cbn [snd] in *.
    set (separator := match rest with
                      | [] => []
                      | nextItem :: _ =>
                          if negb (endsWith (TextItem.str first) (lit " "))
                             && negb (startsWith (TextItem.str nextItem) (lit " "))
                          then lit " " else []
                      end).
    assert (Hsep : length separator <= 1).
    { unfold separator. destruct rest; [simpl; lia|].
      destruct (_ && _); simpl; lia. }
    rewrite !count_occ_app.
    destruct j as [|j]; cbn [nth_error].
    + intros [= <-]. rewrite Nat.add_0_r.
      rewrite !count_occ_repeat_eq by reflexivity.
      replace (count_occ Nat.eq_dec charToItemMap itemIndex) with 0; [lia|].
      symmetry. apply count_occ_not_In. intros Hin.
      rewrite Forall_forall in Hrange. specialize (Hrange _ Hin). lia.
    + intros Hnth. rewrite !count_occ_repeat_neq by lia.
      replace (itemIndex + S j) with (S itemIndex + j) by lia.
      apply (IH j Hnth).
Qed.

Lemma length_items_of (items : list TextItem.t) (indices : list nat) :
  length (flat_map (fun index =>
                      match nth_error items index with
                      | Some item => [item]
                      | None => []
                      end) indices)
  <= length indices.
Proof.
  induction indices as [|i l IH]; [reflexivity|].
  cbn [flat_map]. rewrite length_app. cbn [length].
  destruct (nth_error items i); simpl; lia.
Qed.

Lemma touched_bound phrase items touched :
  value (matchingItemIndices phrase items) = Some touched ->
  NoDup touched /\ Forall (fun i => i < length items) touched.
Proof.
  intros H. destruct (matchingItemIndices_collected _ _ _ H) as (a & b & ->).
  destruct (collectItems_spec (snd (buildFullText 0 items)) a b) as [Hnd Hincl].
  split; [exact Hnd|].
  pose proof (buildFullText_invariant 0 items) as Hinv.
  destruct (buildFullText 0 items) as [fullText charToItemMap].
  destruct Hinv as (_ & _ & Hrange). cbn [snd] in *.
  apply Forall_forall. intros i Hi. apply Hincl in Hi.
  rewrite Forall_forall in Hrange. specialize (Hrange _ Hi). lia.
Qed.

(** Rounding to doubles: the doubles written [0.1] and [0.7], whole
    numbers unchanged, and a tie going to the even significand. *)
Lemma roundDouble_examples :
  roundDouble (1 # 10) = (3602879701896397 # 36028797018963968)%Q
  /\ roundDouble (7 # 10) = (3152519739159347 # 4503599627370496)%Q
  /\ roundDouble 100 = 100%Q
  /\ roundDouble (-(5)) = (-(5))%Q
  /\ roundDouble (inject_Z (2 ^ 53 + 1)) = inject_Z (2 ^ 53)
  /\ roundDouble (inject_Z (2 ^ 53 + 3)) = inject_Z (2 ^ 53 + 4).
Proof. repeat split; vm_compute; reflexivity. Qed.

(** The offsets are those of double arithmetic: 15/11 is rounded down,
    and 11 times the rounded quotient stays below 15. *)
Lemma normalizedToOriginal_rounds :
  let fullText := lit "Net     income5" in
  len fullText = 15%Z
  /\ normalizeForMatching fullText = lit "net income5"
  /\ normalizedToOriginal fullText (normalizeForMatching fullText) 11
     = Some 14%Z.
Proof. repeat split; vm_compute; reflexivity. Qed.

Lemma includes_nil s : includes s [] = true.
Proof. destruct s; reflexivity. Qed.

Lemma indexOf_nil s : indexOf s [] = 0%Z.
Proof. destruct s; reflexivity. Qed.

Lemma collectItems_empty charToItemMap offset :
  collectItems charToItemMap offset offset = [].
Proof.
  unfold collectItems. destruct offset as [a|]; [|reflexivity].
  replace (Z.to_nat (Z.min a (Z.of_nat (length charToItemMap)) - a)) with 0
    by lia.
  reflexivity.
Qed.

Lemma findTextRects_blank phrase pageContent :
  normalizeForMatching phrase = [] ->
  value (findTextRects phrase pageContent) = [].
Proof.
  intros Hblank. unfold findTextRects. rewrite value_bind.
  replace (value (matchingItemIndices phrase (Page.items pageContent)))
    with (Some (@nil nat)); [reflexivity|].
  unfold matchingItemIndices. rewrite Hblank.
  destruct (buildFullText 0 (Page.items pageContent))
    as [fullText charToItemMap].
  unfold locateSpan. rewrite indexOf_nil. cbn [Z.eqb].
  rewrite value_bind. cbn [value ret snd len length Z.of_nat Z.add].
  now rewrite collectItems_empty.
Qed.

End ResolverBounds.

(** X7.  The character-to-item table has one entry per character of the
    buffer, its entries are item indices of the page in ascending order,
    and each item owns the characters of its own text and at most one
    more, the separating space. *)
Theorem buildFullText_table (items : list TextItem.t) :
  let fullText := fst (buildFullText 0 items) in
  let charToItemMap := snd (buildFullText 0 items) in
  length charToItemMap = length fullText
  /\ StronglySorted le charToItemMap
  /\ Forall (fun i => i < length items) charToItemMap
  /\ (forall j item,
         nth_error items j = Some item ->
         length (TextItem.str item)
         <= count_occ Nat.eq_dec charToItemMap j
         <= S (length (TextItem.str item))).
Proof.
  cbn zeta. pose proof (buildFullText_invariant 0 items) as Hinv.
  pose proof (buildFullText_owned 0 items) as Hown.
  destruct (buildFullText 0 items) as [fullText charToItemMap].
  cbn [fst snd] in *. destruct Hinv as (H1 & H2 & H3).
  repeat split; trivial.
  - eapply Forall_impl; [|exact H3]. cbn. intros; lia.
  - apply (Hown j item H).
  - apply (Hown j item H).
Qed.

Lemma buildFullText_table_witness :
  length (lit "12.8")
  <= count_occ Nat.eq_dec
               (snd (buildFullText 0 (Page.items (revenuePage 0)))) 1
  <= S (length (lit "12.8")).
Proof.
  apply (proj2 (proj2 (proj2
           (buildFullText_table (Page.items (revenuePage 0)))))
           1 (fragment "12.8" 118 700 20 12)).
  reflexivity.
Defined.

(** X8.  The span resolver returns at most one rectangle for each text
    item of the page, so none for a page that has no items. *)
Theorem findTextRects_count (phrase : jsstring) (pageContent : Page.t) :
  length (value (findTextRects phrase pageContent))
  <= length (Page.items pageContent)
  /\ (Page.items pageContent = [] ->
      value (findTextRects phrase pageContent) = []).
Proof.
  assert (Hle : length (value (findTextRects phrase pageContent))
                <= length (Page.items pageContent)).
  { unfold findTextRects. rewrite value_bind.
    destruct (value (matchingItemIndices phrase (Page.items pageContent)))
      as [touched|] eqn:E; [|cbn; lia].
    cbn [value ret snd].
    eapply Nat.le_trans; [apply mergeRects_length|].
    rewrite length_map.
    eapply Nat.le_trans; [apply length_items_of|].
    rewrite (Permutation_length (sort_perm _ ascending touched)).
    destruct (touched_bound _ _ _ E) as [Hnd Hlt].
    assert (Hseq : length touched
                   <= length (seq 0 (length (Page.items pageContent)))).
    { apply NoDup_incl_length; [exact Hnd|].
      intros i Hi. apply in_seq. rewrite Forall_forall in Hlt.
      specialize (Hlt i Hi). lia. }
    now rewrite length_seq in Hseq. }
  split; [exact Hle|].
  intros Hnone. rewrite Hnone in Hle.
  destruct (value (findTextRects phrase pageContent)); [reflexivity|].
  simpl in Hle. lia.
Qed.

Lemma findTextRects_count_witness :
  value (findTextRects (lit "Revenue growth 12.8") barePage) = [].
Proof.
  apply (proj2 (findTextRects_count (lit "Revenue growth 12.8") barePage)).
  reflexivity.
Defined.

(** X9.  A phrase whose normal form is empty (an empty or blank phrase,
    or one of stripped characters only) fuzzy-matches every text and
    resolves to no rectangle, so [findPhrase] answers with the first
    page present in the visit order and the placeholder rectangle,
    flagged by the fallback warning. *)
Theorem findPhrase_blank_phrase (phrase id : jsstring)
        (pageContents : list (option Page.t)) (pageHint : option Z)
        (before : list Z) (i : Z) (after : list Z) (pageContent : Page.t) :
  normalizeForMatching phrase = [] ->
  searchOrder pageContents pageHint = before ++ i :: after ->
  Forall (fun j => pageAt pageContents j = None) before ->
  pageAt pageContents i = Some pageContent ->
  (forall text, fuzzyMatch text phrase = true)
  /\ value (findPhrase phrase id pageContents pageHint)
     = Some (Highlight.mk id phrase i [Rect.mk 50 100 500 30] (Some yellow))
  /\ flaggedApproximate (findPhrase phrase id pageContents pageHint) = true.
Proof.
  intros Hblank Horder Hbefore Hpage.
  assert (Hmatch : forall text, fuzzyMatch text phrase = true).
  { intros text. unfold fuzzyMatch. rewrite Hblank, includes_nil.
    reflexivity. }
  split; [exact Hmatch|].
  assert (Hskip : Forall (fun j => qualifies phrase pageContents j = false)
                         before).
  { eapply Forall_impl; [|exact Hbefore]. cbn. intros j Hj.
    unfold qualifies. now rewrite Hj. }
  destruct (findPhrase_searchPages phrase id pageContents pageHint)
    as [-> ->].
  destruct (searchPages_first phrase id pageContents before i after
              pageContent Hskip Hpage (Hmatch _)) as [Hv Hf].
  rewrite Horder, Hv, Hf. unfold resultFor.
  rewrite (findTextRects_blank phrase pageContent Hblank).
  split; reflexivity.
Qed.

Lemma findPhrase_blank_phrase_witness :
  value (findPhrase (lit " # ") (lit "ref-0")
                    [None; Some (revenuePage 1)] (Some 5%Z))
  = Some (Highlight.mk (lit "ref-0") (lit " # ") 1
                       [Rect.mk 50 100 500 30] (Some yellow)).
Proof.
  apply (findPhrase_blank_phrase
           (lit " # ") (lit "ref-0") [None; Some (revenuePage 1)] (Some 5%Z)
           [5%Z; 0%Z] 1 [] (revenuePage 1)).
  - vm_compute. reflexivity.
  - reflexivity.
  - repeat constructor.
  - reflexivity.
Defined.

(* ================================================================== *)
(** * The page locator, in general                                     *)
(* ================================================================== *)

Section LocatorFacts.

Variables phrase id : jsstring.
Variable pageContents : list (option Page.t).

(** The result of the loop is decided by the first index of the order
    that qualifies. *)
Lemma searchPages_find order :
  value (searchPages phrase id pageContents order)
  = match find (qualifies phrase pageContents) order with
    | Some i =>
        match pageAt pageContents i with
        | Some pageContent => Some (resultFor phrase id i pageContent)
        | None => None
        end
    | None => None
    end.
Proof.
  destruct (first_qualifying phrase pageContents order)
    as [Hnone | (before & i & after & -> & Hbefore & Hi)].
  - rewrite (searchPages_none phrase id pageContents order Hnone).
    replace (find (qualifies phrase pageContents) order) with (@None Z);
      [reflexivity|].
    symmetry. induction Hnone as [|j l Hj _ IH]; [reflexivity|].
    cbn [find]. now rewrite Hj.
  - destruct (qualifies_page _ _ _ Hi) as [pageContent [Hpage Hmatch]].
    rewrite (proj1 (searchPages_first phrase id pageContents before i after
                                      pageContent Hbefore Hpage Hmatch)).
    replace (find (qualifies phrase pageContents) (before ++ i :: after))
      with (Some i); [now rewrite Hpage|].
    symmetry. induction Hbefore as [|j l Hj _ IH].
    + cbn [app find]. now rewrite Hi.
    + cbn [app find]. now rewrite Hj.
Qed.

Lemma find_without hint (l : list Z) :
  qualifies phrase pageContents hint = false ->
  find (qualifies phrase pageContents)
       (filter (fun i => negb (i =? hint)%Z) l)
  = find (qualifies phrase pageContents) l.
Proof.
  intros Hq. induction l as [|i l IH]; [reflexivity|].
  cbn [filter find]. destruct (Z.eqb_spec i hint) as [-> | Hne].
  - cbn [negb]. now rewrite Hq.
  - cbn [negb find]. now rewrite IH.
Qed.

Lemma sorted_NoDup (l : list Z) : StronglySorted Z.lt l -> NoDup l.
Proof.
  induction 1 as [|z l _ IH Hz]; constructor; [|exact IH].
  intros Hin. rewrite Forall_forall in Hz. specialize (Hz z Hin). lia.
Qed.

(** The console of the span resolver never holds the not-found error. *)
Lemma quiet_bind {A B} (m : logged A) (k : A -> logged B) :
  existsb isNotFoundError (console m) = false ->
  (forall a, existsb isNotFoundError (console (k a)) = false) ->
  existsb isNotFoundError (console (bind m k)) = false.
Proof.
  intros Hm Hk. now rewrite console_bind, existsb_app, Hm, Hk.
Qed.

Lemma partialPass_quiet allKeyTerms normalizedFullText terms :
  existsb isNotFoundError
          (console (partialPass allKeyTerms normalizedFullText terms)) = false.
Proof.
  induction terms as [|term rest IH]; [reflexivity|].
  cbn [partialPass]. destruct (_ =? _)%Z; [exact IH|].
  destruct (Qle_bool _ _); [|exact IH].
  apply quiet_bind; [reflexivity | reflexivity].
Qed.

Lemma findTextRects_quiet pageContent :
  existsb isNotFoundError (console (findTextRects phrase pageContent)) = false.
Proof.
  unfold findTextRects. apply quiet_bind.
  - unfold matchingItemIndices.
    destruct (buildFullText 0 (Page.items pageContent))
      as [fullText charToItemMap].
    apply quiet_bind.
    + unfold locateSpan. destruct (_ =? _)%Z; [|reflexivity].
      apply partialPass_quiet.
    + intros [[startIndex searchLength]|]; [reflexivity|].
      apply quiet_bind; reflexivity.
  - intros [indices|]; reflexivity.
Qed.

Lemma searchPages_error order :
  existsb isNotFoundError (console (searchPages phrase id pageContents order))
  = match value (searchPages phrase id pageContents order) with
    | Some _ => false
    | None => true
    end.
Proof.
  induction order as [|i order IH]; [reflexivity|].
  cbn [searchPages]. destruct (pageAt pageContents i) as [pageContent|];
    [|exact IH].
  rewrite console_bind, value_bind, existsb_app. cbn [console tell fst existsb
                                                      isNotFoundError orb].
  destruct (fuzzyMatch (Page.text pageContent) phrase); [|exact IH].
  rewrite console_bind, value_bind, existsb_app. cbn [console tell fst existsb
                                                      isNotFoundError orb].
  rewrite console_bind, value_bind, existsb_app, findTextRects_quiet.
  cbn [orb].
  destruct (0 <? length (value (findTextRects phrase pageContent)));
    reflexivity.
Qed.

End LocatorFacts.

(** X10.  A hint decides the result only when its page qualifies: with a
    hint whose page is missing, out of range or does not fuzzy-match,
    [findPhrase] returns what it returns without a hint. *)
Theorem findPhrase_hint_ignored (phrase id : jsstring)
        (pageContents : list (option Page.t)) (hint : Z) :
  qualifies phrase pageContents hint = false ->
  value (findPhrase phrase id pageContents (Some hint))
  = value (findPhrase phrase id pageContents None).
Proof.
  intros Hq.
  rewrite (proj1 (findPhrase_searchPages phrase id pageContents (Some hint))).
  rewrite (proj1 (findPhrase_searchPages phrase id pageContents None)).
  rewrite !searchPages_find. cbn [searchOrder find].
  now rewrite Hq, find_without.
Qed.

Lemma findPhrase_hint_ignored_witness :
  value (findPhrase (lit "Revenue 12.8") (lit "ref-1")
                    [Some barePage; Some (revenuePage 1)] (Some 14%Z))
  = value (findPhrase (lit "Revenue 12.8") (lit "ref-1")
                      [Some barePage; Some (revenuePage 1)] None).
Proof.
  apply (findPhrase_hint_ignored
           (lit "Revenue 12.8") (lit "ref-1")
           [Some barePage; Some (revenuePage 1)] 14).
  reflexivity.
Defined.

(** X11.  No page is visited twice and none is left out: the visit order
    has no repeated index and holds every index of the page array, with
    or without a hint, in the array or not. *)
Theorem searchOrder_each_page_once (pageContents : list (option Page.t))
        (pageHint : option Z) :
  NoDup (searchOrder pageContents pageHint)
  /\ (forall i, (0 <= i < Z.of_nat (length pageContents))%Z ->
                In i (searchOrder pageContents pageHint))
  /\ length (searchOrder pageContents pageHint) <= S (length pageContents).
Proof.
  destruct (pageIndices_spec pageContents) as [Hsorted Hin].
  assert (Hlen : length (pageIndices pageContents) = length pageContents).
  { unfold pageIndices. now rewrite length_map, length_seq. }
  destruct pageHint as [hint|]; cbn [searchOrder].
  - split; [|split].
    + constructor.
      * rewrite filter_In, negb_true_iff, Z.eqb_neq. tauto.
      * apply sorted_NoDup. now apply StronglySorted_filter.
    + intros i Hi. destruct (Z.eq_dec i hint) as [-> | Hne]; [now left|].
      right. rewrite filter_In, negb_true_iff, Z.eqb_neq, Hin. tauto.
    + cbn [length].
      pose proof (filter_length_le (fun i => negb (i =? hint)%Z)
                                   (pageIndices pageContents)).
      lia.
  - split; [now apply sorted_NoDup|]. split; [intros i; apply Hin | lia].
Qed.

(** X12.  The not-found error is written to the console exactly when
    [findPhrase] returns no highlight. *)
Theorem findPhrase_error_logged (phrase id : jsstring)
        (pageContents : list (option Page.t)) (pageHint : option Z) :
  existsb isNotFoundError
          (console (findPhrase phrase id pageContents pageHint)) = true
  <-> value (findPhrase phrase id pageContents pageHint) = None.
Proof.
  rewrite (proj1 (findPhrase_searchPages phrase id pageContents pageHint)).
  unfold findPhrase. rewrite !console_bind, !existsb_app.
  cbn [console tell fst existsb isNotFoundError orb].
  rewrite searchPages_error.
  destruct (value (searchPages phrase id pageContents
                               (searchOrder pageContents pageHint)));
    split; congruence.
Qed.

(* ================================================================== *)
(** * The text normaliser, in general                                  *)
(* ================================================================== *)

Section NormaliserFacts.

Lemma trimStart_fixed_head c r :
  trimStart (c :: r) = c :: r -> is_space c = false.
Proof.
  cbn [trimStart]. destruct (is_space c); [|reflexivity].
  intros H. exfalso.
  destruct (trimStart_split r) as [spaces [Hr _]].
  apply (f_equal (@length ascii)) in H, Hr.
  rewrite length_app in Hr. simpl in H. lia.
Qed.

(** What a replacement does to the characters that satisfy [p], when each
    match and what replaces it hold the same ones. *)
Lemma replace_filter (p : ascii -> bool) (re : pattern)
      (by_ : jsstring -> jsstring) :
  (forall c r k, re c r = Some k ->
                 filter p (by_ (c :: firstn k r)) = filter p (c :: firstn k r)) ->
  forall s, filter p (replace re by_ s) = filter p s.
Proof.
  intros Hhit. induction s as [|c r IH] using suffix_ind; [reflexivity|].
  rewrite replace_cons. destruct (re c r) as [k|] eqn:E.
  - rewrite filter_app, (Hhit c r k E), (IH k), <- filter_app.
    cbn [app]. now rewrite firstn_skipn.
  - cbn [filter]. specialize (IH 0). cbn [skipn] in IH. now rewrite IH.
Qed.

Lemma space_not_digit c : is_space c = true -> is_digit c = false.
Proof.
  destruct c as [[] [] [] [] [] [] [] []]; vm_compute; congruence.
Qed.

Lemma lower_digit c : is_digit (lower c) = is_digit c.
Proof.
  destruct c as [[] [] [] [] [] [] [] []]; vm_compute; reflexivity.
Qed.

Lemma digit_fixed c : is_digit c = true -> lower c = c.
Proof.
  destruct c as [[] [] [] [] [] [] [] []]; vm_compute; congruence.
Qed.

Lemma digit_retained c : is_digit c = true -> retained c = true.
Proof.
  destruct c as [[] [] [] [] [] [] [] []]; vm_compute; congruence.
Qed.

Lemma lower_space c : is_space (lower c) = is_space c.
Proof.
  destruct c as [[] [] [] [] [] [] [] []]; vm_compute; reflexivity.
Qed.

Lemma letter_not_digit c x :
  Ascii.eqb (lower c) x = true -> is_digit x = false -> is_digit c = false.
Proof.
  intros E Hx. apply Ascii.eqb_eq in E. rewrite <- lower_digit. congruence.
Qed.

Lemma no_digit_in_spaces (l : jsstring) :
  Forall (fun c => is_space c = true) l -> filter is_digit l = [].
Proof.
  induction 1 as [|c l Hc _ IH]; [reflexivity|].
  cbn [filter]. now rewrite (space_not_digit c Hc).
Qed.

Lemma digits_toLowerCase s :
  filter is_digit (toLowerCase s) = filter is_digit s.
Proof.
  unfold toLowerCase. induction s as [|c r IH]; [reflexivity|].
  cbn [map filter]. rewrite lower_digit, IH.
  destruct (is_digit c) eqn:E; [|reflexivity].
  now rewrite (digit_fixed c E).
Qed.

Lemma digits_collapseWhitespace s :
  filter is_digit (collapseWhitespace s) = filter is_digit s.
Proof.
  apply replace_filter. intros c r k. unfold re_spaces.
  destruct (is_space c) eqn:Hc; [|discriminate]. intros [= <-].
  symmetry. apply no_digit_in_spaces. constructor; [exact Hc|].
  apply firstn_span.
Qed.

Lemma digits_spaceUsd s : filter is_digit (spaceUsd s) = filter is_digit s.
Proof.
  apply replace_filter. intros c r k. unfold re_usd.
  destruct r as [|c1 [|c2 r']]; try discriminate.
  destruct (Ascii.eqb (lower c) "u" && Ascii.eqb (lower c1) "s"
            && Ascii.eqb (lower c2) "d") eqn:E; [|discriminate].
  intros [= <-]. rewrite !andb_true_iff in E. destruct E as [[Eu Es] Ed].
  cbn [Nat.add firstn filter].
  rewrite (letter_not_digit c "u" Eu eq_refl),
    (letter_not_digit c1 "s" Es eq_refl),
    (letter_not_digit c2 "d" Ed eq_refl).
  symmetry. apply no_digit_in_spaces, firstn_span.
Qed.

Lemma digits_dollarToUsd s :
  filter is_digit (dollarToUsd s) = filter is_digit s.
Proof.
  apply replace_filter. intros c r k. unfold re_dollar.
  destruct (Ascii.eqb_spec c "$") as [-> | _]; [|discriminate].
  intros [= <-]. reflexivity.
Qed.

Lemma digits_stripThousands s :
  filter is_digit (stripThousands s) = filter is_digit s.
Proof.
  apply replace_filter. intros c r k. unfold re_comma_digit.
  destruct r as [|d r']; [discriminate|].
  destruct (Ascii.eqb c "," && is_digit d) eqn:E; [|discriminate].
  intros [= <-]. apply andb_true_iff in E. destruct E as [Ec _].
  apply Ascii.eqb_eq in Ec. subst c. reflexivity.
Qed.

Lemma digits_stripSpecial s :
  filter is_digit (stripSpecial s) = filter is_digit s.
Proof.
  apply replace_filter. intros c r k. unfold re_special.
  destruct (retained c) eqn:E; [discriminate|]. intros [= <-].
  cbn [firstn filter]. destruct (is_digit c) eqn:Hd; [|reflexivity].
  rewrite (digit_retained c Hd) in E. discriminate.
Qed.

Lemma digits_trim s : filter is_digit (trim s) = filter is_digit s.
Proof.
  destruct (trim_split s) as (leading & trailing & Hs & Hl & Ht).
  rewrite Hs at 2. rewrite !filter_app.
  rewrite (no_digit_in_spaces leading Hl), (no_digit_in_spaces trailing Ht).
  now rewrite app_nil_r.
Qed.

Lemma collapseWhitespace_blank s :
  Forall (fun c => is_space c = true) s ->
  collapseWhitespace s = [] \/ collapseWhitespace s = lit " ".
Proof.
  intros H. destruct H as [|c r Hc Hr]; [now left|]. right.
  unfold collapseWhitespace. rewrite replace_cons. unfold re_spaces.
  rewrite Hc, (span_all is_space r Hr), skipn_all. reflexivity.
Qed.

End NormaliserFacts.

(** X13.  A normalised text holds no dollar sign, no upper-case letter,
    no character outside the retained set and no white space but the
    plain space, and it neither begins nor ends with a space. *)
Theorem normalize_alphabet (s : jsstring) :
  (forall c, In c (normalizeForMatching s) ->
             c <> "$"%char /\ lower c = c /\ retained c = true
             /\ (is_space c = true -> c = " "%char))
  /\ (forall c r, normalizeForMatching s = c :: r -> is_space c = false)
  /\ (forall r c, normalizeForMatching s = r ++ [c] -> is_space c = false).
Proof.
  destruct (normalize_normal s) as (Hn & Hs & He).
  split; [|split].
  - intros c Hc. rewrite Forall_forall in Hn.
    destruct (normalChar_parts c (Hn c Hc)) as (H1 & H2 & H3 & H4). tauto.
  - intros c r E. rewrite E in Hs. now apply trimStart_fixed_head with r.
  - intros r c E. rewrite E, rev_app_distr in He. cbn [rev app] in He.
    now apply trimStart_fixed_head with (rev r).
Qed.

Lemma normalize_alphabet_witness :
  is_space "u" = false.
Proof.
  apply (proj1 (proj2 (normalize_alphabet (lit "  $12,800 "))) "u"%char
               (lit "sd 12800")).
  vm_compute. reflexivity.
Defined.

(** X14.  Normalising neither drops nor adds nor reorders a digit: the
    digits of the normalised text are those of the text. *)
Theorem normalize_keeps_digits (s : jsstring) :
  filter is_digit (normalizeForMatching s) = filter is_digit s.
Proof.
  unfold normalizeForMatching.
  now rewrite digits_trim, digits_stripSpecial, digits_stripThousands,
    digits_dollarToUsd, digits_spaceUsd, digits_collapseWhitespace,
    digits_toLowerCase.
Qed.

(** X15.  A text of white space only, the empty text included,
    normalises to the empty string. *)
Theorem normalize_blank (s : jsstring) :
  Forall (fun c => is_space c = true) s -> normalizeForMatching s = [].
Proof.
  intros H.
  assert (Hl : Forall (fun c => is_space c = true) (toLowerCase s)).
  { unfold toLowerCase. apply Forall_forall. intros c Hc.
    apply in_map_iff in Hc. destruct Hc as [c0 [<- Hc0]].
    rewrite lower_space. rewrite Forall_forall in H. now apply H. }
  unfold normalizeForMatching.
  destruct (collapseWhitespace_blank _ Hl) as [-> | ->];
    vm_compute; reflexivity.
Qed.

Lemma normalize_blank_witness :
  normalizeForMatching [" "%char; ascii_of_nat 9; ascii_of_nat 160] = [].
Proof.
  apply (normalize_blank [" "%char; ascii_of_nat 9; ascii_of_nat 160]).
  repeat constructor.
Defined.

(* ================================================================== *)
(** * The search utilities                                             *)
(* ================================================================== *)

Section UtilityFacts.

Lemma collapseWhitespace_head c r :
  is_space c = false ->
  collapseWhitespace (c :: r) = c :: collapseWhitespace r.
Proof.
  intros Hc. unfold collapseWhitespace. rewrite replace_cons.
  unfold re_spaces. now rewrite Hc.
Qed.

Lemma span_collapsed r :
  match r with
  | c :: _ => is_space c = false
  | [] => True
  end ->
  span is_space (collapseWhitespace r) = 0.
Proof.
  destruct r as [|c r]; [reflexivity|]. intros Hc.
  rewrite (collapseWhitespace_head c r Hc). cbn [span]. now rewrite Hc.
Qed.

Lemma collapseWhitespace_space c r :
  is_space c = true ->
  collapseWhitespace (c :: r)
  = " "%char :: collapseWhitespace (skipn (span is_space r) r).
Proof.
  intros Hc. unfold collapseWhitespace. rewrite replace_cons.
  unfold re_spaces. now rewrite Hc.
Qed.

(** Collapsing white space twice is collapsing it once. *)
Lemma collapseWhitespace_idem v :
  collapseWhitespace (collapseWhitespace v) = collapseWhitespace v.
Proof.
  induction v as [|c r IH] using suffix_ind; [reflexivity|].
  destruct (is_space c) eqn:Hc.
  - rewrite (collapseWhitespace_space c r Hc).
    rewrite (collapseWhitespace_space " " _ eq_refl).
    rewrite (span_collapsed _ (skipn_span_head is_space r)).
    cbn [skipn]. f_equal. apply IH.
  - rewrite !(collapseWhitespace_head c _ Hc). f_equal. exact (IH 0).
Qed.

Lemma last_app_nonempty (a b : jsstring) d :
  b <> [] -> last (a ++ b) d = last b d.
Proof.
  intros Hb. induction a as [|x a IH]; [reflexivity|].
  cbn [app]. destruct (a ++ b) eqn:E.
  - destruct a; [contradiction | discriminate].
  - exact IH.
Qed.

Lemma last_spaces (l : jsstring) d :
  is_space d = true -> Forall (fun c => is_space c = true) l ->
  is_space (last l d) = true.
Proof.
  intros Hd. induction 1 as [|c l Hc Hl IH]; [exact Hd|].
  destruct l as [|c' l']; [exact Hc | exact IH].
Qed.

(** Collapsing keeps a last character that is not white space. *)
Lemma collapseWhitespace_last v :
  v <> [] -> is_space (last v " "%char) = false ->
  collapseWhitespace v <> []
  /\ last (collapseWhitespace v) " "%char = last v " "%char.
Proof.
  induction v as [|c r IH] using suffix_ind; [contradiction|].
  intros _ Hlast. destruct (is_space c) eqn:Hc.
  - rewrite (collapseWhitespace_space c r Hc).
    set (k := span is_space r) in *.
    assert (Hrest : skipn k r <> []).
    { intros Hnil.
      assert (Hall : Forall (fun x => is_space x = true) (c :: r)).
      { constructor; [exact Hc|].
        rewrite <- (firstn_skipn k r), Hnil, app_nil_r. apply firstn_span. }
      rewrite (last_spaces (c :: r) " " eq_refl Hall) in Hlast.
      discriminate. }
    assert (Hsame : last (c :: r) " "%char = last (skipn k r) " "%char).
    { rewrite <- (firstn_skipn k r) at 1.
      change (c :: firstn k r ++ skipn k r)
        with ((c :: firstn k r) ++ skipn k r).
      now apply last_app_nonempty. }
    rewrite Hsame in *.
    destruct (IH k Hrest Hlast) as [Hne Heq].
    split; [discriminate|].
    change (" "%char :: collapseWhitespace (skipn k r))
      with ([" "%char] ++ collapseWhitespace (skipn k r)).
    now rewrite last_app_nonempty.
  - rewrite (collapseWhitespace_head c r Hc). split; [discriminate|].
    destruct r as [|c' r']; [reflexivity|].
    assert (Hr : c' :: r' <> []) by discriminate.
    change (last (c :: c' :: r') " "%char) with (last (c' :: r') " "%char)
      in *.
    destruct (IH 0 Hr Hlast) as [Hne Heq]. cbn [skipn] in *.
    change (c :: collapseWhitespace (c' :: r'))
      with ([c] ++ collapseWhitespace (c' :: r')).
    now rewrite last_app_nonempty.
Qed.

Lemma trimmed_end_last t :
  t <> [] ->
  (trimStart (rev t) = rev t <-> is_space (last t " "%char) = false).
Proof.
  intros Hne. destruct (exists_last Hne) as [r [c ->]].
  rewrite last_last, rev_app_distr. cbn [rev app]. split.
  - apply trimStart_fixed_head.
  - intros Hc. cbn [trimStart]. now rewrite Hc.
Qed.

Lemma collapseWhitespace_trimmed v :
  trimStart v = v -> trimStart (rev v) = rev v ->
  trimStart (collapseWhitespace v) = collapseWhitespace v
  /\ trimStart (rev (collapseWhitespace v)) = rev (collapseWhitespace v).
Proof.
  intros Hs He. destruct v as [|c r]; [split; reflexivity|].
  pose proof (trimStart_fixed_head c r Hs) as Hc. split.
  - rewrite (collapseWhitespace_head c r Hc). cbn [trimStart]. now rewrite Hc.
  - assert (Hne : c :: r <> []) by discriminate.
    apply (trimmed_end_last (c :: r) Hne) in He.
    destruct (collapseWhitespace_last (c :: r) Hne He) as [Hne' Hlast].
    apply (trimmed_end_last _ Hne'). congruence.
Qed.

Lemma toLowerCase_trimStart u :
  trimStart u = u -> trimStart (toLowerCase u) = toLowerCase u.
Proof.
  destruct u as [|c r]; [reflexivity|]. intros H.
  pose proof (trimStart_fixed_head c r H) as Hc.
  unfold toLowerCase. cbn [map trimStart]. now rewrite lower_space, Hc.
Qed.

Lemma toLowerCase_plain l :
  Forall (fun c => (isLower c && plainSpace c) = true) l -> toLowerCase l = l.
Proof.
  unfold toLowerCase. induction 1 as [|c l Hc _ IH]; [reflexivity|].
  cbn [map]. rewrite IH. f_equal.
  apply andb_true_iff in Hc. destruct Hc as [Hc _].
  now apply Ascii.eqb_eq.
Qed.

Lemma escapeRegExp_cons c r :
  escapeRegExp (c :: r)
  = if regexSpecial c then "\"%char :: c :: escapeRegExp r
    else c :: escapeRegExp r.
Proof.
  unfold escapeRegExp. rewrite replace_cons. unfold re_regexSpecial.
  destruct (regexSpecial c); reflexivity.
Qed.

Lemma unescape_escape c r :
  unescape (escapeRegExp r) = r ->
  unescape (escapeRegExp (c :: r)) = c :: r.
Proof.
  intros IH. rewrite escapeRegExp_cons. destruct (regexSpecial c) eqn:E.
  - cbn [unescape]. change (Ascii.eqb "\" "\") with true. cbn iota.
    now rewrite IH.
  - cbn [unescape]. destruct (Ascii.eqb_spec c "\") as [-> | _];
      [discriminate | now rewrite IH].
Qed.

End UtilityFacts.

(** X16.  [normalizeText] is idempotent. *)
Theorem normalizeText_idempotent (text : jsstring) :
  normalizeText (normalizeText text) = normalizeText text.
Proof.
  unfold normalizeText. fold (collapseWhitespace (toLowerCase (trim text))).
  set (t := collapseWhitespace (toLowerCase (trim text))).
  fold (collapseWhitespace (toLowerCase (trim t))).
  destruct (trim_trimmed text) as [Hs He].
  assert (Hs' : trimStart (toLowerCase (trim text)) = toLowerCase (trim text))
    by now apply toLowerCase_trimStart.
  assert (He' : trimStart (rev (toLowerCase (trim text)))
                = rev (toLowerCase (trim text))).
  { unfold toLowerCase. rewrite <- map_rev.
    now apply toLowerCase_trimStart. }
  destruct (collapseWhitespace_trimmed _ Hs' He') as [Ht1 Ht2].
  fold t in Ht1, Ht2. rewrite (trim_fixed t Ht1 Ht2).
  assert (Hlow : toLowerCase t = t).
  { apply toLowerCase_plain. unfold t.
    apply collapseWhitespace_plain, toLowerCase_lower. }
  rewrite Hlow. apply collapseWhitespace_idem.
Qed.

(** X17.  [escapeRegExp] loses nothing: reading each backslash as
    standing for the character after it gives the text back, so two
    texts with one escaped form are equal; the escaped text is longer by
    the number of special characters. *)
Theorem escapeRegExp_reversible :
  (forall str, unescape (escapeRegExp str) = str)
  /\ (forall a b, escapeRegExp a = escapeRegExp b -> a = b)
  /\ (forall str, length (escapeRegExp str)
                  = length str + length (filter regexSpecial str)).
Proof.
  assert (Hround : forall str, unescape (escapeRegExp str) = str).
  { induction str as [|c r IH]; [reflexivity | now apply unescape_escape]. }
  split; [exact Hround|]. split.
  - intros a b E. rewrite <- (Hround a), <- (Hround b). now rewrite E.
  - induction str as [|c r IH]; [reflexivity|].
    rewrite escapeRegExp_cons. cbn [filter].
    destruct (regexSpecial c); cbn [length]; rewrite IH; lia.
Qed.

Lemma escapeRegExp_reversible_witness :
  lit "a.b" = lit "a.b".
Proof.
  apply (proj1 (proj2 escapeRegExp_reversible) (lit "a.b") (lit "a.b")).
  reflexivity.
Defined.

(* ================================================================== *)
(** * The overlay                                                      *)
(* ================================================================== *)

(** X18.  Once the page height is known the overlay flips the vertical
    axis, for a scale that is not negative: of two rectangles of one
    height the one with the greater [y] gets the box with the smaller
    [top], while boxes keep the horizontal order and the order of sizes
    of their rectangles; without a page height the vertical order is
    kept.  A rectangle inside the page gives a box with no negative
    coordinate.  Each of these holds of products and differences rounded
    to doubles as it does of exact ones.  When scale, page height and the
    rectangle's fields are whole numbers of magnitude at most 2^25, where
    nothing is rounded, the bottom edge of the box lies as far from the
    bottom of the scaled page as the rectangle's [y], and a rectangle
    inside the page gives a box inside the scaled page. *)
Theorem overlay_flips_vertical (scale pageHeight : Q) (rect other : Rect.t) :
  (0 <= scale)%Q ->
  let box := Overlay.cssBox scale pageHeight rect in
  let otherBox := Overlay.cssBox scale pageHeight other in
  (~ (pageHeight == 0)%Q ->
   (Rect.height rect == Rect.height other)%Q ->
   (Rect.y rect <= Rect.y other)%Q ->
   (Overlay.top otherBox <= Overlay.top box)%Q)
  /\ ((pageHeight == 0)%Q ->
      (Rect.y rect <= Rect.y other)%Q ->
      (Overlay.top box <= Overlay.top otherBox)%Q)
  /\ ((Rect.x rect <= Rect.x other)%Q ->
      (Overlay.left box <= Overlay.left otherBox)%Q)
  /\ ((Rect.width rect <= Rect.width other)%Q ->
      (Overlay.width box <= Overlay.width otherBox)%Q)
  /\ ((Rect.height rect <= Rect.height other)%Q ->
      (Overlay.height box <= Overlay.height otherBox)%Q)
  /\ ((0 <= Rect.x rect)%Q -> (0 <= Rect.y rect)%Q ->
      (0 <= Rect.width rect)%Q -> (0 <= Rect.height rect)%Q ->
      (Rect.y rect + Rect.height rect <= pageHeight)%Q ->
      (0 <= Overlay.left box /\ 0 <= Overlay.top box
       /\ 0 <= Overlay.width box /\ 0 <= Overlay.height box)%Q)
  /\ (~ (pageHeight == 0)%Q ->
      whole scale && whole pageHeight && whole (Rect.x rect)
      && whole (Rect.y rect) && whole (Rect.width rect)
      && whole (Rect.height rect) = true ->
      (Overlay.top box + Overlay.height box
       == (pageHeight - Rect.y rect) * scale)%Q
      /\ (Overlay.left box + Overlay.width box
          == (Rect.x rect + Rect.width rect) * scale)%Q
      /\ ((0 <= Rect.y rect)%Q -> (0 <= Rect.height rect)%Q ->
          (Rect.y rect + Rect.height rect <= pageHeight)%Q ->
          (0 <= Overlay.top box
           /\ Overlay.top box + Overlay.height box <= pageHeight * scale)%Q)).
Proof.
  intros Hs. unfold Overlay.cssBox.
  cbn [Overlay.top Overlay.height Overlay.left Overlay.width].
  assert (Hmono : forall a b : Q, (a <= b)%Q -> (a * scale <= b * scale)%Q).
  { intros a b Hab. now apply Qmult_le_compat_r. }
  destruct (Qeq_bool pageHeight 0) eqn:E.
  - apply Qeq_bool_iff in E.
    split; [now intros Hpage|]. split; [intros _; apply Hmono|].
    split; [apply Hmono|]. split; [apply Hmono|]. split; [apply Hmono|].
    split; [|now intros Hpage].
    intros Hx Hy Hw Hh Hin.
    repeat split; apply Qmult_le_0_compat; trivial.
  - assert (Hpage : ~ (pageHeight == 0)%Q).
    { intros H. apply Qeq_bool_iff in H. rewrite H in E. discriminate. }
    split; [intros _ Hheight Hy; apply Hmono; lra|].
    split; [now intros H|].
    split; [apply Hmono|]. split; [apply Hmono|]. split; [apply Hmono|].
    split.
    + intros Hx Hy Hw Hh Hin.
      repeat split; apply Qmult_le_0_compat; trivial; lra.
    + intros _ _. split; [ring|]. split; [ring|].
      intros Hy Hh Hin. split.
      * apply Qmult_le_0_compat; [lra | exact Hs].
      * setoid_replace ((pageHeight - Rect.y rect - Rect.height rect) * scale
                        + Rect.height rect * scale)%Q
          with ((pageHeight - Rect.y rect) * scale)%Q by ring.
        apply Hmono. lra.
Qed.

Lemma overlay_flips_vertical_witness :
  (Overlay.top (Overlay.cssBox (6 # 5) 842 (Rect.mk 72 700 42 12))
   <= Overlay.top (Overlay.cssBox (6 # 5) 842 (Rect.mk 72 650 42 12)))%Q
  /\ (Overlay.top (Overlay.cssBox 2 842 (Rect.mk 72 700 42 12))
      + Overlay.height (Overlay.cssBox 2 842 (Rect.mk 72 700 42 12))
      == (842 - 700) * 2)%Q.
Proof.
  assert (Hs5 : (0 <= 6 # 5)%Q) by (vm_compute; discriminate).
  assert (Hs2 : (0 <= 2)%Q) by (vm_compute; discriminate).
  split.
  - destruct (overlay_flips_vertical
                (6 # 5) 842 (Rect.mk 72 650 42 12) (Rect.mk 72 700 42 12) Hs5)
      as (Hflip & _).
    apply Hflip.
    + intros H. vm_compute in H. discriminate.
    + reflexivity.
    + vm_compute. discriminate.
  - destruct (overlay_flips_vertical
                2 842 (Rect.mk 72 700 42 12) (Rect.mk 72 700 42 12) Hs2)
      as (_ & _ & _ & _ & _ & _ & Hexact).
    apply Hexact.
    + intros H. vm_compute in H. discriminate.
    + reflexivity.
Defined.

(* ================================================================== *)
(** * The reference markers                                            *)
(* ================================================================== *)

Section RenderFacts.

Lemma indexOf_from_found i s sub j :
  indexOf_from i s sub = j -> j <> (-1)%Z -> (0 <= i)%Z ->
  exists n, j = (i + Z.of_nat n)%Z /\ n <= length s
            /\ startsWith (skipn n s) sub = true.
Proof.
  revert i. induction s as [|c r IH]; intros i Hj Hfound Hi.
  - cbn [indexOf_from] in Hj. destruct (startsWith [] sub) eqn:E.
    + exists 0. repeat split; [lia | lia | exact E].
    + congruence.
  - cbn [indexOf_from] in Hj. destruct (startsWith (c :: r) sub) eqn:E.
    + exists 0. repeat split; [lia | cbn; lia | exact E].
    + destruct (IH (i + 1)%Z Hj Hfound ltac:(lia)) as (n & Hn & Hle & Hs).
      exists (S n). repeat split; [lia | cbn; lia | exact Hs].
Qed.

Variable activeReferenceId : option jsstring.
Variable text : jsstring.

Lemma renderStep_rendered state ref :
  rendered text state ->
  rendered text (renderStep activeReferenceId text state ref).
Proof.
  destruct state as [parts lastIndex]. unfold rendered. cbn [fst snd].
  intros [Hrange Hparts]. unfold renderStep, indexOfFrom.
  replace (Z.max 0 (Z.min lastIndex (len text))) with lastIndex by lia.
  set (label := Reference.label ref).
  destruct (indexOf_from lastIndex (skipn (Z.to_nat lastIndex) text) label
            =? -1)%Z eqn:E; [now split|].
  apply Z.eqb_neq in E.
  destruct (indexOf_from_found lastIndex _ label _ eq_refl E ltac:(lia))
    as (n & Hn & Hle & Hs).
  rewrite Hn. clear E Hn.
  apply startsWith_spec in Hs. destruct Hs as [rest Hrest].
  rewrite skipn_skipn in Hrest.
  assert (Hlen : length text = n + Z.to_nat lastIndex + length (label ++ rest)).
  { rewrite <- Hrest, length_skipn. rewrite length_skipn in Hle.
    unfold len in Hrange. lia. }
  rewrite length_app in Hlen.
  cbn [fst snd]. split; [unfold len in *; lia|].
  rewrite !flat_map_app, Hparts. cbn [flat_map nodeText]. rewrite app_nil_r.
  replace (Z.to_nat (lastIndex + Z.of_nat n + len label))
    with ((n + Z.to_nat lastIndex) + length label) by (unfold len; lia).
  rewrite (firstn_add (n + Z.to_nat lastIndex) (length label) text), Hrest.
  rewrite firstn_app, Nat.sub_diag, firstn_all. cbn [firstn].
  rewrite app_nil_r, app_assoc. f_equal.
  rewrite Nat.add_comm, firstn_add. f_equal.
  destruct (Z.ltb_spec lastIndex (lastIndex + Z.of_nat n)) as [Hlt | Hge].
  - cbn [flat_map nodeText]. rewrite app_nil_r. unfold substring.
    replace (Z.to_nat (Z.min lastIndex (lastIndex + Z.of_nat n)))
      with (Z.to_nat lastIndex) by lia.
    replace (Z.to_nat (Z.max lastIndex (lastIndex + Z.of_nat n))
             - Z.to_nat lastIndex) with n by lia.
    reflexivity.
  - replace n with 0 by lia. reflexivity.
Qed.

Lemma fold_rendered references state :
  rendered text state ->
  rendered text
           (fold_left (renderStep activeReferenceId text) references state).
Proof.
  revert state. induction references as [|ref l IH]; intros state H;
    [exact H|].
  cbn [fold_left]. apply IH. now apply renderStep_rendered.
Qed.

Lemma renderStep_buttons (references : list Reference.t) state ref :
  In ref references ->
  (forall r a, In (ButtonNode r a) (fst state) -> In r references) ->
  forall r a,
    In (ButtonNode r a) (fst (renderStep activeReferenceId text state ref)) ->
    In r references.
Proof.
  destruct state as [parts lastIndex]. cbn [fst]. intros Href Hparts r a.
  unfold renderStep. destruct (_ =? -1)%Z; [apply Hparts|].
  cbn [fst]. rewrite !in_app_iff. intros [H | [H | [H | []]]].
  - now apply (Hparts r a).
  - destruct (_ <? _)%Z; [destruct H as [H | []]; discriminate | destruct H].
  - injection H as <- _. exact Href.
Qed.

End RenderFacts.

Lemma renderText_concat (references : list Reference.t)
      (activeReferenceId : option jsstring) (text : jsstring) :
  flat_map nodeText (renderText references activeReferenceId text) = text.
Proof.
  unfold renderText.
  assert (H0 : rendered text ([], 0%Z)).
  { split; [unfold len; cbn; lia | reflexivity]. }
  pose proof (fold_rendered activeReferenceId text references _ H0) as H.
  destruct (fold_left (renderStep activeReferenceId text) references
                      ([], 0%Z)) as [parts lastIndex].
  destruct H as [Hrange Hparts]. cbn [fst snd] in *.
  destruct (Z.ltb_spec lastIndex (len text)) as [Hlt | Hge].
  - rewrite flat_map_app, Hparts. cbn [flat_map nodeText].
    rewrite app_nil_r. unfold substring.
    replace (Z.to_nat (Z.min lastIndex (len text)))
      with (Z.to_nat lastIndex) by lia.
    replace (firstn (Z.to_nat (Z.max lastIndex (len text))
                     - Z.to_nat lastIndex)
                    (skipn (Z.to_nat lastIndex) text))
      with (skipn (Z.to_nat lastIndex) text); [apply firstn_skipn|].
    symmetry. apply firstn_all2.
    rewrite length_skipn. unfold len in *. lia.
  - rewrite Hparts. apply firstn_all2. unfold len in *. lia.
Qed.

(** X19.  Rendering loses no text: the parts [renderText] returns, each
    button read as its label, put end to end are the text given; and
    every button is the button of one of the references. *)
Theorem renderText_keeps_text (references : list Reference.t)
        (activeReferenceId : option jsstring) (text : jsstring) :
  flat_map nodeText (renderText references activeReferenceId text) = text
  /\ (forall ref isActive,
         In (ButtonNode ref isActive)
            (renderText references activeReferenceId text) ->
         In ref references).
Proof.
  split; [apply renderText_concat|]. unfold renderText.
  assert (H : forall l state,
             incl l references ->
             (forall r a, In (ButtonNode r a) (fst state) -> In r references) ->
             forall r a,
               In (ButtonNode r a)
                  (fst (fold_left (renderStep activeReferenceId text) l state)) ->
               In r references).
  { induction l as [|ref l IH]; intros state Hincl Hstate; [exact Hstate|].
    cbn [fold_left]. apply IH.
    - intros x Hx. apply Hincl. now right.
    - apply renderStep_buttons; [apply Hincl; now left | exact Hstate]. }
  specialize (H references ([], 0%Z) (incl_refl _)
                (fun r a (Hin : In (ButtonNode r a) []) => match Hin with end)).
  destruct (fold_left (renderStep activeReferenceId text) references
                      ([], 0%Z)) as [parts lastIndex].
  cbn [fst] in H. intros ref isActive.
  destruct (_ <? _)%Z; [|apply H].
  rewrite in_app_iff. intros [Hin | [Hin | []]]; [now apply (H ref isActive)|].
  discriminate.
Qed.

Lemma renderText_keeps_text_witness :
  flat_map nodeText
           (renderText
              [Reference.mk (lit "ref-1") (lit "[1]") (lit "Revenue 12.8")
                            (Some 1%Z) None;
               Reference.mk (lit "ref-2") (lit "[2]") (lit "EBITDA 3.2")
                            (Some 1%Z) None]
              (Some (lit "ref-2"))
              (lit "Growth [1] and margin [2] held."))
  = lit "Growth [1] and margin [2] held.".
Proof.
  apply (proj1 (renderText_keeps_text
                  [Reference.mk (lit "ref-1") (lit "[1]") (lit "Revenue 12.8")
                                (Some 1%Z) None;
                   Reference.mk (lit "ref-2") (lit "[2]") (lit "EBITDA 3.2")
                                (Some 1%Z) None]
                  (Some (lit "ref-2"))
                  (lit "Growth [1] and margin [2] held."))).
Defined.

(* ================================================================== *)
(** * The click handler                                                *)
(* ================================================================== *)

(** A highlight that [findPhrase] returns was built for a page present at
    its index. *)
Lemma findPhrase_some phrase id pageContents pageHint h :
  value (findPhrase phrase id pageContents pageHint) = Some h ->
  exists i pageContent,
    pageAt pageContents i = Some pageContent
    /\ h = resultFor phrase id i pageContent.
Proof.
  rewrite (proj1 (findPhrase_searchPages phrase id pageContents pageHint)).
  rewrite searchPages_find.
  destruct (find _ _) as [i|]; [|discriminate].
  destruct (pageAt pageContents i) as [pageContent|] eqn:E; [|discriminate].
  intros H. apply Some_inj in H. now exists i, pageContent.
Qed.

(** X20.  A click changes the store only when the viewer is ready, has
    page contents and the phrase is found.  Then the highlight found is
    added: the clicked reference becomes the active one, the store holds
    that highlight and no other under the reference's id, it has at
    least one rectangle, and [PdfPage] draws it on the page numbered
    one more than its index, a page of the document.  When the phrase is
    not found the store stays and an alert is raised. *)
Theorem handleReferenceClick_outcome (isReady : bool)
        (viewer : option Viewer.t) (reference : Reference.t)
        (store : Store.t) :
  let outcome := handleReferenceClick isReady viewer reference store in
  ((isReady = false \/ viewer = None) -> outcome = ([WarnNotReady], store))
  /\ (forall container,
         isReady = true -> viewer = Some container ->
         Viewer.pageTextContents container = [] ->
         outcome = ([ErrorNoPageContents], store))
  /\ (forall container,
         isReady = true -> viewer = Some container ->
         Viewer.pageTextContents container <> [] ->
         let run :=
           findPhrase (Reference.phrase reference) (Reference.id reference)
                      (Viewer.pageTextContents container)
                      (zeroIndexed (Reference.pageHint reference)) in
         (value run = None ->
          snd outcome = store
          /\ In (Alert (Reference.phrase reference)) (fst outcome))
         /\ (forall h,
                value run = Some h ->
                snd outcome = Store.addHighlight h store
                /\ Store.activeReferenceId (snd outcome)
                   = Some (Reference.id reference)
                /\ (forall h', In h' (Store.highlights (snd outcome)) ->
                               Highlight.id h' = Reference.id reference ->
                               h' = h)
                /\ Highlight.rects h <> []
                /\ (1 <= Highlight.pageIndex h + 1
                    <= Z.of_nat (length (Viewer.pageTextContents container)))%Z
                /\ In h (pageHighlights (Store.highlights (snd outcome))
                                        (Highlight.pageIndex h + 1))
                /\ ~ In (Alert (Reference.phrase reference)) (fst outcome))).
Proof.
  cbn zeta. split; [|split].
  - unfold handleReferenceClick. intros [-> | ->]; [|reflexivity].
    destruct viewer; reflexivity.
  - intros container -> -> Hnone. unfold handleReferenceClick.
    cbn [negb]. now rewrite Hnone.
  - intros container -> -> Hsome. unfold handleReferenceClick. cbn [negb].
    destruct (Viewer.pageTextContents container) as [|p ps] eqn:Epages;
      [contradiction|].
    cbn [length Nat.eqb]. rewrite <- Epages. clear Hsome.
    set (run := findPhrase (Reference.phrase reference) (Reference.id reference)
                           (Viewer.pageTextContents container)
                           (zeroIndexed (Reference.pageHint reference))).
    split.
    + intros Hnone. rewrite Hnone. cbn [fst snd]. split; [reflexivity|].
      apply in_or_app. right. now left.
    + intros h Hh. rewrite Hh. cbn [fst snd].
      destruct (findPhrase_some _ _ _ _ _ Hh) as (i & pageContent & Hpage & ->).
      destruct (pageAt_inside _ _ _ Hpage) as [Hrange _].
      assert (Hrects : Highlight.rects
                         (resultFor (Reference.phrase reference)
                                    (Reference.id reference) i pageContent)
                       <> []).
      { unfold resultFor. cbn [Highlight.rects].
        destruct (value (findTextRects (Reference.phrase reference)
                                       pageContent));
          simpl; discriminate. }
      unfold resultFor in *. cbn [Highlight.pageIndex Highlight.id] in *.
      split; [reflexivity|]. split; [reflexivity|]. split; [|split; [|split;
                                                                       [|split]]].
      * intros h' Hin Hid.
        cbn [Store.addHighlight Store.highlights Highlight.id] in Hin.
        apply in_app_or in Hin. destruct Hin as [Hin | [<- | []]];
          [|reflexivity].
        apply filter_In in Hin. destruct Hin as [_ Hother].
        apply otherId_true in Hother. contradiction.
      * exact Hrects.
      * rewrite Epages in Hrange. cbn [length] in *. lia.
      * unfold pageHighlights. apply filter_In. split.
        -- cbn [Store.addHighlight Store.highlights]. apply in_or_app.
           right. now left.
        -- cbn [Highlight.pageIndex]. apply Z.eqb_eq. lia.
      * intros Hin. apply in_app_or in Hin. destruct Hin as [Hin | Hin].
        -- apply in_map_iff in Hin. destruct Hin as [d [Hd _]]. discriminate.
        -- destruct (Viewer.hasPageElement container (i + 1));
             [destruct Hin as [Hin | []]; discriminate | destruct Hin].
Qed.

Lemma handleReferenceClick_outcome_witness :
  Store.activeReferenceId
    (snd (handleReferenceClick
            true
            (Some (Viewer.mk [Some (revenuePage 0)] (fun _ => true)))
            (Reference.mk (lit "ref-1") (lit "[1]") (lit "Revenue 12.8")
                          (Some 1%Z) None)
            Store.initial))
  = Some (lit "ref-1").
Proof.
  destruct (handleReferenceClick_outcome
              true
              (Some (Viewer.mk [Some (revenuePage 0)] (fun _ => true)))
              (Reference.mk (lit "ref-1") (lit "[1]") (lit "Revenue 12.8")
                            (Some 1%Z) None)
              Store.initial) as (_ & _ & Hfound).
  destruct (Hfound (Viewer.mk [Some (revenuePage 0)] (fun _ => true))
                   eq_refl eq_refl ltac:(discriminate)) as [_ Hsome].
  assert (E : exists h,
             value (findPhrase (lit "Revenue 12.8") (lit "ref-1")
                               [Some (revenuePage 0)] (Some 0%Z)) = Some h)
    by (vm_compute; eexists; reflexivity).
  destruct E as [h E]. exact (proj1 (proj2 (Hsome h E))).
Defined.

Lemma mergeRects_count_witness :
  mergeRects [Rect.mk 0 100 50 10; Rect.mk 55 101 45 12] <> [].
Proof.
  intros H.
  apply (proj1 (proj2 (mergeRects_count
                         [Rect.mk 0 100 50 10; Rect.mk 55 101 45 12]))) in H.
  discriminate.
Defined.

Lemma searchOrder_each_page_once_witness :
  In 1%Z (searchOrder [Some barePage; Some (revenuePage 1); None] (Some 7%Z)).
Proof.
  apply (proj1 (proj2 (searchOrder_each_page_once
                         [Some barePage; Some (revenuePage 1); None]
                         (Some 7%Z)))).
  simpl. lia.
Defined.

Lemma findPhrase_error_logged_witness :
  existsb isNotFoundError
          (console (findPhrase (lit "zebra crossing") (lit "ref-9")
                               [Some (revenuePage 0)] None))
  = true.
Proof.
  apply (proj2 (findPhrase_error_logged
                  (lit "zebra crossing") (lit "ref-9")
                  [Some (revenuePage 0)] None)).
  vm_compute. reflexivity.
Defined.

(* ================================================================== *)
(** * The viewer's page text and the resolver's buffer                 *)
(* ================================================================== *)

Section ViewerFacts.

(** Where the white space at the head of [r ++ z] ends. *)
Lemma skipn_span_app r z :
  skipn (span is_space (r ++ z)) (r ++ z)
  = if span is_space r <? length r
    then skipn (span is_space r) r ++ z
    else skipn (span is_space z) z.
Proof.
  induction r as [|c r IH]; [reflexivity|].
  cbn [app span length]. destruct (is_space c).
  - cbn [skipn]. rewrite IH. reflexivity.
  - reflexivity.
Qed.

Lemma collapseWhitespace_unfold x :
  collapseWhitespace (skipn (span is_space (collapseWhitespace x))
                            (collapseWhitespace x))
  = collapseWhitespace (skipn (span is_space x) x).
Proof.
  destruct x as [|c r]; [reflexivity|].
  destruct (is_space c) eqn:Hc.
  - rewrite (collapseWhitespace_space c r Hc).
    cbn [span]. change (is_space " ") with true. cbn iota. rewrite Hc.
    rewrite (span_collapsed _ (skipn_span_head is_space r)).
    cbn [skipn]. apply collapseWhitespace_idem.
  - rewrite (collapseWhitespace_head c r Hc).
    cbn [span]. rewrite Hc. cbn [skipn].
    rewrite <- (collapseWhitespace_head c r Hc).
    apply collapseWhitespace_idem.
Qed.

(** Collapsing a text is collapsing it after its end was collapsed. *)
Lemma collapseWhitespace_app a x :
  collapseWhitespace (a ++ x) = collapseWhitespace (a ++ collapseWhitespace x).
Proof.
  induction a as [|c r IH] using suffix_ind.
  - cbn [app]. symmetry. apply collapseWhitespace_idem.
  - cbn [app]. destruct (is_space c) eqn:Hc.
    + rewrite !(collapseWhitespace_space c _ Hc), !skipn_span_app.
      f_equal. destruct (span is_space r <? length r).
      * apply IH.
      * symmetry. apply collapseWhitespace_unfold.
    + rewrite !(collapseWhitespace_head c _ Hc). f_equal. exact (IH 0).
Qed.

Lemma collapseWhitespace_congruence a x y :
  collapseWhitespace x = collapseWhitespace y ->
  collapseWhitespace (a ++ x) = collapseWhitespace (a ++ y).
Proof.
  intros H. rewrite (collapseWhitespace_app a x), (collapseWhitespace_app a y).
  now rewrite H.
Qed.

(** One of two spaces in a row can go. *)
Lemma collapseWhitespace_squeeze u v :
  collapseWhitespace (u ++ " "%char :: " "%char :: v)
  = collapseWhitespace (u ++ " "%char :: v).
Proof.
  apply collapseWhitespace_congruence.
  rewrite !(collapseWhitespace_space " " _ eq_refl).
  cbn [span]. change (is_space " ") with true. cbn iota. reflexivity.
Qed.

Lemma toLowerCase_app a b :
  toLowerCase (a ++ b) = toLowerCase a ++ toLowerCase b.
Proof. apply map_app. Qed.

Lemma buildFullText_head itemIndex item rest :
  exists tail,
    fst (buildFullText itemIndex (item :: rest)) = TextItem.str item ++ tail.
Proof.
  cbn [buildFullText].
  destruct (buildFullText (S itemIndex) rest) as [fullText charToItemMap].
  cbn [fst]. eauto.
Qed.

Lemma buildFullText_cons itemIndex item next rest :
  fst (buildFullText itemIndex (item :: next :: rest))
  = TextItem.str item
    ++ (if negb (endsWith (TextItem.str item) (lit " "))
           && negb (startsWith (TextItem.str next) (lit " "))
        then lit " " else [])
    ++ fst (buildFullText (S itemIndex) (next :: rest)).
Proof.
  change (buildFullText itemIndex (item :: next :: rest))
    with (let (fullText, charToItemMap) :=
            buildFullText (S itemIndex) (next :: rest) in
          (TextItem.str item
           ++ (if negb (endsWith (TextItem.str item) (lit " "))
                  && negb (startsWith (TextItem.str next) (lit " "))
               then lit " " else [])
           ++ fullText,
           repeat itemIndex (length (TextItem.str item))
           ++ repeat itemIndex
                     (length (if negb (endsWith (TextItem.str item) (lit " "))
                                 && negb (startsWith (TextItem.str next)
                                                     (lit " "))
                              then lit " " else []))
           ++ charToItemMap)).
  destruct (buildFullText (S itemIndex) (next :: rest)). reflexivity.
Qed.

(** The joined item texts and the buffer differ by white space only. *)
Lemma joinSpace_buffer itemIndex items :
  collapseWhitespace (toLowerCase (joinSpace (map TextItem.str items)))
  = collapseWhitespace (toLowerCase (fst (buildFullText itemIndex items))).
Proof.
  revert itemIndex. induction items as [|item rest IH]; intros itemIndex;
    [reflexivity|].
  destruct rest as [|next rest'].
  - cbn. now rewrite app_nil_r.
  - specialize (IH (S itemIndex)).
    destruct (buildFullText_head (S itemIndex) next rest') as [tail Htail].
    rewrite buildFullText_cons.
    set (buffer := fst (buildFullText (S itemIndex) (next :: rest'))) in *.
    change (joinSpace (map TextItem.str (item :: next :: rest')))
      with (TextItem.str item
            ++ [" "%char] ++ joinSpace (map TextItem.str (next :: rest'))).
    rewrite !toLowerCase_app, app_assoc.
    rewrite (collapseWhitespace_congruence _ _ _ IH), <- app_assoc.
    change (toLowerCase [" "%char]) with [" "%char]. cbn [app].
    destruct (endsWith (TextItem.str item) (lit " ")) eqn:Eend;
      destruct (startsWith (TextItem.str next) (lit " ")) eqn:Estart;
      cbn [negb andb];
      change (toLowerCase (lit " ")) with [" "%char];
      change (toLowerCase []) with (@nil ascii); cbn [app];
      try reflexivity.
    + unfold endsWith in Eend.
      apply startsWith_spec in Eend. destruct Eend as [w Hw].
      cbn [lit list_ascii_of_string rev app] in Hw.
      apply (f_equal (@rev ascii)) in Hw. rewrite rev_involutive in Hw.
      cbn [rev] in Hw. rewrite Hw, !toLowerCase_app.
      change (toLowerCase [" "%char]) with [" "%char].
      rewrite <- !app_assoc. cbn [app]. apply collapseWhitespace_squeeze.
    + unfold endsWith in Eend.
      apply startsWith_spec in Eend. destruct Eend as [w Hw].
      cbn [lit list_ascii_of_string rev app] in Hw.
      apply (f_equal (@rev ascii)) in Hw. rewrite rev_involutive in Hw.
      cbn [rev] in Hw. rewrite Hw, !toLowerCase_app.
      change (toLowerCase [" "%char]) with [" "%char].
      rewrite <- !app_assoc. cbn [app]. apply collapseWhitespace_squeeze.
    + apply startsWith_spec in Estart. destruct Estart as [w Hw].
      clearbody buffer. rewrite Htail, Hw.
      cbn [lit list_ascii_of_string app].
      change (toLowerCase (" "%char :: w ++ tail))
        with (" "%char :: toLowerCase (w ++ tail)).
      apply collapseWhitespace_squeeze.
Qed.

Lemma indexOf_from_includes i s sub :
  (0 <= i)%Z ->
  if includes s sub then (0 <= indexOf_from i s sub)%Z
  else indexOf_from i s sub = (-1)%Z.
Proof.
  revert i. induction s as [|c r IH]; intros i Hi; cbn [includes indexOf_from].
  - destruct (startsWith [] sub); [exact Hi | reflexivity].
  - destruct (startsWith (c :: r) sub); [exact Hi|].
    cbn [orb]. apply IH. lia.
Qed.

End ViewerFacts.

Lemma joinSpace_normal_form (items : list TextItem.t) :
  normalizeForMatching (joinSpace (map TextItem.str items))
  = normalizeForMatching (fst (buildFullText 0 items)).
Proof.
  unfold normalizeForMatching.
  fold (collapseWhitespace
          (toLowerCase (joinSpace (map TextItem.str items)))).
  fold (collapseWhitespace (toLowerCase (fst (buildFullText 0 items)))).
  now rewrite (joinSpace_buffer 0 items).
Qed.

(** X21.  The page text the viewer stores (the item texts joined by
    spaces) and the buffer the span resolver rebuilds from the same items
    have the same normal form. *)
Theorem viewer_text_matches_buffer (pageNumber : Z) (items : list TextItem.t) :
  Page.text (extractPage pageNumber items)
  = joinSpace (map TextItem.str items)
  /\ normalizeForMatching (Page.text (extractPage pageNumber items))
     = normalizeForMatching (fst (buildFullText 0 items)).
Proof.
  split; [reflexivity|]. apply joinSpace_normal_form.
Qed.

Lemma exact_span_located normalizedPhrase normalizedFullText :
  includes normalizedFullText normalizedPhrase = true ->
  (0 <= indexOf normalizedFullText normalizedPhrase)%Z
  /\ locateSpan normalizedPhrase normalizedFullText
     = ([], Some (indexOf normalizedFullText normalizedPhrase,
                  len normalizedPhrase)).
Proof.
  intros Hinc.
  pose proof (indexOf_from_includes 0 normalizedFullText normalizedPhrase
                                    (Z.le_refl 0)) as Hidx.
  rewrite Hinc in Hidx.
  fold (indexOf normalizedFullText normalizedPhrase) in Hidx.
  split; [exact Hidx|]. unfold locateSpan.
  destruct (Z.eqb_spec (indexOf normalizedFullText normalizedPhrase) (-1));
    [lia | reflexivity].
Qed.

(** X22.  On a page the viewer extracted, a phrase whose normal form
    occurs in the normalised page text (the exact branch of the fuzzy
    match) is located by the exact pass of the span resolver: the partial
    pass does not run and the resolver writes nothing to the console. *)
Theorem viewer_page_exact_span (pageNumber : Z) (items : list TextItem.t)
        (phrase : jsstring) :
  includes (normalizeForMatching (Page.text (extractPage pageNumber items)))
           (normalizeForMatching phrase) = true ->
  fuzzyMatch (Page.text (extractPage pageNumber items)) phrase = true
  /\ locateSpan (normalizeForMatching phrase)
                (normalizeForMatching (fst (buildFullText 0 items)))
     = ([], Some (indexOf (normalizeForMatching (fst (buildFullText 0 items)))
                          (normalizeForMatching phrase),
                  len (normalizeForMatching phrase)))
  /\ console (matchingItemIndices phrase items) = []
  /\ (exists touched, value (matchingItemIndices phrase items) = Some touched)
  /\ console (findTextRects phrase (extractPage pageNumber items)) = [].
Proof.
  intros Hinc.
  split; [unfold fuzzyMatch; now rewrite Hinc|].
  cbn [extractPage Page.text] in Hinc.
  rewrite joinSpace_normal_form in Hinc.
  destruct (exact_span_located _ _ Hinc) as [_ Hspan].
  split; [exact Hspan|].
  assert (Hresolve : console (matchingItemIndices phrase items) = []
                     /\ exists touched,
                       value (matchingItemIndices phrase items) = Some touched).
  { unfold matchingItemIndices.
    destruct (buildFullText 0 items) as [fullText charToItemMap].
    cbn [fst] in Hspan. rewrite console_bind, value_bind, Hspan.
    cbn [console value fst snd ret app]. split; [reflexivity | eauto]. }
  destruct Hresolve as [Hquiet [touched Htouched]].
  split; [exact Hquiet|]. split; [now exists touched|].
  unfold findTextRects. cbn [extractPage Page.items].
  rewrite console_bind, Hquiet, Htouched. reflexivity.
Qed.

Lemma viewer_page_exact_span_witness :
  console (matchingItemIndices (lit "USD 12800")
                               [fragment "Revenue" 72 700 42 12;
                                fragment " $12,800 " 118 700 50 12;
                                fragment "net" 170 700 20 12])
  = [].
Proof.
  apply (viewer_page_exact_span
           1 [fragment "Revenue" 72 700 42 12;
              fragment " $12,800 " 118 700 50 12;
              fragment "net" 170 700 20 12]
           (lit "USD 12800")).
  vm_compute. reflexivity.
Defined.

Section ExtractionFacts.

Lemma extractContents_from (pages : list (option (list TextItem.t))) (i : Z) :
  let errors := fst (extractContents i pages) in
  let contents := snd (extractContents i pages) in
  length errors + length contents = length pages
  /\ (forall k pageContent,
         nth_error contents k = Some (Some pageContent) ->
         (i - 1 + Z.of_nat k <= Page.pageIndex pageContent
          < i - 1 + Z.of_nat (length pages))%Z
         /\ Page.text pageContent
            = joinSpace (map TextItem.str (Page.items pageContent))
         /\ nth_error pages (Z.to_nat (Page.pageIndex pageContent - (i - 1)))
            = Some (Some (Page.items pageContent)))
  /\ Forall (fun entry => entry <> None) contents
  /\ (errors = [] ->
      forall k pageContent,
        nth_error contents k = Some (Some pageContent) ->
        Page.pageIndex pageContent = (i - 1 + Z.of_nat k)%Z).
Proof.
  revert i. induction pages as [|read rest IH]; intros i; cbn zeta.
  - cbn. split; [reflexivity|].
    split; [intros [|k] pc Hk; discriminate|].
    split; [constructor|]. intros _ [|k] pc Hk; discriminate.
  - cbn [extractContents]. specialize (IH (i + 1)%Z). cbn zeta in IH.
    destruct (extractContents (i + 1) rest) as [errors contents].
    cbn [fst snd] in IH. destruct IH as (Hlen & Hpages & Hsome & Hall).
    destruct read as [items|]; cbn [fst snd length].
    + split; [lia|]. split; [|split].
      * intros [|k] pc Hk; cbn [nth_error] in Hk.
        -- apply Some_inj in Hk. apply Some_inj in Hk. subst pc.
           cbn [extractPage Page.pageIndex Page.text Page.items].
           replace (Z.to_nat (i - 1 - (i - 1))) with 0 by lia.
           repeat split; try reflexivity; lia.
        -- destruct (Hpages k pc Hk) as (Hr & Ht & Hn).
           split; [lia|]. split; [exact Ht|].
           replace (Z.to_nat (Page.pageIndex pc - (i - 1)))
             with (S (Z.to_nat (Page.pageIndex pc - (i + 1 - 1)))) by lia.
           exact Hn.
      * constructor; [discriminate | exact Hsome].
      * intros Hnone [|k] pc Hk; cbn [nth_error] in Hk.
        -- apply Some_inj in Hk. apply Some_inj in Hk. subst pc.
           cbn [extractPage Page.pageIndex]. lia.
        -- rewrite (Hall Hnone k pc Hk). lia.
    + split; [lia|]. split; [|split].
      * intros k pc Hk. destruct (Hpages k pc Hk) as (Hr & Ht & Hn).
        split; [lia|]. split; [exact Ht|].
        replace (Z.to_nat (Page.pageIndex pc - (i - 1)))
          with (S (Z.to_nat (Page.pageIndex pc - (i + 1 - 1)))) by lia.
        exact Hn.
      * exact Hsome.
      * discriminate.
Qed.

(** The pages kept are those that could be read, the pages logged those
    that could not, both in page order. *)
Lemma extractContents_kept (pages : list (option (list TextItem.t))) (i : Z) :
  exists kept : list Page.t,
    snd (extractContents i pages) = map Some kept
    /\ map Page.pageIndex kept
       = map (fun k => i - 1 + Z.of_nat k)%Z
             (filter (readable pages) (seq 0 (length pages)))
    /\ fst (extractContents i pages)
       = map (fun k => i + Z.of_nat k)%Z
             (filter (fun k => negb (readable pages k)) (seq 0 (length pages))).
Proof.
  revert i. induction pages as [|read rest IH]; intros i.
  - exists []. repeat split.
  - destruct (IH (i + 1)%Z) as (kept & Hkept & Hindex & Herrors).
    cbn [extractContents length seq]. rewrite <- seq_shift.
    destruct (extractContents (i + 1) rest) as [errors contents].
    cbn [fst snd] in Hkept, Herrors. cbn [filter].
    rewrite !filter_map_swap.
    change (fun a => readable (read :: rest) (S a)) with (readable rest).
    change (fun a => negb (readable (read :: rest) (S a)))
      with (fun a => negb (readable rest a)).
    assert (Hshift : forall k, (i + 1 - 1 + Z.of_nat k
                                = i - 1 + Z.of_nat (S k))%Z) by (intros; lia).
    assert (Hshift' : forall k, (i + 1 + Z.of_nat k
                                 = i + Z.of_nat (S k))%Z) by (intros; lia).
    destruct read as [items|].
    + exists (extractPage i items :: kept).
      change (readable (Some items :: rest) 0) with true.
      cbn [fst snd map negb extractPage Page.pageIndex].
      rewrite !map_map.
      split; [now rewrite Hkept|]. split.
      * rewrite Hindex. f_equal; [lia|]. apply map_ext. exact Hshift.
      * rewrite Herrors. apply map_ext. exact Hshift'.
    + exists kept.
      change (readable (None :: rest) 0) with false.
      cbn [fst snd map negb].
      rewrite !map_map.
      split; [exact Hkept|]. split.
      * rewrite Hindex. apply map_ext. exact Hshift.
      * rewrite Herrors. f_equal; [lia|]. apply map_ext. exact Hshift'.
Qed.

End ExtractionFacts.

(** X23.  The extraction keeps exactly the pages that could be read, in
    page order and each once, and logs exactly the numbers of the others,
    in page order: the kept pages' [pageIndex] are the positions of the
    readable pages, the logged numbers the positions of the others plus
    one.  A kept page has its number less one as [pageIndex], the items
    read for that page, and their texts joined by single spaces as text.
    So the page at array index [k] never has a [pageIndex] below [k], and
    has [pageIndex] [k] when every page could be read. *)
Theorem extractContents_pages (pages : list (option (list TextItem.t))) :
  let errors := fst (extractContents 1 pages) in
  let contents := snd (extractContents 1 pages) in
  let positions := seq 0 (length pages) in
  exists kept : list Page.t,
    contents = map Some kept
    /\ map Page.pageIndex kept
       = map Z.of_nat (filter (readable pages) positions)
    /\ errors
       = map (fun k => Z.of_nat k + 1)%Z
             (filter (fun k => negb (readable pages k)) positions)
    /\ Forall (fun pageContent =>
                 nth_error pages (Z.to_nat (Page.pageIndex pageContent))
                 = Some (Some (Page.items pageContent))
                 /\ Page.text pageContent
                    = joinSpace (map TextItem.str (Page.items pageContent)))
              kept
    /\ (forall k pageContent,
           nth_error kept k = Some pageContent ->
           (Z.of_nat k <= Page.pageIndex pageContent)%Z)
    /\ (errors = [] ->
        forall k pageContent,
          nth_error kept k = Some pageContent ->
          Page.pageIndex pageContent = Z.of_nat k).
Proof.
  cbn zeta.
  destruct (extractContents_kept pages 1) as (kept & Hkept & Hindex & Herrors).
  pose proof (extractContents_from pages 1) as H. cbn zeta in H.
  destruct H as (_ & Hpages & _ & Hall).
  assert (Hnth : forall k pageContent,
             nth_error kept k = Some pageContent ->
             nth_error (snd (extractContents 1 pages)) k
             = Some (Some pageContent)).
  { intros k pc Hk. rewrite Hkept. now apply map_nth_error. }
  exists kept. split; [exact Hkept|]. split; [|split; [|split; [|split]]].
  - rewrite Hindex. apply map_ext. intros k. lia.
  - rewrite Herrors. apply map_ext. intros k. lia.
  - apply Forall_forall. intros pc Hin.
    destruct (In_nth_error _ _ Hin) as [k Hk].
    destruct (Hpages k pc (Hnth k pc Hk)) as (_ & Ht & Hn).
    split; [|exact Ht].
    replace (Page.pageIndex pc) with (Page.pageIndex pc - (1 - 1))%Z by lia.
    exact Hn.
  - intros k pc Hk. destruct (Hpages k pc (Hnth k pc Hk)) as (Hr & _). lia.
  - intros Hnone k pc Hk. rewrite (Hall Hnone k pc (Hnth k pc Hk)). lia.
Qed.

Lemma extractContents_pages_witness :
  let pages := [Some []; None; Some [fragment "Revenue" 72 700 42 12]; None] in
  exists kept,
    snd (extractContents 1 pages) = map Some kept
    /\ map Page.pageIndex kept = [0; 2]%Z
    /\ fst (extractContents 1 pages) = [2; 4]%Z.
Proof.
  cbn zeta.
  destruct (extractContents_pages
              [Some []; None; Some [fragment "Revenue" 72 700 42 12]; None])
    as (kept & Hkept & Hindex & Herrors & _).
  exists kept. split; [exact Hkept|]. split; [exact Hindex | exact Herrors].
Defined.

(* ================================================================== *)
(** * From the document to the highlighted page                        *)
(* ================================================================== *)

(** A highlight that [findPhrase] returns was built for a page that
    qualifies. *)
Lemma findPhrase_some_qualifies phrase id pageContents pageHint h :
  value (findPhrase phrase id pageContents pageHint) = Some h ->
  exists pageContent,
    pageAt pageContents (Highlight.pageIndex h) = Some pageContent
    /\ fuzzyMatch (Page.text pageContent) phrase = true.
Proof.
  rewrite (proj1 (findPhrase_searchPages phrase id pageContents pageHint)).
  rewrite searchPages_find.
  destruct (find _ _) as [i|] eqn:Efind; [|discriminate].
  apply find_some in Efind. destruct Efind as [_ Hq].
  destruct (qualifies_page _ _ _ Hq) as [pageContent [Hpage Hmatch]].
  rewrite Hpage. intros H. apply Some_inj in H. subst h.
  exists pageContent. cbn [resultFor Highlight.pageIndex]. now split.
Qed.

(** X24.  When every page of the document could be read, the page index
    of a highlight found in the extracted contents is the index of the
    document page whose items were searched: a page of the document
    whose joined item texts fuzzy-match the phrase. *)
Theorem highlight_on_matching_page
        (pages : list (option (list TextItem.t)))
        (phrase id : jsstring) (pageHint : option Z) (h : Highlight.t) :
  fst (extractContents 1 pages) = [] ->
  value (findPhrase phrase id (snd (extractContents 1 pages)) pageHint)
  = Some h ->
  (0 <= Highlight.pageIndex h < Z.of_nat (length pages))%Z
  /\ exists items,
      nth_error pages (Z.to_nat (Highlight.pageIndex h)) = Some (Some items)
      /\ fuzzyMatch (joinSpace (map TextItem.str items)) phrase = true.
Proof.
  intros Hnone Hh.
  destruct (findPhrase_some_qualifies _ _ _ _ _ Hh)
    as (pageContent & Hpage & Hmatch).
  destruct (pageAt_inside _ _ _ Hpage) as [Hrange Hnth].
  pose proof (extractContents_from pages 1) as H. cbn zeta in H.
  destruct H as (_ & Hpages & _ & Hall).
  destruct (Hpages _ _ Hnth) as (Hr & Ht & Hn).
  pose proof (Hall Hnone _ _ Hnth) as Hidx.
  replace (Highlight.pageIndex h) with (Page.pageIndex pageContent) by lia.
  split; [lia|]. exists (Page.items pageContent).
  replace (Page.pageIndex pageContent)
    with (Page.pageIndex pageContent - (1 - 1))%Z by lia.
  split; [exact Hn | now rewrite <- Ht].
Qed.

Lemma highlight_on_matching_page_witness :
  exists items,
    nth_error [Some []; Some (Page.items (revenuePage 1))] 1 = Some (Some items)
    /\ fuzzyMatch (joinSpace (map TextItem.str items)) (lit "Revenue 12.8")
       = true.
Proof.
  assert (E : exists h,
             value (findPhrase
                      (lit "Revenue 12.8") (lit "ref-1")
                      (snd (extractContents
                              1 [Some []; Some (Page.items (revenuePage 1))]))
                      (Some 0%Z))
             = Some h /\ Highlight.pageIndex h = 1%Z)
    by (vm_compute; eexists; split; reflexivity).
  destruct E as (h & E & Hidx).
  destruct (highlight_on_matching_page
              [Some []; Some (Page.items (revenuePage 1))]
              (lit "Revenue 12.8") (lit "ref-1") (Some 0%Z) h
              eq_refl E) as [_ H].
  rewrite Hidx in H. exact H.
Defined.

(* ================================================================== *)
(** * The lines of the analysis text                                   *)
(* ================================================================== *)

(** X25.  A line renders as a heading exactly when its trimmed text
    begins with [#], as a rule exactly when it trims to [---], as a
    paragraph exactly when it is neither and not blank, and as nothing
    exactly when it is blank.  A paragraph keeps the line as its text.  A
    heading whose line itself begins with [#] has as level the number of
    leading [#]s, at most 6, and as text the line without them and the
    white space after them; one whose line begins with white space has
    level 1 and keeps the whole line, [#]s included. *)
Theorem renderLine_shape (references : list Reference.t)
        (activeReferenceId : option jsstring) (line : jsstring) :
  let shown := renderLine references activeReferenceId line in
  let hashes := span isHash line in
  let afterHashes := skipn hashes line in
  ((exists level parts, shown = Heading level parts)
   <-> startsWith (trim line) (lit "#") = true)
  /\ (shown = Rule <-> trim line = lit "---")
  /\ ((exists parts, shown = Paragraph parts)
      <-> (trim line <> [] /\ trim line <> lit "---"
           /\ startsWith (trim line) (lit "#") = false))
  /\ (shown = Nothing <-> trim line = [])
  /\ (forall parts, shown = Paragraph parts -> flat_map nodeText parts = line)
  /\ (forall level parts,
         shown = Heading level parts ->
         1 <= level <= 6
         /\ (startsWith line (lit "#") = true ->
             level = Nat.min hashes 6
             /\ flat_map nodeText parts
                = skipn (span is_space afterHashes) afterHashes
             /\ match flat_map nodeText parts with
                | c :: _ => is_space c = false
                | [] => True
                end)
         /\ (startsWith line (lit "#") = false ->
             level = 1 /\ flat_map nodeText parts = line)).
Proof.
  cbn zeta. unfold renderLine.
  assert (Hrule : trim line = lit "---" ->
                  startsWith (trim line) (lit "#") = false)
    by (now intros ->).
  assert (Hblank : trim line = [] -> startsWith (trim line) (lit "#") = false)
    by (now intros ->).
  assert (Hlevel : 1 <= headingLevel line)
    by (unfold headingLevel; destruct (span isHash line); lia).
  destruct (startsWith (trim line) (lit "#")) eqn:Ehash.
  - split; [split; [reflexivity | intros _; eauto]|].
    split; [split; [discriminate | intros H; now specialize (Hrule H)]|].
    split; [split; [intros [parts H]; discriminate | now intros (_ & _ & H)]|].
    split; [split; [discriminate | intros H; now specialize (Hblank H)]|].
    split; [discriminate|].
    intros level parts H. injection H as <- <-.
    rewrite renderText_concat.
    split; [lia|]. split.
    + intros Hstart. apply startsWith_spec in Hstart.
      destruct Hstart as [rest ->]. unfold headingLevel, headingText.
      cbn [lit list_ascii_of_string app span isHash].
      change (Ascii.eqb "#" "#") with true. cbn iota.
      split; [reflexivity|]. split; [reflexivity|].
      apply skipn_span_head.
    + intros Hstart.
      assert (Hnone : span isHash line = 0).
      { destruct line as [|c r]; [reflexivity|].
        cbn [startsWith lit list_ascii_of_string] in Hstart.
        rewrite andb_true_r in Hstart. cbn [span]. unfold isHash.
        now rewrite Hstart. }
      unfold headingLevel, headingText. rewrite Hnone. now split.
  - destruct (JsString.eqb (trim line) (lit "---")) eqn:Erule.
    + apply eqb_eq in Erule.
      split; [split; [intros (? & ? & H) | intros H]; discriminate|].
      split; [now split|].
      split; [split; [intros [? H]; discriminate | now intros (_ & H & _)]|].
      split; [split; [discriminate | intros H; rewrite H in Erule; discriminate]|].
      split; [discriminate|]. discriminate.
    + assert (Hnot : trim line <> lit "---").
      { intros H. apply eqb_eq in H. rewrite H in Erule. discriminate. }
      destruct (trim line) as [|c r] eqn:Etrim.
      * split; [split; [intros (? & ? & H) | intros H]; discriminate|].
        split; [split; [discriminate | intros H; discriminate]|].
        split; [split; [intros [? H]; discriminate | now intros (H & _)]|].
        split; [now split|].
        split; [discriminate|]. discriminate.
      * split; [split; [intros (? & ? & H) | intros H]; discriminate|].
        split; [split; [discriminate | intros H; now apply Hnot in H]|].
        split; [split; [intros _; now repeat split | intros _; eauto]|].
        split; [split; [discriminate | intros H; discriminate]|].
        split; [|discriminate].
        intros parts H. injection H as <-. apply renderText_concat.
Qed.

Lemma renderLine_shape_witness :
  renderLine [] None (lit "  ---  ") = Rule
  /\ exists parts,
      renderLine [] None (lit " - - - ") = Paragraph parts.
Proof.
  destruct (renderLine_shape [] None (lit "  ---  ")) as (_ & Hrule & _).
  destruct (renderLine_shape [] None (lit " - - - ")) as (_ & _ & Hpar & _).
  split.
  - apply Hrule. reflexivity.
  - apply Hpar. repeat split; [discriminate | discriminate].
Defined.

(* ================================================================== *)
(** * Rectangles on different lines                                    *)
(* ================================================================== *)

Section ApartFacts.

Lemma apart_sym a b : apart a b -> apart b a.
Proof.
  unfold apart. intros H.
  setoid_replace (Rect.y b - Rect.y a)%Q with (- (Rect.y a - Rect.y b))%Q
    by ring.
  now rewrite Qabs_opp.
Qed.

Lemma apart_perm (l l' : list Rect.t) :
  Permutation l l' -> StronglySorted apart l -> StronglySorted apart l'.
Proof.
  induction 1 as [|a l l' Hp IH|a b l|l l' l'' _ IH1 _ IH2]; intros Hs.
  - constructor.
  - inversion Hs as [|? ? Hl Ha]; subst. constructor; [now apply IH|].
    now apply (Permutation_Forall Hp).
  - inversion Hs as [|? ? Hl Hb]; subst.
    inversion Hl as [|? ? Hl' Ha]; subst.
    inversion Hb as [|? ? Hba Hb']; subst.
    constructor; [constructor; assumption|].
    constructor; [now apply apart_sym | exact Ha].
  - now apply IH2, IH1.
Qed.

Lemma mergeLoop_apart current rest :
  StronglySorted apart (current :: rest) ->
  mergeLoop current rest = current :: rest.
Proof.
  revert current. induction rest as [|next rest IH]; intros current Hs;
    [reflexivity|].
  inversion Hs as [|? ? Hrest Hcur]; subst.
  inversion Hcur as [|? ? Hcn _]; subst.
  cbn [mergeLoop]. unfold Qlt_bool.
  replace (Qle_bool 5 (Qabs (Rect.y current - Rect.y next))) with true
    by (symmetry; now apply Qle_bool_iff).
  cbn [negb andb]. f_equal. now apply IH.
Qed.

Lemma indexOf_inside s sub :
  indexOf s sub <> (-1)%Z ->
  (0 <= indexOf s sub /\ indexOf s sub + len sub <= len s)%Z.
Proof.
  intros Hfound. unfold indexOf in *.
  destruct (indexOf_from_found 0 s sub _ eq_refl Hfound (Z.le_refl 0))
    as (n & Hn & Hle & Hs).
  rewrite Hn. apply startsWith_spec in Hs. destruct Hs as [rest Hrest].
  apply (f_equal (@length ascii)) in Hrest.
  rewrite length_skipn, length_app in Hrest. unfold len. lia.
Qed.

Lemma partialPass_inside allKeyTerms normalizedFullText terms startIndex
      searchLength :
  value (partialPass allKeyTerms normalizedFullText terms)
  = Some (startIndex, searchLength) ->
  (0 <= startIndex /\ 0 <= searchLength <= 100
   /\ startIndex + searchLength <= len normalizedFullText)%Z
  /\ exists term, In term terms
                  /\ indexOf normalizedFullText term = startIndex.
Proof.
  induction terms as [|term rest IH]; [discriminate|].
  cbn [partialPass].
  destruct (Z.eqb_spec (indexOf normalizedFullText term) (-1)) as [_ | Hfound].
  - intros H. destruct (IH H) as [Hin [t [Ht Hidx]]].
    split; [exact Hin|]. exists t. split; [now right | exact Hidx].
  - destruct (Qle_bool _ _).
    + rewrite value_bind. cbn [value ret snd]. intros H.
      apply Some_inj in H. injection H as <- <-.
      destruct (indexOf_inside normalizedFullText term Hfound) as [H0 H1].
      assert (0 <= len term)%Z by (unfold len; lia).
      split; [lia|]. exists term. split; [now left | reflexivity].
    + intros H. destruct (IH H) as [Hin [t [Ht Hidx]]].
      split; [exact Hin|]. exists t. split; [now right | exact Hidx].
Qed.

Lemma includes_refl s : includes s s = true.
Proof. apply includes_spec. exists [], []. now rewrite app_nil_r. Qed.

End ApartFacts.

(** X26.  Rectangles that all lie on different lines (any two have [y]
    5 or more apart) are never merged: the merger returns them all,
    sorted. *)
Theorem mergeRects_keeps_lines_apart (rects : list Rect.t) :
  StronglySorted apart rects ->
  Permutation rects (mergeRects rects)
  /\ length (mergeRects rects) = length rects
  /\ (2 <= length rects -> mergeRects rects = sort byYthenX rects).
Proof.
  intros Hs.
  assert (H : 2 <= length rects -> mergeRects rects = sort byYthenX rects).
  { intros Hlen. unfold mergeRects.
    destruct (Nat.leb_spec (length rects) 1) as [Hle | _]; [lia|].
    pose proof (apart_perm _ _ (Permutation_sym (sort_perm _ byYthenX rects)) Hs)
      as Hsorted.
    destruct (sort byYthenX rects) as [|first rest]; [reflexivity|].
    now apply mergeLoop_apart. }
  assert (Hperm : Permutation rects (mergeRects rects)).
  { destruct (Nat.leb_spec (length rects) 1) as [Hle | Hgt].
    - unfold mergeRects.
      replace (length rects <=? 1) with true
        by (symmetry; now apply Nat.leb_le).
      reflexivity.
    - rewrite H by lia. apply Permutation_sym, sort_perm. }
  split; [exact Hperm|]. split; [|exact H].
  symmetry. now apply Permutation_length.
Qed.

Lemma mergeRects_keeps_lines_apart_witness :
  length (mergeRects [Rect.mk 0 200 30 12; Rect.mk 0 100 50 10;
                      Rect.mk 5 105 45 12])
  = 3.
Proof.
  apply (mergeRects_keeps_lines_apart
           [Rect.mk 0 200 30 12; Rect.mk 0 100 50 10; Rect.mk 5 105 45 12]).
  repeat constructor; unfold apart; vm_compute; discriminate.
Defined.

(** X27.  A span that the resolver locates lies inside the normalised
    page text; when the exact pass failed, it starts at the first
    occurrence of one of the phrase's key terms and is at most 100
    characters long. *)
Theorem locateSpan_inside (normalizedPhrase normalizedFullText : jsstring)
        (startIndex searchLength : Z) :
  value (locateSpan normalizedPhrase normalizedFullText)
  = Some (startIndex, searchLength) ->
  (0 <= startIndex /\ 0 <= searchLength
   /\ startIndex + searchLength <= len normalizedFullText)%Z
  /\ (indexOf normalizedFullText normalizedPhrase <> (-1)%Z ->
      startIndex = indexOf normalizedFullText normalizedPhrase
      /\ searchLength = len normalizedPhrase)
  /\ (indexOf normalizedFullText normalizedPhrase = (-1)%Z ->
      (searchLength <= 100)%Z
      /\ exists term,
          In term (partialKeyTerms normalizedPhrase)
          /\ indexOf normalizedFullText term = startIndex).
Proof.
  unfold locateSpan.
  destruct (Z.eqb_spec (indexOf normalizedFullText normalizedPhrase) (-1))
    as [Hnone | Hfound].
  - intros H. destruct (partialPass_inside _ _ _ _ _ H) as [Hin Hterm].
    split; [lia|]. split; [contradiction|]. intros _. split; [lia | exact Hterm].
  - cbn [value ret snd]. intros H. apply Some_inj in H. injection H as <- <-.
    destruct (indexOf_inside _ _ Hfound) as [H0 H1].
    assert (0 <= len normalizedPhrase)%Z by (unfold len; lia).
    split; [lia|]. split; [now split | contradiction].
Qed.

Lemma locateSpan_inside_witness :
  (0 <= 8 /\ 0 <= 4 /\ 8 + 4 <= len (lit "revenue 12.8 billion"))%Z.
Proof.
  apply (locateSpan_inside (lit "12.8") (lit "revenue 12.8 billion") 8 4).
  reflexivity.
Defined.

(** Two texts with the same normal form fuzzy-match each other;
    so every text matches itself, and so does any copy that differs in
    case, in runs of white space or in the notation of a currency
    amount. *)
Theorem fuzzyMatch_same_normal_form (a b : jsstring) :
  normalizeForMatching a = normalizeForMatching b ->
  fuzzyMatch a b = true /\ fuzzyMatch b a = true
  /\ fuzzyMatch a a = true.
Proof.
  intros H. unfold fuzzyMatch. rewrite H, includes_refl. now repeat split.
Qed.

Lemma fuzzyMatch_same_normal_form_witness :
  fuzzyMatch (lit "Net  revenue: $12,800") (lit "net revenue: USD 12800")
  = true.
Proof.
  apply (fuzzyMatch_same_normal_form
           (lit "Net  revenue: $12,800") (lit "net revenue: USD 12800")).
  vm_compute. reflexivity.
Defined.
